(** * DaMaSCUS-SUN: parameter scans and exclusion limits

    A shallow embedding of [src/Parameter_Scan.cpp]: the grid session
    [Parameter_Scan] (constructor, [Perform_Scan], [Limit_Curve],
    [Import_P_Values], [Export_P_Values], [Export_Limits], [Print_Grid])
    and the direct root-finding variant [Solar_Reflection_Limit]
    ([Upper_Limit], [Compute_Limit_Curve], [Export_Curve]).

    - A C++ [double] is a primitive binary64 [float]; comparisons are the
      IEEE ones ([PrimFloat.ltb], [PrimFloat.leb]), so a NaN compares false
      with everything, as in the program.
    - A [std::vector] is a [list]; element access out of range is undefined
      behaviour in C++ and is the outcome [Undefined] here.
    - Loop counters and sizes ([unsigned int], [int], [size_t]) are [nat]:
      the conversions between them in the source preserve the value as long
      as an axis has fewer than 2^31 - 1 entries, which is the range the
      model covers.
    - The physics (particle model, detector, solar model, halo model, data
      generation) and libphysica ([Find_Root], [Interpolation], table
      files) are outside the file: they are the fields of the classes
      [Collaborators] and [Table_IO].  Their calls may change the particle
      and the models, and may throw; a throw propagates, the source has no
      handler.
    - Console output of the scan (the running [counter], the rounded
      p-value, the picture drawn by [Print_Grid] on rank 0) is not part of
      the model of [Perform_Scan], which therefore has no [mpi_rank]; the
      call [Print_Grid(mpi_rank, i, j)] that every rank makes at the start
      of a cell is kept as the event [Progress i j].  [Print_Grid] itself
      is embedded on its own, as the function from the session to the
      picture it draws. *)

From Stdlib Require Import Floats ZArith Sorting.Sorted.
From stdpp Require Import list strings pretty.

Set Warnings "-inexact-float".
Local Open Scope nat_scope.

(** ** Doubles *)

Module Double.

Definition lt (x y : float) : bool := PrimFloat.ltb x y.
Definition le (x y : float) : bool := PrimFloat.leb x y.
(** [x >= y] in C++ is the IEEE comparison [y <= x]. *)
Definition ge (x y : float) : bool := PrimFloat.leb y x.
Definition is_nan (x : float) : bool := PrimFloat.is_nan x.

End Double.

(** ** Outcomes of a call

    A call returns a value ([Ret]), propagates an exception of a
    collaborator ([Throw]; the objects passed by reference keep the state
    they had when it was thrown), or has undefined behaviour. *)

Inductive result (S A : Type) : Type :=
  | Ret (a : A) (s : S)
  | Throw (s : S)
  | Undefined.
Arguments Ret {S A} a s.
Arguments Throw {S A} s.
Arguments Undefined {S A}.

Definition M (S A : Type) : Type := S -> result S A.

Definition ret {S A} (a : A) : M S A := fun s => Ret a s.

Definition bind {S A B} (m : M S A) (k : A -> M S B) : M S B :=
  fun s =>
    match m s with
    | Ret a s' => k a s'
    | Throw s' => Throw s'
    | Undefined => Undefined
    end.

Definition gets {S A} (f : S -> A) : M S A := fun s => Ret (f s) s.
Definition modify {S} (f : S -> S) : M S unit := fun s => Ret tt (f s).
Definition undefined {S A} : M S A := fun _ => Undefined.

(** [v[i]] on a vector. *)
Definition at_ {S A} (v : list A) (i : nat) : M S A :=
  match v !! i with
  | Some x => ret x
  | None => undefined
  end.

Global Instance M_ret {S} : MRet (M S) := fun A a => ret a.
Global Instance M_bind {S} : MBind (M S) := fun A B k m => bind m k.

(** The state an outcome leaves behind, when it is defined. *)
Definition final {S A} (r : result S A) : option S :=
  match r with
  | Ret _ s => Some s
  | Throw s => Some s
  | Undefined => None
  end.

(** ** The session *)

Record Parameter_Scan : Type := mkParameter_Scan {
  DM_masses : list float;
  couplings : list float;
  sample_size : N;
  p_value_grid : list (list float)
}.

(** [std::sort(v.begin(), v.end())] with the default comparison [<].  The
    standard fixes the result only up to the order of equivalent elements
    (and not at all when a NaN makes [<] fail to be a strict weak order);
    the model inserts one element after the other. *)
Fixpoint sort_insert (x : float) (v : list float) : list float :=
  match v with
  | [] => [x]
  | y :: v' => if Double.lt x y then x :: y :: v' else y :: sort_insert x v'
  end.

Definition std_sort (v : list float) : list float :=
  foldr sort_insert [] v.

(** The constructor from two axes and a sample size (source lines 100-106). *)
Definition new_Parameter_Scan
    (masses coupl : list float) (samplesize : N) : Parameter_Scan :=
  let DM_masses := std_sort masses in
  let couplings := std_sort coupl in
  {| DM_masses := DM_masses;
     couplings := couplings;
     sample_size := samplesize;
     p_value_grid :=
       replicate (length couplings) (replicate (length DM_masses) 1.0%float) |}.

(** The grid has one row per coupling and one entry per mass in each row. *)
Definition grid_shape (ps : Parameter_Scan) : Prop :=
  length (p_value_grid ps) = length (couplings ps) /\
  Forall (fun row => length row = length (DM_masses ps)) (p_value_grid ps).

(** [p_value_grid[r][c]] as a partial lookup. *)
Definition cell (g : list (list float)) (r c : nat) : option float :=
  row ← g !! r; row !! c.

(** ** Collaborators

    [particle] is [obscura::DM_Particle]; [env] gathers everything else the
    calls receive by reference: the detector, the solar model, the halo
    model and the random number generator behind the simulation. *)

Record world_of (P E : Type) : Type := mkWorld { DM : P; models : E }.
Arguments mkWorld {P E} DM models.
Arguments DM {P E} w.
Arguments models {P E} w.

Class Collaborators : Type := {
  particle : Type;
  env : Type;
  target : Type;
  Simulation_Data : Type;
  Reflection_Spectrum : Type;
  (** [DM.mass], [DM.Set_Mass], [DM.Get_Interaction_Parameter],
      [DM.Set_Interaction_Parameter] *)
  mass : particle -> float;
  Set_Mass : float -> particle -> particle;
  Get_Interaction_Parameter : target -> particle -> float;
  Set_Interaction_Parameter : float -> target -> particle -> particle;
  (** [detector.Target_Particles()] *)
  Target_Particles : env -> target;
  (** [solar_model.Interpolate_Total_DM_Scattering_Rate(DM, a, b)] *)
  Interpolate_Total_DM_Scattering_Rate :
    N -> N -> M (world_of particle env) unit;
  (** [detector.Minimum_DM_Speed(DM)] *)
  Minimum_DM_Speed : M (world_of particle env) float;
  (** [Simulation_Data data_set(sample_size, u_min);
       data_set.Generate_Data(DM, solar_model, halo_model)] *)
  Generate_Data : N -> float -> M (world_of particle env) Simulation_Data;
  (** [Reflection_Spectrum spectrum(data_set, solar_model, halo_model, m)] *)
  new_Reflection_Spectrum :
    Simulation_Data -> float -> M (world_of particle env) Reflection_Spectrum;
  (** [detector.P_Value(DM, spectrum)] *)
  P_Value : Reflection_Spectrum -> M (world_of particle env) float;
  (** [libphysica::Find_Root(func, xLeft, xRight, epsilon)]: it knows
      nothing of the state [S] the function it is given works on. *)
  Find_Root :
    forall S : Type, (float -> M S float) -> float -> float -> float -> M S float;
  (** [libphysica::Interpolation(xs, ys)], as the function it represents *)
  Interpolation : list float -> list float -> float -> float;
  (** [exp] and [log] of the C library *)
  exp : float -> float;
  log : float -> float
}.
Arguments Find_Root {_ S} func xLeft xRight epsilon.

Section Scan.
Context `{Collaborators}.

Definition world : Type := world_of particle env.

Definition set_DM (f : particle -> particle) : M world unit :=
  modify (fun w => mkWorld (f (DM w)) (models w)).

(** The calls that turn the current particle into a p-value: source lines
    128-133 in [Perform_Scan], and again 261-266 in [Upper_Limit]. *)
Definition pipeline (sample_size : N) : M world float :=
  Interpolate_Total_DM_Scattering_Rate 1000 50;;
  u_min ← Minimum_DM_Speed;
  data_set ← Generate_Data sample_size u_min;
  m ← gets (fun w => mass (DM w));
  spectrum ← new_Reflection_Spectrum data_set m;
  P_Value spectrum.

(** *** The running scan

    [trace] is the history of a run, most recent event first: [Progress i j]
    when the loops reach the counters [i], [j], and [Stored r c p] when the
    p-value [p] computed for the cell in row [r], column [c] of the grid is
    written.  No branch of the program reads it. *)
Inductive event : Type :=
  | Progress (i j : nat)
  | Stored (index_coupling index_mass : nat) (p : float).

Record state : Type := mkState {
  this : Parameter_Scan;
  outside : world;
  trace : list event
}.

Definition lift {A} (m : M world A) : M state A :=
  fun st =>
    match m (outside st) with
    | Ret a w => Ret a (mkState (this st) w (trace st))
    | Throw w => Throw (mkState (this st) w (trace st))
    | Undefined => Undefined
    end.

Definition emit (e : event) : M state unit :=
  modify (fun st => mkState (this st) (outside st) (e :: trace st)).

Definition with_grid (g : list (list float)) (ps : Parameter_Scan)
  : Parameter_Scan :=
  {| DM_masses := DM_masses ps; couplings := couplings ps;
     sample_size := sample_size ps; p_value_grid := g |}.

(** [p_value_grid[r][c] = v] *)
Definition set_grid (r c : nat) (v : float) : M state unit :=
  fun st =>
    let g := p_value_grid (this st) in
    match g !! r with
    | Some row =>
        if decide (c < length row)
        then Ret tt (mkState (with_grid (<[r := <[c := v]> row]> g) (this st))
                             (outside st) (trace st))
        else Undefined
    | None => Undefined
    end.

Inductive control : Type := Continue | Break.

(** The value a p-value is stored as (line 135). *)
Definition clamp (p : float) : float :=
  if Double.lt p 1.0e-100 then 0.0%float else p.

(** Lines 122-133: select the mass, report progress, run the pipeline. *)
Definition evaluate_cell (i j : nat) : M state (nat * float) :=
  ps ← gets this;
  let index_mass := length (DM_masses ps) - 1 - j in
  m ← at_ (DM_masses ps) index_mass;
  lift (set_DM (Set_Mass m));;
  emit (Progress i j);;
  p ← lift (pipeline (sample_size ps));
  mret (index_mass, p).

(** Lines 135-144: store the p-value and decide how the row goes on.  The
    result is the control transfer and the new values of [row_exclusion]
    and [last_excluded_mass_index]. *)
Definition record_cell (index_coupling index_mass j : nat)
    (row_exclusion : bool) (last_excluded_mass_index : nat) (p : float)
  : M state (control * bool * nat) :=
  set_grid index_coupling index_mass (clamp p);;
  emit (Stored index_coupling index_mass p);;
  if Double.lt p 0.1 then mret (Continue, true, j)
  else if row_exclusion || (last_excluded_mass_index + 1 <? j)
       then mret (Break, row_exclusion, last_excluded_mass_index)
       else mret (Continue, row_exclusion, last_excluded_mass_index).

(** The loop over [j] (lines 120-145), with [n] iterations left. *)
Fixpoint mass_loop (n i index_coupling j : nat)
    (row_exclusion : bool) (last_excluded_mass_index : nat)
  : M state (bool * nat) :=
  match n with
  | 0 => mret (row_exclusion, last_excluded_mass_index)
  | S n' =>
      '(index_mass, p) ← evaluate_cell i j;
      '(c, row_exclusion', last') ←
        record_cell index_coupling index_mass j
                    row_exclusion last_excluded_mass_index p;
      match c with
      | Break => mret (row_exclusion', last')
      | Continue => mass_loop n' i index_coupling (S j) row_exclusion' last'
      end
  end.

(** Lines 117-147 for one [i]: the row's coupling is selected and its
    masses are scanned.  The result is [row_exclusion] and
    [last_excluded_mass_index] at line 146. *)
Definition scan_row (i : nat) (last_excluded_mass_index : nat)
  : M state (bool * nat) :=
  ps ← gets this;
  let index_coupling := length (couplings ps) - 1 - i in
  c ← at_ (couplings ps) index_coupling;
  tgt ← gets (fun st => Target_Particles (models (outside st)));
  lift (set_DM (Set_Interaction_Parameter c tgt));;
  mass_loop (length (DM_masses ps)) i index_coupling 0
            false last_excluded_mass_index.

(** The loop over [i] (lines 115-148), with [n] iterations left; it
    returns [last_excluded_mass_index] as the loop leaves it. *)
Fixpoint coupling_loop (n i : nat) (last_excluded_mass_index : nat)
  : M state nat :=
  match n with
  | 0 => mret last_excluded_mass_index
  | S n' =>
      '(row_exclusion, last') ← scan_row i last_excluded_mass_index;
      if negb row_exclusion then mret last'
      else coupling_loop n' (S i) last'
  end.

(** Lines 113-148. *)
Definition scan_loops : M state nat :=
  ps ← gets this;
  coupling_loop (length (couplings ps)) 0 (length (DM_masses ps)).

Definition Perform_Scan : M state unit :=
  mDM_original ← gets (fun st => mass (DM (outside st)));
  coupling_original ←
    gets (fun st => Get_Interaction_Parameter
                      (Target_Particles (models (outside st)))
                      (DM (outside st)));
  scan_loops;;
  lift (set_DM (Set_Mass mDM_original));;
  tgt ← gets (fun st => Target_Particles (models (outside st)));
  lift (set_DM (Set_Interaction_Parameter coupling_original tgt)).

End Scan.

(** ** The limit curve (lines 153-169) *)

Section Limit.
Context `{Collaborators}.

(** [v.back()] *)
Definition back {St A} (v : list A) : M St A :=
  match last v with
  | Some x => mret x
  | None => undefined
  end.

(** Lines 161-162, with [n] iterations left. *)
Fixpoint interpolation_loop {St} (n j i : nat) (ps : Parameter_Scan)
    (certainty_level : float) (interpolation_list : list float)
  : M St (list float) :=
  match n with
  | 0 => mret interpolation_list
  | S n' =>
      row ← at_ (p_value_grid ps) j;
      x ← at_ row i;
      interpolation_loop n' (S j) i ps certainty_level
        (interpolation_list ++ [(x - (1.0 - certainty_level))%float])
  end.

(** Lines 160-165: the entry of mass column [i]. *)
Definition column_limit (ps : Parameter_Scan) (certainty_level : float)
    (i : nat) : M unit (list float) :=
  interpolation_list ←
    interpolation_loop (length (couplings ps)) 0 i ps certainty_level [];
  let interpolation := Interpolation (couplings ps) interpolation_list in
  c0 ← at_ (couplings ps) 0;
  cb ← back (couplings ps);
  coupling_limit ←
    Find_Root (fun x => mret (interpolation x)) c0 cb (0.01 * c0)%float;
  m ← at_ (DM_masses ps) i;
  mret [m; coupling_limit].

(** The test of line 158. *)
Definition column_check (ps : Parameter_Scan) (certainty_level : float)
    (i : nat) : M unit bool :=
  row ← back (p_value_grid ps);
  x ← at_ row i;
  mret (Double.lt x (1.0 - certainty_level)%float).

(** Lines 156-167, with [n] iterations left. *)
Fixpoint limit_loop (n i : nat) (ps : Parameter_Scan)
    (certainty_level : float) (limit : list (list float))
  : M unit (list (list float)) :=
  match n with
  | 0 => mret limit
  | S n' =>
      b ← column_check ps certainty_level i;
      if b : bool then
        entry ← column_limit ps certainty_level i;
        limit_loop n' (S i) ps certainty_level (limit ++ [entry])
      else limit_loop n' (S i) ps certainty_level limit
  end.

Definition Limit_Curve (ps : Parameter_Scan) (certainty_level : float)
  : M unit (list (list float)) :=
  limit_loop (length (DM_masses ps)) 0 ps certainty_level [].

End Limit.

(** ** Tables on disk (lines 171-207) *)

Class Table_IO : Type := {
  files : Type;
  (** [libphysica::Export_Table(path, table, units)] *)
  Export_Table : string -> list (list float) -> list float -> M files unit;
  (** [libphysica::Import_Table(path, units)] *)
  Import_Table : string -> list float -> M files (list (list float));
  (** the units of libphysica and the directory macro of the build *)
  GeV : float;
  cm : float;
  TOP_LEVEL_DIR : string
}.

Section Persistence.
Context `{Table_IO}.

Definition p_values_path (ID : string) : string :=
  TOP_LEVEL_DIR +:+ "results/" +:+ ID +:+ "/p_values.txt".
Definition p_grid_path (ID : string) : string :=
  TOP_LEVEL_DIR +:+ "results/" +:+ ID +:+ "/p_grid.txt".

(** Lines 202-203, with [n] iterations left. *)
Fixpoint export_couplings {St} (n j i : nat) (ps : Parameter_Scan)
    (table : list (list float)) : M St (list (list float)) :=
  match n with
  | 0 => mret table
  | S n' =>
      m ← at_ (DM_masses ps) i;
      c ← at_ (couplings ps) j;
      row ← at_ (p_value_grid ps) j;
      p ← at_ row i;
      export_couplings n' (S j) i ps (table ++ [[m; c; p]])
  end.

(** Lines 201-203, with [n] iterations left. *)
Fixpoint export_masses {St} (n i : nat) (ps : Parameter_Scan)
    (table : list (list float)) : M St (list (list float)) :=
  match n with
  | 0 => mret table
  | S n' =>
      table' ← export_couplings (length (couplings ps)) 0 i ps table;
      export_masses n' (S i) ps table'
  end.

Definition Export_P_Values (ps : Parameter_Scan) (ID : string)
    (mpi_rank : Z) : M files unit :=
  if (mpi_rank =? 0)%Z then
    table ← export_masses (length (DM_masses ps)) 0 ps [];
    Export_Table (p_values_path ID) table [GeV; (cm * cm)%float; 1.0%float];;
    Export_Table (p_grid_path ID) (p_value_grid ps) []
  else mret tt.

(** [std::set<double>(first, last)], as the ascending sequence of its
    elements: an element equivalent to one already present is dropped. *)
Fixpoint set_insert (x : float) (s : list float) : list float :=
  match s with
  | [] => [x]
  | y :: s' =>
      if Double.lt x y then x :: y :: s'
      else if Double.lt y x then y :: set_insert x s'
      else y :: s'
  end.

Definition std_set (v : list float) : list float :=
  fold_left (fun s x => set_insert x s) v [].

(** Lines 177-178, with [n] iterations left. *)
Fixpoint import_masses {St} (n i : nat) (table : list (list float))
    (all_masses : list float) : M St (list float) :=
  match n with
  | 0 => mret all_masses
  | S n' =>
      row ← at_ table i;
      m ← at_ row 0;
      import_masses n' (S i) table (all_masses ++ [m])
  end.

(** Lines 186-187, with [n] iterations left. *)
Fixpoint import_couplings {St} (n i : nat) (table : list (list float))
    (couplings : list float) : M St (list float) :=
  match n with
  | 0 => mret couplings
  | S n' =>
      row ← at_ table i;
      c ← at_ row 1;
      if decide (i < length couplings)
      then import_couplings n' (S i) table (<[i := c]> couplings)
      else undefined
  end.

(** [grid[r][c] = v] on a local grid. *)
Definition assign_cell {St} (g : list (list float)) (r c : nat) (v : float)
  : M St (list (list float)) :=
  match g !! r with
  | Some row =>
      if decide (c < length row) then mret (<[r := <[c := v]> row]> g)
      else undefined
  | None => undefined
  end.

(** Lines 192-193, with [n] iterations left; [k] is threaded. *)
Fixpoint import_column {St} (n j i : nat) (table : list (list float))
    (k : nat) (g : list (list float)) : M St (nat * list (list float)) :=
  match n with
  | 0 => mret (k, g)
  | S n' =>
      row ← at_ table k;
      p ← at_ row 2;
      g' ← assign_cell g j i p;
      import_column n' (S j) i table (S k) g'
  end.

(** Lines 191-193, with [n] iterations left. *)
Fixpoint import_grid {St} (n i number_of_couplings : nat)
    (table : list (list float)) (k : nat) (g : list (list float))
  : M St (list (list float)) :=
  match n with
  | 0 => mret g
  | S n' =>
      '(k', g') ← import_column number_of_couplings 0 i table k g;
      import_grid n' (S i) number_of_couplings table k' g'
  end.

(** The result is the session after the call. *)
Definition Import_P_Values (ps : Parameter_Scan) (ID : string)
  : M files Parameter_Scan :=
  table ← Import_Table (p_values_path ID) [GeV; (cm * cm)%float; 1.0%float];
  all_masses ← import_masses (length table) 0 table [];
  let mass_set := std_set all_masses in
  let number_of_masses := length (DM_masses ps) in
  if decide (number_of_masses = 0) then undefined
  else
    let number_of_couplings := length table / number_of_masses in
    let DM_masses' := mass_set in
    couplings' ←
      import_couplings number_of_couplings 0 table
        (resize number_of_couplings 0.0%float (couplings ps));
    grid ←
      import_grid number_of_masses 0 number_of_couplings table 0
        (replicate number_of_couplings (replicate number_of_masses 0.0%float));
    mret {| DM_masses := DM_masses'; couplings := couplings';
            sample_size := sample_size ps; p_value_grid := grid |}.

End Persistence.

(** ** The direct limit (lines 248-278) *)

Module Solar_Reflection_Limit.

Record t : Type := mk {
  sample_size : N;
  coupling_min : float;
  coupling_max : float;
  certainty_level : float;
  masses : list float;
  limits : list float
}.

Section Upper_Limit.
Context `{Collaborators}.

(** The lambda of lines 259-270. *)
Definition func (self : t) (log_coupling : float) : M world float :=
  tgt ← gets (fun w => Target_Particles (models w));
  set_DM (Set_Interaction_Parameter (exp log_coupling) tgt);;
  p ← pipeline (sample_size self);
  mret (p - (1.0 - certainty_level self))%float.

Definition Upper_Limit (self : t) (mass_ : float) : M world float :=
  mDM_original ← gets (fun w => mass (DM w));
  coupling_original ←
    gets (fun w => Get_Interaction_Parameter
                     (Target_Particles (models w)) (DM w));
  set_DM (Set_Mass mass_);;
  let log_coupling_min := log (coupling_min self) in
  let log_coupling_max := log (coupling_max self) in
  log_limit ←
    Find_Root (func self) log_coupling_min log_coupling_max 1.0e-2%float;
  set_DM (Set_Mass mDM_original);;
  tgt ← gets (fun w => Target_Particles (models w));
  set_DM (Set_Interaction_Parameter coupling_original tgt);;
  mret (exp log_limit).

End Upper_Limit.
End Solar_Reflection_Limit.

(** ** Reading a trace

    The definitions below are not part of the program: they say what a
    history of events means for the grid and for the loop variables. *)

(** [g[r][c] = v] where the cell exists. *)
Definition write_cell (g : list (list float)) (r c : nat) (v : float)
  : list (list float) :=
  match g !! r with
  | Some row => <[r := <[c := v]> row]> g
  | None => g
  end.

(** The grid after the stores of a history (most recent event first). *)
Definition replay_event (e : event) (g : list (list float))
  : list (list float) :=
  match e with
  | Stored r c p => write_cell g r c (clamp p)
  | Progress _ _ => g
  end.

Definition replay (new : list event) (g : list (list float))
  : list (list float) :=
  foldr replay_event g new.

(** The cells a history stores into. *)
Definition stored_cell (e : event) : option (nat * nat) :=
  match e with
  | Stored r c _ => Some (r, c)
  | Progress _ _ => None
  end.

Definition stored_cells (new : list event) : list (nat * nat) :=
  omap stored_cell new.

(** A store of a p-value below the significance threshold 0.1. *)
Definition excluding (e : event) : bool :=
  match e with
  | Stored _ _ p => Double.lt p 0.1
  | Progress _ _ => false
  end.

(** The loop counter [j] of the most recent excluding store of a history
    over [number_of_masses] columns, or [otherwise] when it has none. *)
Definition last_excluded (number_of_masses : nat) (new : list event)
    (otherwise : nat) : nat :=
  foldr (fun e older =>
           match e with
           | Stored _ c p =>
               if Double.lt p 0.1 then number_of_masses - 1 - c else older
           | Progress _ _ => older
           end) otherwise new.

(** [st'] is [st] after the events [new]: axes and sample size are the
    same, the grid is the old one with the stores of [new] made, each into
    a cell that exists. *)
Definition extends `{Collaborators} (st st' : state) (new : list event)
  : Prop :=
  trace st' = new ++ trace st /\
  DM_masses (this st') = DM_masses (this st) /\
  couplings (this st') = couplings (this st) /\
  sample_size (this st') = sample_size (this st) /\
  p_value_grid (this st') = replay new (p_value_grid (this st)) /\
  Forall (fun e => match e with
                   | Stored r c _ => is_Some (cell (p_value_grid (this st)) r c)
                   | Progress _ _ => True
                   end) new.

(** An event of row [i] (grid row [index_coupling]) at a position [j] of
    the mass loop with [lo <= j < hi]. *)
Definition row_event (i index_coupling number_of_masses lo hi : nat)
    (e : event) : Prop :=
  match e with
  | Progress i' j => i' = i /\ lo <= j < hi
  | Stored r c _ =>
      r = index_coupling /\
      exists j, lo <= j < hi /\ c = number_of_masses - 1 - j
  end.

(** What lines 138-144 decide for the p-value [p] at loop position [j]. *)
Definition decision (j : nat) (row_exclusion : bool)
    (last_excluded_mass_index : nat) (p : float) : control * bool * nat :=
  if Double.lt p 0.1 then (Continue, true, j)
  else if row_exclusion || (last_excluded_mass_index + 1 <? j)
       then (Break, row_exclusion, last_excluded_mass_index)
       else (Continue, row_exclusion, last_excluded_mass_index).

(** The scan row ([i] of the coupling loop) an event belongs to, in a grid
    of [number_of_couplings] rows. *)
Definition event_row (number_of_couplings : nat) (e : event) : nat :=
  match e with
  | Progress i _ => i
  | Stored r _ _ => number_of_couplings - 1 - r
  end.

(** The events of the rows [lo <= i < hi] of a scan. *)
Definition scan_events (number_of_couplings number_of_masses lo hi : nat)
    (new : list event) : Prop :=
  Forall (fun e => exists i, lo <= i < hi /\
            row_event i (number_of_couplings - 1 - i) number_of_masses
                      0 number_of_masses e) new.

(** The particle after lines 149-150 (and 275-276): mass [m] and coupling
    [c] are set again, in this order. *)
Definition restore `{Collaborators} (m c : float) (w : world) : world :=
  mkWorld (Set_Interaction_Parameter c (Target_Particles (models w))
             (Set_Mass m (DM w)))
          (models w).

(** What holds of the events of a scan of a grid of [number_of_couplings]
    rows and [number_of_masses] columns: every event belongs to a cell of
    the grid; no cell is stored twice; once a row has no excluding store,
    no later row has any event; a store follows the progress report of its
    cell. *)
Definition scan_summary (number_of_couplings number_of_masses : nat)
    (new : list event) : Prop :=
  scan_events number_of_couplings number_of_masses 0 number_of_couplings new /\
  NoDup (stored_cells new) /\
  (forall i, (forall c p, Stored (number_of_couplings - 1 - i) c p ∈ new ->
                          Double.lt p 0.1 = false) ->
             Forall (fun e => event_row number_of_couplings e <= i) new) /\
  (forall r c p, Stored r c p ∈ new ->
     exists i j, Progress i j ∈ new /\
                 r = number_of_couplings - 1 - i /\
                 c = number_of_masses - 1 - j).

(** ** The limit curve in the words of the specification

    A mass column enters the curve when the grid value in the row of the
    largest coupling index is below [1 - CL]; its entry pairs the mass with
    the root of the interpolation of the column's p-values minus [1 - CL]
    over the coupling axis, sought between the first and the last coupling
    with a tolerance of a hundredth of the first. *)

Section LimitWords.
Context `{Collaborators}.

Definition extreme_row_below (ps : Parameter_Scan) (CL : float) (i : nat)
  : bool :=
  match cell (p_value_grid ps) (length (couplings ps) - 1) i with
  | Some x => Double.lt x (1.0 - CL)%float
  | None => false
  end.

Definition column_values (ps : Parameter_Scan) (CL : float) (i : nat)
  : list float :=
  map (fun j => (default 0.0 (cell (p_value_grid ps) j i) - (1.0 - CL))%float)
      (seq 0 (length (couplings ps))).

Definition column_root (ps : Parameter_Scan) (CL : float) (i : nat)
  : result unit float :=
  let left_end := default 0.0%float (couplings ps !! 0) in
  let right_end := default 0.0%float (last (couplings ps)) in
  Find_Root (fun x => mret (Interpolation (couplings ps)
                              (column_values ps CL i) x))
            left_end right_end (0.01 * left_end)%float tt.

Definition limit_columns (ps : Parameter_Scan) (CL : float) : list nat :=
  List.filter (extreme_row_below ps CL) (seq 0 (length (DM_masses ps))).

Definition limit_entry (ps : Parameter_Scan) (CL : float) (i : nat)
    (entry : list float) : Prop :=
  exists m root,
    DM_masses ps !! i = Some m /\
    column_root ps CL i = Ret root tt /\
    entry = [m; root].

End LimitWords.

(** ** The exported table in the words of the file layout

    [p_values.txt] has one row (mass, coupling, p-value) per pair, the
    rows of one mass together, masses in axis order. *)

Definition export_row (ps : Parameter_Scan) (i j : nat) : list float :=
  [default 0.0%float (DM_masses ps !! i);
   default 0.0%float (couplings ps !! j);
   default 0.0%float (cell (p_value_grid ps) j i)].

Definition export_table (ps : Parameter_Scan) : list (list float) :=
  flat_map (fun i => map (export_row ps i) (seq 0 (length (couplings ps))))
           (seq 0 (length (DM_masses ps))).

(** The table file reads back as it was written, and writing one file
    leaves the others alone. *)
Definition reads_back `{Table_IO} : Prop :=
  (forall path table units d d',
     Export_Table path table units d = Ret tt d' ->
     Import_Table path units d' = Ret table d') /\
  (forall path path' table table' units units' d d',
     path <> path' ->
     Import_Table path units d = Ret table d ->
     Export_Table path' table' units' d = Ret tt d' ->
     Import_Table path units d' = Ret table d').

(** The mass axis is strictly ascending. *)
Definition strictly_ascending (v : list float) : Prop :=
  StronglySorted (fun a b => Double.lt a b = true) v.

(** While [Import_P_Values] fills its grid column by column: [G] has the
    shape [nc] by [nm] and agrees with [g] in the columns before [i] and
    in the first [j] rows of column [i]. *)
Definition filled_up_to (g G : list (list float)) (nc nm i j : nat) : Prop :=
  length G = nc /\
  Forall (fun row => length row = nm) G /\
  forall r c, r < nc -> c < nm -> c < i \/ (c = i /\ r < j) ->
              cell G r c = cell g r c.

(** ** Test doubles

    A particle that is just its mass and coupling, a detector whose p-value
    is a given function of the two (and which throws where the function is
    undefined), models that count the p-values computed, a root finder that
    evaluates its function at both ends of the bracket and returns the
    midpoint, and a disk that keeps tables as they are. *)

Module Stub.

Definition detector (p_of : float -> float -> option float)
  : M (world_of (float * float) nat) float :=
  fun w =>
    match p_of (fst (DM w)) (snd (DM w)) with
    | Some p => Ret p (mkWorld (DM w) (S (models w)))
    | None => Throw w
    end.

Definition bracket_midpoint (St : Type) (f : float -> M St float)
    (xLeft xRight epsilon : float) : M St float :=
  _ ← f xLeft; _ ← f xRight; mret ((xLeft + xRight) / 2)%float.

Definition collaborators (p_of : float -> float -> option float)
  : Collaborators :=
  {| particle := float * float;
     env := nat;
     target := unit;
     Simulation_Data := unit;
     Reflection_Spectrum := unit;
     mass := fst;
     Set_Mass := fun m d => (m, snd d);
     Get_Interaction_Parameter := fun _ d => snd d;
     Set_Interaction_Parameter := fun c _ d => (fst d, c);
     Target_Particles := fun _ => tt;
     Interpolate_Total_DM_Scattering_Rate := fun _ _ => mret tt;
     Minimum_DM_Speed := mret 0.0%float;
     Generate_Data := fun _ _ => mret tt;
     new_Reflection_Spectrum := fun _ _ => mret tt;
     P_Value := fun _ => detector p_of;
     Find_Root := bracket_midpoint;
     Interpolation := fun xs ys x => default 0.0%float (head ys);
     exp := fun x => x;
     log := fun x => x |}.

Fixpoint find_file (path : string)
    (disk : list (string * list (list float))) : option (list (list float)) :=
  match disk with
  | [] => None
  | (name, table) :: disk' =>
      if String.eqb name path then Some table else find_file path disk'
  end.

Definition table_io : Table_IO :=
  {| files := list (string * list (list float));
     Export_Table := fun path table units =>
       modify (fun disk => (path, table) :: disk);
     Import_Table := fun path units disk =>
       match find_file path disk with
       | Some table => Ret table disk
       | None => Throw disk
       end;
     GeV := 1.0%float;
     cm := 1.0%float;
     TOP_LEVEL_DIR := "/" |}.

(** The session's state at the start of a call, for a particle of mass 5
    and coupling 7. *)
Definition start (p_of : float -> float -> option float)
    (ps : Parameter_Scan) : @state (collaborators p_of) :=
  @mkState (collaborators p_of) ps
    (@mkWorld (float * float) nat (5.0%float, 7.0%float) 0) [].

End Stub.

(** ** Scenarios *)

Module Scenario.

(** The scenario of the specification: three masses, three couplings, and
    [p = 0.05] where the coupling is at least 1e-38 and the mass at most
    10, [p = 0.9] elsewhere. *)
Definition spec_p (m c : float) : option float :=
  if Double.le 1.0e-38 c && Double.le m 10.0
  then Some 0.05%float else Some 0.9%float.

Definition spec_session : Parameter_Scan :=
  new_Parameter_Scan [10.0; 1.0; 100.0]%float
                     [1.0e-40; 1.0e-36; 1.0e-38]%float 100.

(** The session after the scan of that scenario. *)
Definition spec_session_scanned : Parameter_Scan :=
  Eval vm_compute in
    match @Perform_Scan (Stub.collaborators spec_p)
            (Stub.start spec_p spec_session) with
    | Ret _ st => this st
    | _ => spec_session
    end.

(** Four masses and two couplings; only the heaviest mass at the larger
    coupling is excluded. *)
Definition corner_p (m c : float) : option float :=
  if Double.le 2.0 c && Double.le 4.0 m
  then Some 0.05%float else Some 0.9%float.

Definition corner_session : Parameter_Scan :=
  new_Parameter_Scan [1.0; 2.0; 3.0; 4.0]%float [1.0; 2.0]%float 100.

(** The corner scenario after its first row, and after its second. *)
Definition corner_after_row_0 : @state (Stub.collaborators corner_p) :=
  Eval vm_compute in
    let st := Stub.start corner_p corner_session in
    match @scan_row (Stub.collaborators corner_p) 0 4 st with
    | Ret _ st0 => st0
    | _ => st
    end.

Definition corner_after_row_1 : @state (Stub.collaborators corner_p) :=
  Eval vm_compute in
    match @scan_row (Stub.collaborators corner_p) 1 0 corner_after_row_0 with
    | Ret _ st1 => st1
    | _ => corner_after_row_0
    end.

(** Nothing is excluded. *)
Definition dull_p (m c : float) : option float := Some 0.9%float.

(** A p-value below the floor at the heaviest mass, an ordinary excluding
    one elsewhere. *)
Definition tiny_p (m c : float) : option float :=
  if Double.le 4.0 m then Some 1.0e-200%float else Some 0.05%float.

(** A detector that fails at mass 2. *)
Definition failing_p (m c : float) : option float :=
  if Double.le m 2.0 then None else Some 0.05%float.

(** A session whose mass axis has the same entry twice. *)
Definition twin_session : Parameter_Scan :=
  new_Parameter_Scan [1.0; 1.0]%float [2.0]%float 10.

(** A direct-limit session. *)
Definition direct : Solar_Reflection_Limit.t :=
  Solar_Reflection_Limit.mk 100 1.0 3.0 0.9 [1.0; 2.0]%float [].

End Scenario.

(** ** The picture of the grid (lines 221-246)

    [Print_Grid] writes one line per coupling, the largest coupling first,
    and one glyph per mass.  The model returns the lines as they are
    written to the console on rank 0, a line being the glyphs between the
    tabulator and the end of line.  With [current_progress] unset the
    comparisons with the two indices are not evaluated; with it set both
    indices are non-negative, so their conversion to the unsigned type of
    the sizes keeps their value. *)

Inductive glyph : Type :=
  | Pending    (** a dot: the scan has not come here *)
  | Current    (** the marker of the cell in progress *)
  | Allowed    (** light shade: [p > 0.1] *)
  | Excluded.  (** full block *)

Section Picture.
Context {St : Type}.

(** Lines 233-241. *)
Definition print_cell (ps : Parameter_Scan) (current_progress : bool)
    (index_coupling index_mass : Z) (row col : nat) : M St glyph :=
  grid_row ← at_ (p_value_grid ps) (length (couplings ps) - 1 - row);
  p ← at_ grid_row col;
  if current_progress
     && ((index_coupling <? Z.of_nat row)%Z
         || ((Z.of_nat row =? index_coupling)%Z
             && (index_mass
                 <? Z.of_nat (length (DM_masses ps) - col - 1))%Z))
  then mret Pending
  else if current_progress
          && ((index_coupling =? Z.of_nat row)%Z
              && (index_mass
                  =? Z.of_nat (length (DM_masses ps) - col - 1))%Z)
  then mret Current
  else mret (if Double.lt 0.1 p then Allowed else Excluded).

(** Lines 231-242, with [n] iterations left. *)
Fixpoint print_columns (n col : nat) (ps : Parameter_Scan)
    (current_progress : bool) (index_coupling index_mass : Z) (row : nat)
    (line : list glyph) : M St (list glyph) :=
  match n with
  | 0 => mret line
  | S n' =>
      g ← print_cell ps current_progress index_coupling index_mass row col;
      print_columns n' (S col) ps current_progress index_coupling index_mass
                    row (line ++ [g])
  end.

(** Lines 228-244, with [n] iterations left. *)
Fixpoint print_rows (n row : nat) (ps : Parameter_Scan)
    (current_progress : bool) (index_coupling index_mass : Z)
    (picture : list (list glyph)) : M St (list (list glyph)) :=
  match n with
  | 0 => mret picture
  | S n' =>
      line ← print_columns (length (DM_masses ps)) 0 ps current_progress
                           index_coupling index_mass row [];
      print_rows n' (S row) ps current_progress index_coupling index_mass
                 (picture ++ [line])
  end.

Definition Print_Grid (ps : Parameter_Scan) (mpi_rank : Z)
    (index_coupling index_mass : Z) : M St (list (list glyph)) :=
  if (mpi_rank =? 0)%Z then
    let current_progress :=
      if (index_coupling <? 0)%Z || (index_mass <? 0)%Z then false
      else true in
    print_rows (length (couplings ps)) 0 ps current_progress
               index_coupling index_mass []
  else mret [].

End Picture.

(** The glyph in line [row], position [col] of a picture. *)
Definition glyph_at (picture : list (list glyph)) (row col : nat)
  : option glyph :=
  line ← picture !! row; line !! col.

(** ** Limit files (lines 209-219) and the direct limit curve (280-311) *)

(** [int CL = std::round(x)]: [std::round] gives the nearest integer,
    halves away from zero, as a double; the conversion to [int] is
    undefined when that is not an [int] (a NaN, an infinity, a value
    outside the 32 bits of an [int]): [None] here. *)
Definition round_to_int (x : float) : option Z :=
  match Prim2SF x with
  | S754_zero _ => Some 0%Z
  | S754_finite s m e =>
      let magnitude :=
        if (0 <=? e)%Z then (Z.pos m * 2 ^ e)%Z
        else ((2 * Z.pos m + 2 ^ (- e)) / (2 * 2 ^ (- e)))%Z in
      let z := if s then (- magnitude)%Z else magnitude in
      if (- 2 ^ 31 <=? z)%Z && (z <? 2 ^ 31)%Z then Some z else None
  | S754_infinity _ | S754_nan => None
  end.

Definition cast_to_int {St} (x : float) : M St Z :=
  match round_to_int x with
  | Some z => mret z
  | None => undefined
  end.

(** A call that has no access to the state [St]: its exception and its
    undefined behaviour are the caller's. *)
Definition aside {St A} (m : M unit A) : M St A :=
  fun s =>
    match m tt with
    | Ret a _ => Ret a s
    | Throw _ => Throw s
    | Undefined => Undefined
    end.

Section Limit_Files.
Context `{Collaborators} `{Table_IO}.

(** Lines 211-218, as a loop over the levels still to come.
    [std::to_string] of an [int] is its decimal numeral. *)
Fixpoint Export_Limits (ps : Parameter_Scan) (folder_path : string)
    (mpi_rank : Z) (certainty_levels : list float) : M files unit :=
  match certainty_levels with
  | [] => mret tt
  | certainty_level :: rest =>
      limit ← aside (Limit_Curve ps certainty_level);
      CL ← cast_to_int (100 * certainty_level)%float;
      let filename := "Limit_" +:+ pretty CL +:+ ".txt" in
      (if (mpi_rank =? 0)%Z
       then Export_Table (folder_path +:+ filename) limit
                         [GeV; (cm * cm)%float]
       else mret tt);;
      Export_Limits ps folder_path mpi_rank rest
  end.

(** What the direct limit works on: the object itself, the particle and
    the models, the disk, and what has been sent to the output stream [f]
    of [Compute_Limit_Curve].  [Line mass limit] stands for the line
    [mass TAB In_Units(limit, cm * cm)]. *)
Inductive stream_event : Type :=
  | Opened (path : string)
  | Line (mass_ limit : float).

Record limit_state : Type := mkLimitState {
  self : Solar_Reflection_Limit.t;
  models_ : world;
  disk : files;
  stream : list stream_event
}.

Definition on_models {A} (m : M world A) : M limit_state A :=
  fun st =>
    match m (models_ st) with
    | Ret a w => Ret a (mkLimitState (self st) w (disk st) (stream st))
    | Throw w => Throw (mkLimitState (self st) w (disk st) (stream st))
    | Undefined => Undefined
    end.

Definition on_disk {A} (m : M files A) : M limit_state A :=
  fun st =>
    match m (disk st) with
    | Ret a d => Ret a (mkLimitState (self st) (models_ st) d (stream st))
    | Throw d => Throw (mkLimitState (self st) (models_ st) d (stream st))
    | Undefined => Undefined
    end.

Definition send (e : stream_event) : M limit_state unit :=
  modify (fun st =>
            mkLimitState (self st) (models_ st) (disk st) (e :: stream st)).

(** The object with other limits. *)
Definition with_limits (o : Solar_Reflection_Limit.t) (limits : list float)
  : Solar_Reflection_Limit.t :=
  Solar_Reflection_Limit.mk
    (Solar_Reflection_Limit.sample_size o)
    (Solar_Reflection_Limit.coupling_min o)
    (Solar_Reflection_Limit.coupling_max o)
    (Solar_Reflection_Limit.certainty_level o)
    (Solar_Reflection_Limit.masses o)
    limits.

(** [limits.push_back(limit)] *)
Definition push_limit (limit : float) : M limit_state unit :=
  modify (fun st =>
    mkLimitState
      (with_limits (self st)
                   (Solar_Reflection_Limit.limits (self st) ++ [limit]))
      (models_ st) (disk st) (stream st)).

Definition curve_path (ID : string) (CL : Z) : string :=
  TOP_LEVEL_DIR +:+ "results/" +:+ ID +:+ "/Reflection_Limit_"
  +:+ pretty CL +:+ ".txt".

(** Lines 288-297, over the masses still to come. *)
Fixpoint curve_loop (masses : list float) (mpi_rank : Z)
  : M limit_state unit :=
  match masses with
  | [] => mret tt
  | mass_ :: rest =>
      o ← gets self;
      limit ← on_models (Solar_Reflection_Limit.Upper_Limit o mass_);
      push_limit limit;;
      (if (mpi_rank =? 0)%Z then send (Line mass_ limit) else mret tt);;
      curve_loop rest mpi_rank
  end.

(** Lines 280-299.  Closing the stream writes nothing. *)
Definition Compute_Limit_Curve (ID : string) (mpi_rank : Z)
  : M limit_state unit :=
  (if (mpi_rank =? 0)%Z then
     o ← gets self;
     CL ← cast_to_int
            (100.0 * Solar_Reflection_Limit.certainty_level o)%float;
     send (Opened (curve_path ID CL))
   else mret tt);;
  o ← gets self;
  curve_loop (Solar_Reflection_Limit.masses o) mpi_rank.

(** Lines 306-307, with [n] iterations left. *)
Fixpoint curve_rows {St} (n i : nat) (o : Solar_Reflection_Limit.t)
    (data : list (list float)) : M St (list (list float)) :=
  match n with
  | 0 => mret data
  | S n' =>
      m ← at_ (Solar_Reflection_Limit.masses o) i;
      l ← at_ (Solar_Reflection_Limit.limits o) i;
      if decide (i < length data)
      then curve_rows n' (S i) o (<[i := [m; l]]> data)
      else undefined
  end.

(** Lines 301-311. *)
Definition Export_Curve (ID : string) (mpi_rank : Z) : M limit_state unit :=
  if (mpi_rank =? 0)%Z then
    o ← gets self;
    data ← curve_rows (length (Solar_Reflection_Limit.masses o)) 0 o
             (replicate (length (Solar_Reflection_Limit.masses o))
                        [0.0; 0.0]%float);
    CL ← cast_to_int
           (100.0 * Solar_Reflection_Limit.certainty_level o)%float;
    on_disk (Export_Table (curve_path ID CL) data [GeV; (cm * cm)%float])
  else mret tt.

End Limit_Files.

(** ** More scenarios *)

Module Cases.

(** Everything is excluded. *)
Definition keen_p (m c : float) : option float := Some 0.05%float.

(** The corner session when the detector fails at mass 2. *)
Definition corner_failed : @state (Stub.collaborators Scenario.failing_p) :=
  Eval vm_compute in
    let st := Stub.start Scenario.failing_p Scenario.corner_session in
    match @Perform_Scan (Stub.collaborators Scenario.failing_p) st with
    | Throw st' => st'
    | _ => st
    end.

(** A session whose grid is narrower than its mass axis. *)
Definition narrow_session : Parameter_Scan :=
  {| DM_masses := [1.0; 2.0]%float; couplings := [3.0]%float;
     sample_size := 10; p_value_grid := [[1.0%float]] |}.


(** The test doubles with a root finder that gives up at once. *)
Definition rootless : Collaborators :=
  {| particle := float * float;
     env := nat;
     target := unit;
     Simulation_Data := unit;
     Reflection_Spectrum := unit;
     mass := fst;
     Set_Mass := fun m d => (m, snd d);
     Get_Interaction_Parameter := fun _ d => snd d;
     Set_Interaction_Parameter := fun c _ d => (fst d, c);
     Target_Particles := fun _ => tt;
     Interpolate_Total_DM_Scattering_Rate := fun _ _ => mret tt;
     Minimum_DM_Speed := mret 0.0%float;
     Generate_Data := fun _ _ => mret tt;
     new_Reflection_Spectrum := fun _ _ => mret tt;
     P_Value := fun _ => Stub.detector keen_p;
     Find_Root := fun St f xLeft xRight epsilon s => Throw s;
     Interpolation := fun xs ys x => default 0.0%float (head ys);
     exp := fun x => x;
     log := fun x => x |}.



(** The direct-limit session of the scenarios at the start of a call, and
    after a curve was computed on rank 0 under the name "run". *)
Definition direct_start
  : @limit_state (Stub.collaborators Scenario.dull_p) Stub.table_io :=
  @mkLimitState (Stub.collaborators Scenario.dull_p) Stub.table_io
    Scenario.direct
    (@mkWorld (float * float) nat (5.0%float, 7.0%float) 0) [] [].

Definition direct_computed
  : @limit_state (Stub.collaborators Scenario.dull_p) Stub.table_io :=
  Eval vm_compute in
    match @Compute_Limit_Curve (Stub.collaborators Scenario.dull_p)
            Stub.table_io "run" 0 direct_start with
    | Ret _ st => st
    | _ => direct_start
    end.

(** The same after a second curve: four limits for two masses. *)
Definition direct_computed_twice
  : @limit_state (Stub.collaborators Scenario.dull_p) Stub.table_io :=
  Eval vm_compute in
    match @Compute_Limit_Curve (Stub.collaborators Scenario.dull_p)
            Stub.table_io "run" 0 direct_computed with
    | Ret _ st => st
    | _ => direct_computed
    end.

End Cases.

Module Disks.

(** A session of four masses and one coupling, and the disk after its
    export under the name "run". *)
Definition wide_session : Parameter_Scan :=
  new_Parameter_Scan [1.0; 2.0; 3.0; 4.0]%float [3.0]%float 10.

Definition wide_disk : @files Stub.table_io :=
  Eval vm_compute in
    match @Export_P_Values Stub.table_io wide_session "run" 0 [] with
    | Ret _ d => d
    | _ => []
    end.

(** A session of two masses and one coupling. *)
Definition slim_session : Parameter_Scan :=
  new_Parameter_Scan [1.0; 2.0]%float [3.0]%float 10.

End Disks.
(** * Facts

    ** Order of doubles *)

Module DoubleFacts.
Import Double.

Lemma SFcompare_swap x y :
  SFcompare y x =
  match SFcompare x y with Some c => Some (CompOpp c) | None => None end.
Proof.
  destruct x as [[]|[]| |[] mx ex], y as [[]|[]| |[] my ey];
    simpl; try reflexivity;
    rewrite (Z.compare_antisym ey ex); destruct (ey ?= ex)%Z;
    simpl; try reflexivity;
    rewrite Pos.compare_cont_antisym; simpl;
    rewrite ?CompOpp_involutive; reflexivity.
Qed.

Lemma SFcompare_None x y :
  SFcompare x y = None <-> x = S754_nan \/ y = S754_nan.
Proof.
  destruct x as [[]|[]| |[] mx ex], y as [[]|[]| |[] my ey];
    simpl; split; intros H; try discriminate; auto;
    destruct H; discriminate.
Qed.

Lemma is_nan_Prim2SF x : is_nan x = true <-> Prim2SF x = S754_nan.
Proof.
  unfold is_nan, PrimFloat.is_nan. rewrite FloatAxioms.eqb_spec. unfold SFeqb.
  destruct (SFcompare (Prim2SF x) (Prim2SF x)) as [c|] eqn:E.
  - assert (c = Eq) as ->.
    { pose proof (SFcompare_swap (Prim2SF x) (Prim2SF x)) as A.
      rewrite E in A. destruct c; simpl in A; congruence. }
    simpl. split; [discriminate|]. intros N. rewrite N in E. discriminate.
  - simpl. apply SFcompare_None in E. tauto.
Qed.

Lemma lt_asym x y : lt x y = true -> lt y x = false.
Proof.
  unfold lt. rewrite !ltb_spec. unfold SFltb.
  rewrite (SFcompare_swap (Prim2SF x) (Prim2SF y)).
  destruct (SFcompare (Prim2SF x) (Prim2SF y)) as [[]|]; simpl; congruence.
Qed.

Lemma lt_irrefl x : lt x x = false.
Proof.
  destruct (lt x x) eqn:E; [|reflexivity].
  pose proof (lt_asym _ _ E). congruence.
Qed.

Lemma lt_le x y : lt x y = true -> le x y = true.
Proof.
  unfold lt, le. rewrite ltb_spec, leb_spec. unfold SFltb, SFleb.
  destruct (SFcompare (Prim2SF x) (Prim2SF y)) as [[]|]; simpl; congruence.
Qed.

Lemma le_not_lt x y : le x y = true -> lt y x = false.
Proof.
  unfold lt, le. rewrite ltb_spec, leb_spec. unfold SFltb, SFleb.
  rewrite (SFcompare_swap (Prim2SF x) (Prim2SF y)).
  destruct (SFcompare (Prim2SF x) (Prim2SF y)) as [[]|]; simpl; congruence.
Qed.

Lemma not_lt_le x y :
  is_nan x = false -> is_nan y = false -> lt x y = false -> le y x = true.
Proof.
  intros Hx Hy. unfold lt, le. rewrite ltb_spec, leb_spec.
  unfold SFltb, SFleb.
  rewrite (SFcompare_swap (Prim2SF x) (Prim2SF y)).
  destruct (SFcompare (Prim2SF x) (Prim2SF y)) as [[]|] eqn:E;
    simpl; try congruence.
  apply SFcompare_None in E.
  destruct E as [E|E]; apply is_nan_Prim2SF in E; congruence.
Qed.

(** On numbers, [x >= y] is the negation of [x < y]. *)
Lemma ge_iff_not_lt x y :
  is_nan x = false -> is_nan y = false ->
  (ge x y = true <-> lt x y = false).
Proof.
  intros Hx Hy. unfold ge. split.
  - apply le_not_lt.
  - apply not_lt_le; assumption.
Qed.

Lemma lt_not_nan_l x y : lt x y = true -> is_nan x = false.
Proof.
  unfold lt. rewrite ltb_spec. unfold SFltb. intros H.
  destruct (is_nan x) eqn:N; [|reflexivity].
  apply is_nan_Prim2SF in N. rewrite N in H. discriminate.
Qed.

Lemma ge_not_nan_l x y : ge x y = true -> is_nan x = false.
Proof.
  unfold ge. rewrite leb_spec. unfold SFleb. intros H.
  destruct (is_nan x) eqn:N; [|reflexivity].
  apply is_nan_Prim2SF in N. rewrite N in H.
  destruct (Prim2SF y) as [[]|[]| |[] ? ?]; discriminate.
Qed.

Ltac compare_cases :=
  repeat match goal with
  | H : context [(?a ?= ?b)%Z] |- _ =>
      destruct (Z.compare_spec a b); simpl in H;
      try contradiction; try discriminate
  | |- context [(?a ?= ?b)%Z] =>
      destruct (Z.compare_spec a b); simpl; try lia
  | H : context [Pos.compare_cont Eq ?a ?b] |- _ =>
      change (Pos.compare_cont Eq a b) with (Pos.compare a b) in H;
      destruct (Pos.compare_spec a b); simpl in H;
      try contradiction; try discriminate
  | |- context [Pos.compare_cont Eq ?a ?b] =>
      change (Pos.compare_cont Eq a b) with (Pos.compare a b);
      destruct (Pos.compare_spec a b); simpl; try lia
  end.

Lemma SFleb_trans x y z :
  SFleb x y = true -> SFleb y z = true -> SFleb x z = true.
Proof.
  unfold SFleb.
  destruct x as [[]|[]| |[] mx ex], y as [[]|[]| |[] my ey],
           z as [[]|[]| |[] mz ez];
    simpl; try discriminate; try reflexivity; intros H1 H2;
    compare_cases; subst; try lia; try reflexivity; try discriminate.
Qed.

Lemma SFltb_trans x y z :
  SFltb x y = true -> SFltb y z = true -> SFltb x z = true.
Proof.
  unfold SFltb.
  destruct x as [[]|[]| |[] mx ex], y as [[]|[]| |[] my ey],
           z as [[]|[]| |[] mz ez];
    simpl; try discriminate; try reflexivity; intros H1 H2;
    compare_cases; subst; try lia; try reflexivity; try discriminate.
Qed.

Lemma le_trans x y z : le x y = true -> le y z = true -> le x z = true.
Proof. unfold le. rewrite !leb_spec. apply SFleb_trans. Qed.

Lemma lt_trans x y z : lt x y = true -> lt y z = true -> lt x z = true.
Proof. unfold lt. rewrite !ltb_spec. apply SFltb_trans. Qed.

End DoubleFacts.

(** Membership in an explicit list. *)
Ltac elem_cases I :=
  repeat (apply elem_of_cons in I as [I|I];
          [try discriminate I; simplify_eq|]);
  try (apply elem_of_nil in I; destruct I).

Ltac unfold_M :=
  unfold mbind, M_bind, bind, mret, M_ret, ret, gets, modify, undefined in *.

(** ** The monad *)

Section MonadFacts.
Context {St : Type}.

Lemma bind_Ret {A B} (m : M St A) (k : A -> M St B) s a s' :
  m s = Ret a s' -> (m ≫= k) s = k a s'.
Proof. intros E. unfold_M. rewrite E. reflexivity. Qed.

Lemma bind_Throw {A B} (m : M St A) (k : A -> M St B) s s' :
  m s = Throw s' -> (m ≫= k) s = Throw s'.
Proof. intros E. unfold_M. rewrite E. reflexivity. Qed.

Lemma bind_Undefined {A B} (m : M St A) (k : A -> M St B) s :
  m s = Undefined -> (m ≫= k) s = Undefined.
Proof. intros E. unfold_M. rewrite E. reflexivity. Qed.

Lemma bind_final {A B} (m : M St A) (k : A -> M St B) s s2 :
  final ((m ≫= k) s) = Some s2 ->
  (exists a s1, m s = Ret a s1 /\ final (k a s1) = Some s2) \/
  m s = Throw s2.
Proof.
  unfold_M. destruct (m s) as [a s1| s1|] eqn:E; simpl; intros F.
  - left. eauto.
  - right. congruence.
  - discriminate.
Qed.

Lemma at_Ret {A} (v : list A) i (s : St) x s' :
  at_ v i s = Ret x s' <-> v !! i = Some x /\ s' = s.
Proof.
  unfold at_. destruct (v !! i) as [y|]; unfold_M; split.
  - intros [= -> ->]. auto.
  - intros [[= ->] ->]. reflexivity.
  - discriminate.
  - intros [? _]. discriminate.
Qed.

Lemma at_lookup {A} (v : list A) i (s : St) x :
  v !! i = Some x -> at_ v i s = Ret x s.
Proof. intros E. apply at_Ret. auto. Qed.

Lemma at_not_Throw {A} (v : list A) i (s s' : St) : at_ v i s <> Throw s'.
Proof. unfold at_. destruct (v !! i); unfold_M; discriminate. Qed.

End MonadFacts.

(** ** Grids *)

Lemma cell_Some g r c x :
  cell g r c = Some x <-> exists row, g !! r = Some row /\ row !! c = Some x.
Proof.
  unfold cell. destruct (g !! r) as [row|]; simpl.
  - split; [eauto|]. intros (row' & [= <-] & E). exact E.
  - split; [discriminate|]. intros (? & ? & _). discriminate.
Qed.

Lemma cell_write_cell_eq g r c v :
  is_Some (cell g r c) -> cell (write_cell g r c v) r c = Some v.
Proof.
  intros [x (row & Er & Ec)%cell_Some]. unfold write_cell. rewrite Er.
  apply cell_Some. exists (<[c := v]> row). split.
  - apply list_lookup_insert_eq. eapply lookup_lt_Some; eauto.
  - apply list_lookup_insert_eq. eapply lookup_lt_Some; eauto.
Qed.

Lemma cell_write_cell_ne g r c v r' c' :
  (r, c) <> (r', c') -> cell (write_cell g r c v) r' c' = cell g r' c'.
Proof.
  intros N. unfold write_cell. destruct (g !! r) as [row|] eqn:Er; [|done].
  unfold cell. destruct (decide (r = r')) as [<-|Nr].
  - rewrite list_lookup_insert_eq by (eapply lookup_lt_Some; eauto).
    rewrite Er. simpl. apply list_lookup_insert_ne. congruence.
  - rewrite list_lookup_insert_ne by done. reflexivity.
Qed.

Lemma cell_write_cell_dom g r c v r' c' :
  is_Some (cell (write_cell g r c v) r' c') <-> is_Some (cell g r' c').
Proof.
  destruct (decide ((r, c) = (r', c'))) as [[= <- <-]|N].
  - split; intros I.
    + unfold write_cell in I. destruct (g !! r) as [row|] eqn:Er; [|done].
      unfold cell in *. rewrite Er. simpl.
      rewrite list_lookup_insert_eq in I by (eapply lookup_lt_Some; eauto).
      simpl in I. apply lookup_lt_is_Some. apply lookup_lt_is_Some in I.
      rewrite length_insert in I. exact I.
    + rewrite cell_write_cell_eq; eauto.
  - rewrite cell_write_cell_ne by done. reflexivity.
Qed.

Lemma write_cell_length g r c v : length (write_cell g r c v) = length g.
Proof.
  unfold write_cell. destruct (g !! r); [apply length_insert|done].
Qed.

Lemma write_cell_rows g r c v n :
  Forall (fun row => length row = n) g ->
  Forall (fun row => length row = n) (write_cell g r c v).
Proof.
  intros F. unfold write_cell. destruct (g !! r) as [row|] eqn:Er; [|done].
  apply Forall_insert; [done|]. rewrite length_insert.
  eapply (Forall_lookup_1 _ _ _ _ F Er).
Qed.

Lemma cell_replay_dom new g r c :
  is_Some (cell (replay new g) r c) <-> is_Some (cell g r c).
Proof.
  induction new as [|[i j|r' c' p] new IH]; simpl; [done|done|].
  rewrite cell_write_cell_dom. exact IH.
Qed.

Lemma cell_replay_other new g r c :
  (r, c) ∉ stored_cells new -> cell (replay new g) r c = cell g r c.
Proof.
  induction new as [|[i j|r' c' p] new IH]; simpl; intros N; [done|auto|].
  unfold stored_cells in N. simpl in N. apply not_elem_of_cons in N as [N1 N2].
  rewrite cell_write_cell_ne by congruence. auto.
Qed.

Lemma cell_replay_stored new g r c p :
  NoDup (stored_cells new) -> Stored r c p ∈ new ->
  is_Some (cell g r c) -> cell (replay new g) r c = Some (clamp p).
Proof.
  induction new as [|e new IH]; intros ND I S; [by apply elem_of_nil in I|].
  apply elem_of_cons in I as [<-|I].
  - simpl. apply cell_write_cell_eq. by apply cell_replay_dom.
  - destruct e as [i j|r' c' p']; simpl; [auto|].
    unfold stored_cells in ND. simpl in ND. apply NoDup_cons in ND as [N1 N2].
    rewrite cell_write_cell_ne; [auto|].
    intros [= -> ->]. apply N1. apply list_elem_of_omap.
    exists (Stored r c p). auto.
Qed.

Lemma replay_app new2 new1 g :
  replay (new2 ++ new1) g = replay new2 (replay new1 g).
Proof. unfold replay. apply foldr_app. Qed.

Lemma replay_length new g : length (replay new g) = length g.
Proof.
  induction new as [|[|] new IH]; simpl; [done|done|].
  rewrite write_cell_length. exact IH.
Qed.

Lemma replay_rows new g n :
  Forall (fun row => length row = n) g ->
  Forall (fun row => length row = n) (replay new g).
Proof.
  intros F. induction new as [|[|] new IH]; simpl; [done|done|].
  by apply write_cell_rows.
Qed.

Lemma stored_cells_app new2 new1 :
  stored_cells (new2 ++ new1) = stored_cells new2 ++ stored_cells new1.
Proof. unfold stored_cells. apply omap_app. Qed.

Lemma last_excluded_app n new2 new1 d :
  last_excluded n (new2 ++ new1) d = last_excluded n new2 (last_excluded n new1 d).
Proof. unfold last_excluded. apply foldr_app. Qed.

Lemma last_excluded_none n new d :
  existsb excluding new = false -> last_excluded n new d = d.
Proof.
  induction new as [|[|r c p] new IH]; simpl; [done|auto|].
  destruct (Double.lt p 0.1); simpl; [discriminate|auto].
Qed.

Lemma row_event_weaken i ic nm lo hi lo' hi' e :
  lo' <= lo -> hi <= hi' ->
  row_event i ic nm lo hi e -> row_event i ic nm lo' hi' e.
Proof.
  intros L1 L2. destruct e as [i' j|r c p]; simpl.
  - intros [-> ?]. split; [done|lia].
  - intros [-> (j & ? & ->)]. split; [done|]. exists j. split; [lia|done].
Qed.

(** ** The scan, step by step *)

Section ScanFacts.
Context `{Collaborators}.

Lemma extends_same st st' :
  this st' = this st -> trace st' = trace st -> extends st st' [].
Proof. intros E1 E2. unfold extends. rewrite E1, E2. simpl. repeat split; auto. Qed.

Lemma extends_refl st : extends st st [].
Proof. by apply extends_same. Qed.

Lemma extends_trans st0 st1 st2 new1 new2 :
  extends st0 st1 new1 -> extends st1 st2 new2 ->
  extends st0 st2 (new2 ++ new1).
Proof.
  intros (T1 & M1 & C1 & S1 & G1 & F1) (T2 & M2 & C2 & S2 & G2 & F2).
  unfold extends. repeat split; try congruence.
  - rewrite T2, T1. by rewrite app_assoc.
  - rewrite G2, G1. by rewrite replay_app.
  - apply Forall_app. split; [|done].
    eapply Forall_impl; [exact F2|]. intros [|r c p]; [done|].
    simpl. rewrite G1. apply cell_replay_dom.
Qed.

Lemma extends_unique st st' new new' :
  extends st st' new -> extends st st' new' -> new = new'.
Proof.
  intros (T1 & _) (T2 & _). rewrite T1 in T2. by apply app_inv_tail in T2.
Qed.

Lemma extends_trace st st' new : extends st st' new -> trace st' = new ++ trace st.
Proof. by intros (T & _). Qed.

Lemma lift_final {A} (m : M world A) st st' :
  final (lift m st) = Some st' -> extends st st' [].
Proof.
  unfold lift. destruct (m (outside st)); simpl; intros E;
    try discriminate; injection E as <-; by apply extends_same.
Qed.

Lemma lift_frame {A} (m : M world A) st st' :
  final (lift m st) = Some st' -> this st' = this st /\ trace st' = trace st.
Proof.
  unfold lift. destruct (m (outside st)); simpl; intros E;
    try discriminate; injection E as <-; auto.
Qed.

Lemma lift_Ret {A} (m : M world A) st a st' :
  lift m st = Ret a st' ->
  m (outside st) = Ret a (outside st') /\
  this st' = this st /\ trace st' = trace st.
Proof.
  unfold lift. destruct (m (outside st)); intros E; try discriminate.
  injection E as <- <-. auto.
Qed.

Lemma lift_Throw {A} (m : M world A) st st' :
  lift m st = Throw st' ->
  m (outside st) = Throw (outside st') /\
  this st' = this st /\ trace st' = trace st.
Proof.
  unfold lift. destruct (m (outside st)); intros E; try discriminate.
  injection E as <-. auto.
Qed.

Lemma evaluate_cell_cases i j st :
  let nm := length (DM_masses (this st)) in
  evaluate_cell i j st = Undefined \/
  (exists st', evaluate_cell i j st = Throw st' /\
               this st' = this st /\ trace st' = Progress i j :: trace st) \/
  (exists p st', evaluate_cell i j st = Ret (nm - 1 - j, p) st' /\
                 this st' = this st /\ trace st' = Progress i j :: trace st).
Proof.
  intros nm. unfold evaluate_cell, at_, emit, set_DM, lift. unfold_M. simpl.
  fold nm. destruct (DM_masses (this st) !! (nm - 1 - j)) as [m|]; [|by left].
  simpl.
  match goal with |- context [pipeline ?n ?w] =>
    destruct (pipeline n w) as [p w'|w'|] end; simpl.
  - right. right. eauto.
  - right. left. eauto.
  - by left.
Qed.

Lemma evaluate_cell_lookup i j st x p st' :
  evaluate_cell i j st = Ret (x, p) st' ->
  is_Some (DM_masses (this st) !! (length (DM_masses (this st)) - 1 - j)).
Proof.
  unfold evaluate_cell, at_. unfold_M. simpl.
  destruct (DM_masses (this st) !! _); [eauto|discriminate].
Qed.

Lemma record_cell_cases ic im j re last p st :
  record_cell ic im j re last p st = Undefined \/
  exists st', record_cell ic im j re last p st
              = Ret (decision j re last p) st' /\
              outside st' = outside st /\
              extends st st' [Stored ic im p].
Proof.
  unfold record_cell, set_grid, emit, decision. unfold_M.
  destruct (p_value_grid (this st) !! ic) as [row|] eqn:Er; [|by left].
  destruct (decide (im < length row)) as [L|]; [|by left].
  right. eexists. split; [|split].
  - destruct (Double.lt p 0.1); [reflexivity|].
    destruct (re || (last + 1 <? j)); reflexivity.
  - destruct (Double.lt p 0.1); [reflexivity|].
    destruct (re || (last + 1 <? j)); reflexivity.
  - unfold extends. simpl.
    assert (S : is_Some (cell (p_value_grid (this st)) ic im)).
    { unfold cell. rewrite Er. simpl. by apply lookup_lt_is_Some. }
    unfold write_cell. rewrite Er.
    repeat split; auto.
Qed.

(** One iteration of the mass loop: it is undefined, or the pipeline
    throws after the progress report, or the p-value is stored and the
    loop goes on as [decision] says. *)
Lemma mass_loop_step n i ic j re last st :
  let nm := length (DM_masses (this st)) in
  mass_loop (S n) i ic j re last st = Undefined \/
  (exists st1, mass_loop (S n) i ic j re last st = Throw st1 /\
               evaluate_cell i j st = Throw st1 /\
               extends st st1 [Progress i j]) \/
  (exists p st1 st2,
     evaluate_cell i j st = Ret (nm - 1 - j, p) st1 /\
     record_cell ic (nm - 1 - j) j re last p st1
       = Ret (decision j re last p) st2 /\
     extends st st2 [Stored ic (nm - 1 - j) p; Progress i j] /\
     mass_loop (S n) i ic j re last st =
       match decision j re last p with
       | (Break, re', last') => Ret (re', last') st2
       | (Continue, re', last') => mass_loop n i ic (S j) re' last' st2
       end).
Proof.
  intros nm. simpl mass_loop.
  destruct (evaluate_cell_cases i j st) as [E|[(st1 & E & T1 & T2)|(p & st1 & E & T1 & T2)]].
  - left. by apply bind_Undefined.
  - right. left. exists st1. split; [by apply bind_Throw|]. split; [done|].
    unfold extends. rewrite T1, T2. simpl. repeat split; auto.
  - fold nm in E.
    destruct (record_cell_cases ic (nm - 1 - j) j re last p st1)
      as [R|(st2 & R & O & X)].
    + left. rewrite (bind_Ret _ _ _ _ _ E). by apply bind_Undefined.
    + right. right. exists p, st1, st2. split; [done|]. split; [done|]. split.
      * apply (extends_trans st st1 st2 [Progress i j] [Stored ic (nm - 1 - j) p]);
          [|done].
        unfold extends. rewrite T1, T2. simpl. repeat split; auto.
      * rewrite (bind_Ret _ _ _ _ _ E). rewrite (bind_Ret _ _ _ _ _ R).
        destruct (decision j re last p) as [[[] re'] last']; reflexivity.
Qed.

Lemma mass_loop_grows n : forall i ic j re last st st',
  final (mass_loop n i ic j re last st) = Some st' ->
  exists new, extends st st' new.
Proof.
  induction n as [|n IH]; intros i ic j re last st st' F.
  - simpl in F. injection F as <-. exists []. apply extends_refl.
  - destruct (mass_loop_step n i ic j re last st)
      as [E|[(st1 & E & _ & X)|(p & st1 & st2 & _ & _ & X & E)]];
      rewrite E in F.
    + discriminate.
    + injection F as <-. eauto.
    + destruct (decision j re last p) as [[[] re'] last'].
      * destruct (IH _ _ _ _ _ _ _ F) as (new & X').
        eexists. by eapply extends_trans.
      * simpl in F. injection F as <-. eauto.
Qed.

Lemma mass_loop_extends n : forall i ic j re last st st',
  j + n <= length (DM_masses (this st)) ->
  final (mass_loop n i ic j re last st) = Some st' ->
  exists new,
    extends st st' new /\
    Forall (row_event i ic (length (DM_masses (this st))) j (j + n)) new /\
    NoDup (stored_cells new).
Proof.
  induction n as [|n IH]; intros i ic j re last st st' L F.
  - simpl in F. injection F as <-. exists []. split; [apply extends_refl|].
    split; constructor.
  - destruct (mass_loop_step n i ic j re last st)
      as [E|[(st1 & E & _ & X)|(p & st1 & st2 & _ & _ & X & E)]];
      set (nm := length (DM_masses (this st))) in *.
    + rewrite E in F. discriminate.
    + rewrite E in F. injection F as <-. exists [Progress i j].
      split; [done|]. split; [|constructor].
      constructor; [|constructor]. simpl. split; [done|lia].
    + assert (Hrow : Forall (row_event i ic nm j (j + S n))
                       [Stored ic (nm - 1 - j) p; Progress i j]).
      { constructor; [|constructor; [|constructor]]; simpl.
        - split; [done|]. exists j. split; [lia|done].
        - split; [done|lia]. }
      rewrite E in F. destruct (decision j re last p) as [[[] re'] last'].
      * assert (M2 : DM_masses (this st2) = DM_masses (this st)) by apply X.
        destruct (IH i ic (S j) re' last' st2 st') as (new & X' & R' & N');
          [rewrite M2; fold nm; lia|done|].
        rewrite M2 in R'. fold nm in R'.
        exists (new ++ [Stored ic (nm - 1 - j) p; Progress i j]).
        split; [by eapply extends_trans|]. split.
        -- apply Forall_app. split; [|done].
           eapply Forall_impl; [exact R'|]. intros e.
           apply row_event_weaken; lia.
        -- rewrite stored_cells_app. apply NoDup_app. split; [done|].
           split; [|unfold stored_cells; simpl; apply NoDup_singleton].
           intros [r c] I. unfold stored_cells. simpl.
           apply not_elem_of_cons. split; [|apply not_elem_of_nil].
           apply list_elem_of_omap in I as (e & I & S).
           rewrite Forall_forall in R'. specialize (R' e I).
           destruct e as [|r' c' p']; [discriminate|]. simpl in S, R'.
           injection S as -> ->. destruct R' as [-> (j' & ? & ->)].
           intros [= ?]. lia.
      * simpl in F. injection F as <-.
        exists [Stored ic (nm - 1 - j) p; Progress i j].
        split; [done|]. split; [done|].
        unfold stored_cells. simpl. apply NoDup_singleton.
Qed.

(** What the mass loop returns, read off the events it added. *)
Lemma mass_loop_Ret n : forall i ic j re last st re' last' st' new,
  j + n <= length (DM_masses (this st)) ->
  mass_loop n i ic j re last st = Ret (re', last') st' ->
  extends st st' new ->
  re' = re || existsb excluding new /\
  last' = last_excluded (length (DM_masses (this st))) new last.
Proof.
  induction n as [|n IH]; intros i ic j re last st re' last' st' new L E X.
  - simpl in E. injection E as <- <- <-.
    rewrite (extends_unique _ _ _ _ X (extends_refl st)). simpl.
    by rewrite orb_false_r.
  - destruct (mass_loop_step n i ic j re last st)
      as [E'|[(st1 & E' & _)|(p & st1 & st2 & _ & _ & X2 & E')]];
      set (nm := length (DM_masses (this st))) in *; try congruence.
    rewrite E in E'. unfold decision in E'.
    assert (M2 : DM_masses (this st2) = DM_masses (this st)) by apply X2.
    assert (L2 : S j + n <= length (DM_masses (this st2)))
      by (rewrite M2; fold nm; lia).
    assert (Hj : nm - 1 - (nm - 1 - j) = j) by lia.
    destruct (Double.lt p 0.1) eqn:Hp;
      [|destruct (re || (last + 1 <? j)) eqn:Hb].
    + symmetry in E'.
      destruct (mass_loop_extends n i ic (S j) true j st2 st')
        as (new' & X' & _); [done|by rewrite E'|].
      destruct (IH _ _ _ _ _ _ _ _ _ new' L2 E' X')
        as [-> ->].
      rewrite (extends_unique _ _ _ _ X (extends_trans _ _ _ _ _ X2 X')).
      rewrite existsb_app, last_excluded_app. simpl. rewrite Hp, M2. fold nm.
      rewrite Hj. by rewrite !orb_true_r.
    + injection E' as <- <- <-.
      rewrite (extends_unique _ _ _ _ X X2). simpl. rewrite Hp.
      by rewrite orb_false_r.
    + symmetry in E'.
      destruct (mass_loop_extends n i ic (S j) re last st2 st')
        as (new' & X' & _); [done|by rewrite E'|].
      destruct (IH _ _ _ _ _ _ _ _ _ new' L2 E' X')
        as [-> ->].
      rewrite (extends_unique _ _ _ _ X (extends_trans _ _ _ _ _ X2 X')).
      rewrite existsb_app, last_excluded_app. simpl. rewrite Hp, M2.
      by rewrite !orb_false_r.
Qed.

(** A mass loop that ends without exclusion has evaluated the positions up
    to [last_excluded_mass_index + 2] and no other (its first position
    apart). *)
Lemma mass_loop_no_exclusion n : forall i ic j last st last' st' new,
  j + n <= length (DM_masses (this st)) ->
  mass_loop n i ic j false last st = Ret (false, last') st' ->
  extends st st' new ->
  forall j', Progress i j' ∈ new <->
             j <= j' < j + n /\ (j' <= last + 2 \/ j' = j).
Proof.
  induction n as [|n IH]; intros i ic j last st last' st' new L E X j'.
  - simpl in E. injection E as <- <-.
    rewrite (extends_unique _ _ _ _ X (extends_refl st)).
    rewrite elem_of_nil. lia.
  - destruct (mass_loop_step n i ic j false last st)
      as [E'|[(st1 & E' & _)|(p & st1 & st2 & _ & _ & X2 & E')]];
      set (nm := length (DM_masses (this st))) in *; try congruence.
    rewrite E in E'. unfold decision in E'.
    assert (M2 : DM_masses (this st2) = DM_masses (this st)) by apply X2.
    assert (L2 : S j + n <= length (DM_masses (this st2)))
      by (rewrite M2; fold nm; lia).
    destruct (Double.lt p 0.1) eqn:Hp;
      [|simpl in E'; destruct (last + 1 <? j) eqn:Hb].
    + symmetry in E'.
      destruct (mass_loop_extends n i ic (S j) true j st2 st')
        as (new' & X' & _); [done|by rewrite E'|].
      destruct (mass_loop_Ret _ _ _ _ _ _ _ _ _ _ new' L2 E' X') as [? _].
      discriminate.
    + injection E' as <- <-.
      rewrite (extends_unique _ _ _ _ X X2).
      apply Nat.ltb_lt in Hb.
      rewrite !elem_of_cons, elem_of_nil.
      split.
      * intros [?|[[= ->]|[]]]; [discriminate|lia].
      * intros [? ?]. right. left. f_equal. lia.
    + symmetry in E'.
      destruct (mass_loop_extends n i ic (S j) false last st2 st')
        as (new' & X' & _); [done|by rewrite E'|].
      pose proof (IH _ _ _ _ _ _ _ new' L2 E' X' j')
        as IHj.
      rewrite (extends_unique _ _ _ _ X (extends_trans _ _ _ _ _ X2 X')).
      apply Nat.ltb_ge in Hb.
      rewrite elem_of_app, IHj, !elem_of_cons, elem_of_nil.
      split.
      * intros [?|[?|[[= ->]|[]]]]; [lia|discriminate|lia].
      * intros [? ?]. destruct (decide (j' = j)) as [->|].
        -- right. right. by left.
        -- left. lia.
Qed.

Lemma scan_row_step i last st :
  let nc := length (couplings (this st)) in
  let nm := length (DM_masses (this st)) in
  scan_row i last st = Undefined \/
  exists st0, this st0 = this st /\ trace st0 = trace st /\
              scan_row i last st = mass_loop nm i (nc - 1 - i) 0 false last st0.
Proof.
  intros nc nm. unfold scan_row, at_, lift, set_DM. unfold_M. simpl.
  fold nc nm. destruct (couplings (this st) !! (nc - 1 - i)); [|by left].
  right. eexists. split; [|split]; [| |reflexivity]; reflexivity.
Qed.

Lemma coupling_loop_step n i last st :
  coupling_loop (S n) i last st =
  match scan_row i last st with
  | Ret (re, last') st1 =>
      if negb re then Ret last' st1 else coupling_loop n (S i) last' st1
  | Throw s => Throw s
  | Undefined => Undefined
  end.
Proof.
  simpl. unfold_M. destruct (scan_row i last st) as [[[] ?] ?| |]; reflexivity.
Qed.

Lemma scan_row_extends i last st st' :
  i < length (couplings (this st)) ->
  final (scan_row i last st) = Some st' ->
  exists new,
    extends st st' new /\
    Forall (row_event i (length (couplings (this st)) - 1 - i)
              (length (DM_masses (this st))) 0
              (length (DM_masses (this st)))) new /\
    NoDup (stored_cells new).
Proof.
  intros L F.
  destruct (scan_row_step i last st) as [E|(st0 & T1 & T2 & E)].
  - rewrite E in F. discriminate.
  - rewrite E in F. apply mass_loop_extends in F; [|rewrite T1; lia].
    destruct F as (new & X & R & N). exists new. rewrite T1 in R.
    split; [|done].
    replace new with (new ++ []) by apply app_nil_r.
    eapply extends_trans; [|exact X]. by apply extends_same.
Qed.

Lemma scan_row_Ret i last st re last' st' new :
  scan_row i last st = Ret (re, last') st' ->
  extends st st' new ->
  re = existsb excluding new /\
  last' = last_excluded (length (DM_masses (this st))) new last.
Proof.
  intros E X.
  destruct (scan_row_step i last st) as [E'|(st0 & T1 & T2 & E')];
    [congruence|].
  rewrite E in E'. symmetry in E'.
  assert (X0 : extends st0 st' new).
  { destruct X as (T & M1 & C1 & S1 & G1 & F1). unfold extends.
    rewrite T1, T2. repeat split; assumption. }
  apply (mass_loop_Ret _ _ _ _ _ _ _ _ _ _ new) in E';
    [|rewrite T1; lia|done].
  rewrite T1 in E'. exact E'.
Qed.

Lemma row_event_row nc nm i e :
  i < nc -> row_event i (nc - 1 - i) nm 0 nm e -> event_row nc e = i.
Proof.
  intros L. destruct e as [i' j|r c p]; simpl.
  - by intros [-> _].
  - intros [-> _]. lia.
Qed.

Lemma coupling_loop_extends n : forall i last st st',
  i + n <= length (couplings (this st)) ->
  final (coupling_loop n i last st) = Some st' ->
  exists new,
    extends st st' new /\
    scan_events (length (couplings (this st)))
                (length (DM_masses (this st))) i (i + n) new /\
    NoDup (stored_cells new) /\
    (forall i1, i <= i1 ->
       (forall c p, Stored (length (couplings (this st)) - 1 - i1) c p ∈ new ->
                    Double.lt p 0.1 = false) ->
       Forall (fun e => event_row (length (couplings (this st))) e <= i1) new).
Proof.
  induction n as [|n IH]; intros i last st st' L F.
  - simpl in F. injection F as <-. exists []. split; [apply extends_refl|].
    split; [constructor|]. split; [constructor|]. intros. constructor.
  - rewrite coupling_loop_step in F.
    set (nc := length (couplings (this st))) in *.
    set (nm := length (DM_masses (this st))) in *.
    assert (Hrow : forall st1, final (scan_row i last st) = Some st1 ->
              exists new, extends st st1 new /\
                Forall (row_event i (nc - 1 - i) nm 0 nm) new /\
                NoDup (stored_cells new)).
    { intros st1 F1. apply (scan_row_extends i last); [fold nc; lia|done]. }
    assert (Hone : forall new,
              Forall (row_event i (nc - 1 - i) nm 0 nm) new ->
              scan_events nc nm i (i + S n) new /\
              forall i1, i <= i1 -> Forall (fun e => event_row nc e <= i1) new).
    { intros new R. split.
      - eapply Forall_impl; [exact R|]. intros e Re. exists i. split; [lia|done].
      - intros i1 Li. eapply Forall_impl; [exact R|]. intros e Re.
        rewrite (row_event_row nc nm i e); [done|lia|done]. }
    destruct (scan_row i last st) as [[re last1] st1|st1|] eqn:E;
      [|simpl in F|discriminate].
    + destruct (Hrow st1 eq_refl) as (new1 & X1 & R1 & N1).
      destruct re; simpl in F.
      * assert (C1 : couplings (this st1) = couplings (this st)) by apply X1.
        assert (M1 : DM_masses (this st1) = DM_masses (this st)) by apply X1.
        destruct (IH (S i) last1 st1 st') as (new2 & X2 & R2 & N2 & P2);
          [rewrite C1; fold nc; lia|done|].
        rewrite C1, M1 in R2. rewrite C1 in P2. fold nc nm in R2, P2.
        unfold scan_events in R2.
        destruct (scan_row_Ret _ _ _ _ _ _ _ E X1) as [Hex _].
        exists (new2 ++ new1). split; [by eapply extends_trans|].
        destruct (Hone new1 R1) as [S1 Q1].
        split; [|split].
        -- apply Forall_app. split; [|done].
           eapply Forall_impl; [exact R2|]. intros e (i' & ? & ?).
           exists i'. split; [lia|done].
        -- rewrite stored_cells_app. apply NoDup_app. split; [done|].
           split; [|done]. intros [r c] I2 I1.
           apply list_elem_of_omap in I2 as (e2 & I2 & S2).
           apply list_elem_of_omap in I1 as (e1 & I1 & S1').
           rewrite Forall_forall in R2. destruct (R2 e2 I2) as (i' & ? & Re2).
           rewrite Forall_forall in R1. specialize (R1 e1 I1).
           destruct e2 as [|r2 c2 p2]; [discriminate|].
           destruct e1 as [|r1 c1 p1]; [discriminate|].
           simpl in S2, S1', Re2, R1. injection S2 as -> ->.
           injection S1' as -> ->. destruct Re2 as [-> _].
           destruct R1 as [R1 _]. lia.
        -- intros i1 Li Hno. apply Forall_app.
           destruct (decide (i1 = i)) as [->|Ni].
           ++ exfalso. symmetry in Hex. apply existsb_exists in Hex.
              destruct Hex as (e & Ie & Xe).
              apply list_elem_of_In in Ie.
              rewrite Forall_forall in R1. pose proof (R1 e Ie) as Re.
              destruct e as [|r c p]; [discriminate|]. simpl in Xe, Re.
              destruct Re as [-> _].
              rewrite (Hno c p) in Xe; [discriminate|].
              apply elem_of_app. by right.
           ++ split; [|by apply Q1].
              apply P2; [lia|]. intros c p I. apply (Hno c p).
              apply elem_of_app. by left.
      * injection F as <-. exists new1. split; [done|].
        destruct (Hone new1 R1) as [S1 Q1]. split; [done|]. split; [done|].
        intros i1 Li _. by apply Q1.
    + injection F as <-.
      destruct (Hrow st1 eq_refl) as (new1 & X1 & R1 & N1).
      exists new1. split; [done|].
      destruct (Hone new1 R1) as [S1 Q1]. split; [done|]. split; [done|].
      intros i1 Li _. by apply Q1.
Qed.

Lemma coupling_loop_Ret n : forall i last st last' st' new,
  i + n <= length (couplings (this st)) ->
  coupling_loop n i last st = Ret last' st' ->
  extends st st' new ->
  last' = last_excluded (length (DM_masses (this st))) new last.
Proof.
  induction n as [|n IH]; intros i last st last' st' new L E X.
  - simpl in E. injection E as <- <-.
    by rewrite (extends_unique _ _ _ _ X (extends_refl st)).
  - rewrite coupling_loop_step in E.
    destruct (scan_row i last st) as [[re last1] st1|st1|] eqn:E1;
      try discriminate.
    destruct (scan_row_extends i last st st1) as (new1 & X1 & _);
      [lia|by rewrite E1|].
    destruct (scan_row_Ret _ _ _ _ _ _ _ E1 X1) as [_ ->].
    destruct re; simpl in E.
    + assert (C1 : couplings (this st1) = couplings (this st)) by apply X1.
      assert (M1 : DM_masses (this st1) = DM_masses (this st)) by apply X1.
      assert (L1 : S i + n <= length (couplings (this st1)))
        by (rewrite C1; lia).
      destruct (coupling_loop_extends n (S i)
                  (last_excluded (length (DM_masses (this st))) new1 last)
                  st1 st' L1) as (new2 & X2 & _);
        [by rewrite E|].
      rewrite (IH _ _ _ _ _ new2 L1 E X2).
      rewrite (extends_unique _ _ _ _ X (extends_trans _ _ _ _ _ X1 X2)).
      by rewrite last_excluded_app, M1.
    + injection E as <- <-. by rewrite (extends_unique _ _ _ _ X X1).
Qed.

(** A store follows the progress report of its cell. *)
Lemma mass_loop_visited n : forall i ic j re last st st' new,
  j + n <= length (DM_masses (this st)) ->
  final (mass_loop n i ic j re last st) = Some st' ->
  extends st st' new ->
  forall r c p, Stored r c p ∈ new ->
    exists j', Progress i j' ∈ new /\
               c = length (DM_masses (this st)) - 1 - j'.
Proof.
  induction n as [|n IH]; intros i ic j re last st st' new L F X r c p I.
  - simpl in F. injection F as <-.
    rewrite (extends_unique _ _ _ _ X (extends_refl st)) in I.
    by apply elem_of_nil in I.
  - destruct (mass_loop_step n i ic j re last st)
      as [E|[(st1 & E & _ & X1)|(q & st1 & st2 & _ & _ & X2 & E)]];
      set (nm := length (DM_masses (this st))) in *; rewrite E in F.
    + discriminate.
    + injection F as <-. rewrite (extends_unique _ _ _ _ X X1) in I.
      apply elem_of_cons in I as [?|I]; [discriminate|].
      by apply elem_of_nil in I.
    + assert (M2 : DM_masses (this st2) = DM_masses (this st)) by apply X2.
      assert (L2 : S j + n <= length (DM_masses (this st2)))
        by (rewrite M2; fold nm; lia).
      assert (Here : forall e, e ∈ [Stored ic (nm - 1 - j) q; Progress i j] ->
                e = Stored r c p ->
                exists j', Progress i j' ∈ [Stored ic (nm - 1 - j) q; Progress i j]
                           /\ c = nm - 1 - j').
      { intros e Ie ->. apply elem_of_cons in Ie as [[= -> -> ->]|Ie].
        - exists j. split; [|done]. apply elem_of_cons. right.
          apply elem_of_cons. by left.
        - apply elem_of_cons in Ie as [?|Ie]; [discriminate|].
          by apply elem_of_nil in Ie. }
      destruct (decision j re last q) as [[[] re'] last'].
      * destruct (mass_loop_extends n i ic (S j) re' last' st2 st' L2 F)
          as (new' & X' & _).
        rewrite (extends_unique _ _ _ _ X (extends_trans _ _ _ _ _ X2 X')) in I |- *.
        apply elem_of_app in I as [I|I].
        -- destruct (IH _ _ _ _ _ _ _ _ L2 F X' _ _ _ I) as (j' & I' & ->).
           exists j'. rewrite M2. split; [|done]. apply elem_of_app. by left.
        -- destruct (Here _ I eq_refl) as (j' & I' & ->).
           exists j'. split; [|done]. apply elem_of_app. by right.
      * simpl in F. injection F as <-.
        rewrite (extends_unique _ _ _ _ X X2) in I |- *.
        exact (Here _ I eq_refl).
Qed.

Lemma scan_row_visited i last st st' new :
  i < length (couplings (this st)) ->
  final (scan_row i last st) = Some st' ->
  extends st st' new ->
  forall r c p, Stored r c p ∈ new ->
    exists j', Progress i j' ∈ new /\
               r = length (couplings (this st)) - 1 - i /\
               c = length (DM_masses (this st)) - 1 - j'.
Proof.
  intros L F X r c p I.
  destruct (scan_row_extends i last st st' L F) as (new' & X' & R & _).
  rewrite (extends_unique _ _ _ _ X X') in I |- *.
  destruct (scan_row_step i last st) as [E|(st0 & T1 & T2 & E)].
  { rewrite E in F. discriminate. }
  rewrite E in F.
  assert (X0 : extends st0 st' new').
  { destruct X' as (T & M1 & C1 & S1 & G1 & F1). unfold extends.
    rewrite T1, T2. repeat split; assumption. }
  assert (L0 : 0 + length (DM_masses (this st)) <= length (DM_masses (this st0)))
    by (rewrite T1; simpl; lia).
  destruct (mass_loop_visited _ _ _ _ _ _ _ _ _ L0 F X0 _ _ _ I)
    as (j' & I' & ->).
  exists j'. split; [done|]. rewrite T1. split; [|done].
  rewrite Forall_forall in R. by destruct (R _ I) as [-> _].
Qed.

Lemma coupling_loop_visited n : forall i last st st' new,
  i + n <= length (couplings (this st)) ->
  final (coupling_loop n i last st) = Some st' ->
  extends st st' new ->
  forall r c p, Stored r c p ∈ new ->
    exists i' j', Progress i' j' ∈ new /\
                  r = length (couplings (this st)) - 1 - i' /\
                  c = length (DM_masses (this st)) - 1 - j'.
Proof.
  induction n as [|n IH]; intros i last st st' new L F X r c p I.
  - simpl in F. injection F as <-.
    rewrite (extends_unique _ _ _ _ X (extends_refl st)) in I.
    by apply elem_of_nil in I.
  - rewrite coupling_loop_step in F.
    assert (Hrow : forall st1, final (scan_row i last st) = Some st1 ->
              exists new1, extends st st1 new1 /\
                forall r c p, Stored r c p ∈ new1 ->
                  exists i' j', Progress i' j' ∈ new1 /\
                    r = length (couplings (this st)) - 1 - i' /\
                    c = length (DM_masses (this st)) - 1 - j').
    { intros st1 F1.
      destruct (scan_row_extends i last st st1) as (new1 & X1 & _);
        [lia|done|].
      exists new1. split; [done|]. intros r' c' p' I'.
      assert (Li : i < length (couplings (this st))) by lia.
      destruct (scan_row_visited i last st st1 new1 Li F1 X1 _ _ _ I')
        as (j' & ? & ? & ?).
      by exists i, j'. }
    destruct (scan_row i last st) as [[re last1] st1|st1|] eqn:E;
      [|simpl in F|discriminate].
    + destruct (Hrow st1 eq_refl) as (new1 & X1 & V1).
      destruct re; simpl in F.
      * assert (C1 : couplings (this st1) = couplings (this st)) by apply X1.
        assert (M1 : DM_masses (this st1) = DM_masses (this st)) by apply X1.
        assert (L1 : S i + n <= length (couplings (this st1)))
          by (rewrite C1; lia).
        destruct (coupling_loop_extends n (S i) last1 st1 st' L1 F)
          as (new2 & X2 & _).
        rewrite (extends_unique _ _ _ _ X (extends_trans _ _ _ _ _ X1 X2)) in I |- *.
        apply elem_of_app in I as [I|I].
        -- destruct (IH _ _ _ _ _ L1 F X2 _ _ _ I) as (i' & j' & I' & -> & ->).
           exists i', j'. rewrite C1, M1. split; [|done].
           apply elem_of_app. by left.
        -- destruct (V1 _ _ _ I) as (i' & j' & I' & -> & ->).
           exists i', j'. split; [|done]. apply elem_of_app. by right.
      * injection F as <-. rewrite (extends_unique _ _ _ _ X X1) in I |- *.
        exact (V1 _ _ _ I).
    + injection F as <-. destruct (Hrow st1 eq_refl) as (new1 & X1 & V1).
      rewrite (extends_unique _ _ _ _ X X1) in I |- *. exact (V1 _ _ _ I).
Qed.

Lemma scan_loops_summary st st' :
  final (scan_loops st) = Some st' ->
  exists new,
    extends st st' new /\
    scan_summary (length (couplings (this st)))
                 (length (DM_masses (this st))) new.
Proof.
  intros F. unfold scan_loops in F. unfold_M. simpl in F.
  assert (L0 : 0 + length (couplings (this st)) <= length (couplings (this st)))
    by (simpl; lia).
  destruct (coupling_loop_extends _ 0 _ st st' L0 F)
    as (new & X & R & N & P).
  exists new. split; [done|]. split; [done|]. split; [done|]. split.
  - intros i. apply P. lia.
  - intros r c p I.
    exact (coupling_loop_visited _ 0 _ st st' new L0 F X r c p I).
Qed.

Lemma Perform_Scan_cases st :
  match scan_loops st with
  | Ret _ st1 =>
      Perform_Scan st =
      Ret tt (mkState (this st1)
                (restore (mass (DM (outside st)))
                   (Get_Interaction_Parameter
                      (Target_Particles (models (outside st)))
                      (DM (outside st)))
                   (outside st1))
                (trace st1))
  | Throw st1 => Perform_Scan st = Throw st1
  | Undefined => Perform_Scan st = Undefined
  end.
Proof.
  unfold Perform_Scan, lift, set_DM, restore. unfold_M. simpl.
  destruct (scan_loops st); reflexivity.
Qed.

Lemma Perform_Scan_summary st st' :
  final (Perform_Scan st) = Some st' ->
  exists new,
    extends st st' new /\
    scan_summary (length (couplings (this st)))
                 (length (DM_masses (this st))) new.
Proof.
  intros F. pose proof (Perform_Scan_cases st) as C.
  destruct (scan_loops st) as [a st1|st1|] eqn:E; rewrite C in F;
    [| |discriminate]; simpl in F; injection F as <-.
  - destruct (scan_loops_summary st st1) as (new & X & S); [by rewrite E|].
    exists new. split; [|done].
    destruct X as (T & M1 & C1 & S1 & G1 & F1). unfold extends. simpl.
    repeat split; assumption.
  - apply scan_loops_summary. by rewrite E.
Qed.

End ScanFacts.

(** ** The scan never leaves the grid

    On a session whose grid has the session's shape, and with a pipeline
    that is itself defined, no step of [Perform_Scan] is undefined: every
    index it uses is in range. *)

Section ScanDefined.
Context `{Collaborators}.
Hypothesis pipeline_defined : forall n w, pipeline n w <> Undefined.

Lemma extends_grid_shape st st' new :
  extends st st' new -> grid_shape (this st) -> grid_shape (this st').
Proof.
  intros (_ & M1 & C1 & _ & G1 & _) [Hl Hr]. unfold grid_shape.
  rewrite M1, C1, G1. split; [by rewrite replay_length|by apply replay_rows].
Qed.

Lemma evaluate_cell_defined i j st :
  j < length (DM_masses (this st)) -> evaluate_cell i j st <> Undefined.
Proof.
  intros L. unfold evaluate_cell, at_, emit, set_DM, lift. unfold_M. simpl.
  destruct (lookup_lt_is_Some_2 (DM_masses (this st))
              (length (DM_masses (this st)) - 1 - j)) as [m ->]; [lia|].
  simpl.
  match goal with |- context [pipeline ?n ?w] =>
    pose proof (pipeline_defined n w); destruct (pipeline n w) end; done.
Qed.

Lemma record_cell_defined ic im j re last p st :
  grid_shape (this st) ->
  ic < length (couplings (this st)) -> im < length (DM_masses (this st)) ->
  record_cell ic im j re last p st <> Undefined.
Proof.
  intros [Hl Hr] Lc Lm. unfold record_cell, set_grid, emit. unfold_M.
  destruct (lookup_lt_is_Some_2 (p_value_grid (this st)) ic) as [row Er];
    [lia|].
  pose proof (Forall_lookup_1 _ _ _ _ Hr Er) as Hrow. simpl in Hrow.
  rewrite Er. destruct (decide (im < length row)); [|lia].
  destruct (Double.lt p 0.1); [done|].
  by destruct (re || (last + 1 <? j)).
Qed.

Lemma mass_loop_defined n : forall i ic j re last st,
  grid_shape (this st) ->
  ic < length (couplings (this st)) ->
  j + n <= length (DM_masses (this st)) ->
  mass_loop n i ic j re last st <> Undefined.
Proof.
  induction n as [|n IH]; intros i ic j re last st G Lc Lj; [done|].
  assert (L : j < length (DM_masses (this st))) by lia.
  simpl mass_loop.
  destruct (evaluate_cell_cases i j st)
    as [U|[(st1 & T & _)|(p & st1 & R & T1 & _)]].
  - by destruct (evaluate_cell_defined i j st L).
  - by rewrite (bind_Throw _ _ _ _ T).
  - rewrite (bind_Ret _ _ _ _ _ R). simpl.
    assert (G1 : grid_shape (this st1)) by (by rewrite T1).
    assert (Lc1 : ic < length (couplings (this st1))) by (by rewrite T1).
    assert (Lm1 : length (DM_masses (this st)) - 1 - j
                  < length (DM_masses (this st1))) by (rewrite T1; lia).
    destruct (record_cell_cases ic (length (DM_masses (this st)) - 1 - j)
                j re last p st1) as [U|(st2 & R2 & _ & X2)].
    + by destruct (record_cell_defined _ _ j re last p _ G1 Lc1 Lm1).
    + rewrite (bind_Ret _ _ _ _ _ R2).
      destruct (decision j re last p) as [[[] re'] last']; [|done].
      apply IH.
      * by apply (extends_grid_shape _ _ _ X2).
      * destruct X2 as (_ & _ & -> & _). done.
      * destruct X2 as (_ & -> & _). rewrite T1. lia.
Qed.

Lemma scan_row_defined i last st :
  grid_shape (this st) -> i < length (couplings (this st)) ->
  scan_row i last st <> Undefined.
Proof.
  intros G L. unfold scan_row, at_, lift, set_DM. unfold_M. simpl.
  destruct (lookup_lt_is_Some_2 (couplings (this st))
              (length (couplings (this st)) - 1 - i)) as [c ->]; [lia|].
  apply mass_loop_defined; simpl; [done|lia|lia].
Qed.

Lemma coupling_loop_defined n : forall i last st,
  grid_shape (this st) -> i + n <= length (couplings (this st)) ->
  coupling_loop n i last st <> Undefined.
Proof.
  induction n as [|n IH]; intros i last st G L; [done|].
  rewrite coupling_loop_step.
  assert (Li : i < length (couplings (this st))) by lia.
  pose proof (scan_row_defined i last st G Li) as D.
  destruct (scan_row i last st) as [[re last1] st1|st1|] eqn:E; [|done|done].
  destruct re; simpl; [|done].
  destruct (scan_row_extends i last st st1) as (new & X & _);
    [lia|by rewrite E|].
  apply IH.
  - by apply (extends_grid_shape _ _ _ X).
  - destruct X as (_ & _ & -> & _). lia.
Qed.

Lemma Perform_Scan_defined st :
  grid_shape (this st) -> Perform_Scan st <> Undefined.
Proof.
  intros G. pose proof (Perform_Scan_cases st) as C.
  assert (D : scan_loops st <> Undefined).
  { unfold scan_loops. unfold_M. simpl. apply coupling_loop_defined; [done|].
    simpl. lia. }
  destruct (scan_loops st); [by rewrite C|by rewrite C|done].
Qed.

End ScanDefined.

(** ** Fresh grids and the last row *)

Lemma cell_replicate nc nm (x : float) r c :
  r < nc -> c < nm -> cell (replicate nc (replicate nm x)) r c = Some x.
Proof.
  intros Lr Lc. unfold cell. rewrite lookup_replicate_2 by done. simpl.
  by apply lookup_replicate_2.
Qed.

Lemma last_lookup_pred {A} (v : list A) : last v = v !! (length v - 1).
Proof. rewrite last_lookup. f_equal. lia. Qed.

(** ** Sorting *)

Lemma sort_insert_Permutation x v : sort_insert x v ≡ₚ x :: v.
Proof.
  induction v as [|y v IH]; simpl; [done|].
  destruct (Double.lt x y); [done|]. rewrite IH. apply Permutation_swap.
Qed.

Lemma std_sort_Permutation v : std_sort v ≡ₚ v.
Proof.
  induction v as [|x v IH]; simpl; [done|].
  rewrite sort_insert_Permutation. by rewrite IH.
Qed.

Lemma sort_insert_sorted x v :
  Double.is_nan x = false ->
  Forall (fun y => Double.is_nan y = false) v ->
  StronglySorted (fun a b => Double.le a b = true) v ->
  StronglySorted (fun a b => Double.le a b = true) (sort_insert x v).
Proof.
  intros Nx Nv S. induction S as [|y v S IH F]; simpl.
  - constructor; constructor.
  - apply Forall_cons in Nv as [Ny Nv].
    destruct (Double.lt x y) eqn:L.
    + constructor; [by constructor|].
      apply DoubleFacts.lt_le in L. constructor; [done|].
      eapply Forall_impl; [exact F|]. intros z Hz.
      by apply (DoubleFacts.le_trans x y z).
    + constructor; [by apply IH|].
      rewrite sort_insert_Permutation. constructor; [|done].
      by apply DoubleFacts.not_lt_le.
Qed.

Lemma std_sort_sorted v :
  Forall (fun y => Double.is_nan y = false) v ->
  StronglySorted (fun a b => Double.le a b = true) (std_sort v).
Proof.
  induction v as [|x v IH]; simpl; intros N; [constructor|].
  apply Forall_cons in N as [Nx Nv].
  apply sort_insert_sorted; [done| |by apply IH].
  by rewrite std_sort_Permutation.
Qed.

(** ** The limit loop *)

Section LimitFacts.
Context `{Collaborators}.

Lemma grid_shape_cell ps r c :
  grid_shape ps -> r < length (couplings ps) -> c < length (DM_masses ps) ->
  exists row x, p_value_grid ps !! r = Some row /\ row !! c = Some x.
Proof.
  intros [Hl Hr] Lr Lc.
  destruct (lookup_lt_is_Some_2 (p_value_grid ps) r) as [row Er]; [lia|].
  pose proof (Forall_lookup_1 _ _ _ _ Hr Er) as Hrow. simpl in Hrow.
  destruct (lookup_lt_is_Some_2 row c) as [x Ex]; [lia|].
  eauto.
Qed.

Lemma column_check_words ps CL i :
  grid_shape ps -> 0 < length (couplings ps) -> i < length (DM_masses ps) ->
  column_check ps CL i tt = Ret (extreme_row_below ps CL i) tt.
Proof.
  intros G Lc Li.
  destruct (grid_shape_cell ps (length (couplings ps) - 1) i G)
    as (row & x & Er & Ex); [lia|done|].
  unfold column_check, back, extreme_row_below, cell.
  rewrite last_lookup_pred. destruct G as [-> _]. rewrite Er. simpl.
  unfold at_. unfold_M. by rewrite Ex.
Qed.

Lemma interpolation_loop_words {St} n : forall j i ps CL acc (s : St),
  grid_shape ps -> j + n <= length (couplings ps) ->
  i < length (DM_masses ps) ->
  interpolation_loop n j i ps CL acc s =
  Ret (acc ++ map (fun j => (default 0.0 (cell (p_value_grid ps) j i)
                             - (1.0 - CL))%float) (seq j n)) s.
Proof.
  induction n as [|n IH]; intros j i ps CL acc s G Lj Li; simpl.
  - by rewrite app_nil_r.
  - destruct (grid_shape_cell ps j i G) as (row & x & Er & Ex); [lia|done|].
    rewrite (bind_Ret _ _ _ _ _ (at_lookup _ _ s _ Er)).
    rewrite (bind_Ret _ _ _ _ _ (at_lookup _ _ s _ Ex)).
    rewrite IH by (done || lia). rewrite <- app_assoc. simpl.
    unfold cell. rewrite Er. simpl. by rewrite Ex.
Qed.

Lemma column_limit_words ps CL i :
  grid_shape ps -> 0 < length (couplings ps) -> i < length (DM_masses ps) ->
  column_limit ps CL i tt =
  match column_root ps CL i, DM_masses ps !! i with
  | Ret root _, Some m => Ret [m; root] tt
  | Ret _ _, None => Undefined
  | Throw _, _ => Throw tt
  | Undefined, _ => Undefined
  end.
Proof.
  intros G Lc Li. unfold column_limit.
  assert (L0 : 0 + length (couplings ps) <= length (couplings ps)) by (simpl; lia).
  rewrite (bind_Ret _ _ _ _ _
             (interpolation_loop_words _ 0 i ps CL [] tt G L0 Li)).
  simpl app. fold (column_values ps CL i).
  destruct (lookup_lt_is_Some_2 (couplings ps) 0 Lc) as [c0 E0].
  destruct (lookup_lt_is_Some_2 (couplings ps) (length (couplings ps) - 1))
    as [cb Eb]; [lia|].
  rewrite (bind_Ret _ _ _ _ _ (at_lookup _ _ tt _ E0)).
  assert (Eback : back (couplings ps) tt = Ret cb tt).
  { unfold back. rewrite last_lookup_pred, Eb. reflexivity. }
  rewrite (bind_Ret _ _ _ _ _ Eback).
  unfold column_root. rewrite E0, last_lookup_pred, Eb. simpl.
  unfold_M.
  match goal with |- context [Find_Root ?f ?a ?b ?e ?s] =>
    destruct (Find_Root f a b e s) as [r []|[]|] end; try reflexivity.
  unfold at_. destruct (DM_masses ps !! i); reflexivity.
Qed.

Lemma limit_loop_words n : forall i ps CL acc l,
  grid_shape ps -> 0 < length (couplings ps) ->
  i + n <= length (DM_masses ps) ->
  limit_loop n i ps CL acc tt = Ret l tt <->
  exists l', l = acc ++ l' /\
    Forall2 (limit_entry ps CL)
            (List.filter (extreme_row_below ps CL) (seq i n)) l'.
Proof.
  induction n as [|n IH]; intros i ps CL acc l G Lc Li; simpl.
  - unfold_M. split.
    + intros [= <-]. exists []. rewrite app_nil_r. split; [done|constructor].
    + intros (l' & -> & F). apply Forall2_nil_inv_l in F as ->.
      by rewrite app_nil_r.
  - rewrite (bind_Ret _ _ _ _ _ (column_check_words ps CL i G Lc ltac:(lia))).
    destruct (extreme_row_below ps CL i) eqn:B.
    + pose proof (column_limit_words ps CL i G Lc ltac:(lia)) as CLw.
      destruct (lookup_lt_is_Some_2 (DM_masses ps) i ltac:(lia)) as [m Em].
      rewrite Em in CLw.
      destruct (column_root ps CL i) as [root []|[]|] eqn:R.
      * rewrite (bind_Ret _ _ _ _ _ CLw). rewrite IH by (done || lia).
        split.
        -- intros (l' & -> & F). exists ([m; root] :: l').
           rewrite <- app_assoc. split; [done|]. constructor; [|done].
           exists m, root. auto.
        -- intros (l' & -> & F).
           apply Forall2_cons_inv_l in F as (e & l'' & (m' & r' & Em' & R' & ->) & F & ->).
           exists l''. rewrite <- app_assoc. simpl.
           rewrite Em in Em'. rewrite R in R'.
           injection Em' as <-. injection R' as <-. auto.
      * rewrite (bind_Throw _ _ _ _ CLw). split; [discriminate|].
        intros (l' & -> & F).
        apply Forall2_cons_inv_l in F as (e & l'' & (m' & r' & _ & R' & _) & _).
        congruence.
      * rewrite (bind_Undefined _ _ _ CLw). split; [discriminate|].
        intros (l' & -> & F).
        apply Forall2_cons_inv_l in F as (e & l'' & (m' & r' & _ & R' & _) & _).
        congruence.
    + apply IH; (done || lia).
Qed.

End LimitFacts.

(** ** Tables *)

Lemma lookup_blocks {A} (f : nat -> list A) n m : forall a i j,
  (forall x, length (f x) = n) -> i < m -> j < n ->
  flat_map f (seq a m) !! (i * n + j) = f (a + i) !! j.
Proof.
  induction m as [|m IH]; intros a i j Hf Li Lj; [lia|]. simpl.
  destruct i as [|i].
  - simpl. rewrite lookup_app_l by (rewrite Hf; lia). by rewrite Nat.add_0_r.
  - rewrite lookup_app_r by (rewrite Hf; simpl; lia). rewrite Hf.
    replace (S i * n + j - n) with (i * n + j) by (simpl; lia).
    rewrite IH; [|done|lia|done]. by replace (S a + i) with (a + S i) by lia.
Qed.

Lemma length_blocks {A} (f : nat -> list A) n m : forall a,
  (forall x, length (f x) = n) -> length (flat_map f (seq a m)) = m * n.
Proof.
  induction m as [|m IH]; intros a Hf; simpl; [done|].
  rewrite length_app, Hf, IH by done. lia.
Qed.

Lemma export_table_length ps :
  length (export_table ps) = length (DM_masses ps) * length (couplings ps).
Proof.
  unfold export_table. apply length_blocks. intros x.
  by rewrite length_map, length_seq.
Qed.

Lemma export_table_lookup ps i j :
  i < length (DM_masses ps) -> j < length (couplings ps) ->
  export_table ps !! (i * length (couplings ps) + j) = Some (export_row ps i j).
Proof.
  intros Li Lj. unfold export_table.
  rewrite (lookup_blocks _ (length (couplings ps))); [|intros x|done|done].
  - simpl. rewrite list_lookup_fmap, lookup_seq_lt by done. done.
  - by rewrite length_map, length_seq.
Qed.

Lemma grid_ext nm (G g : list (list float)) :
  length G = length g ->
  Forall (fun row => length row = nm) G ->
  Forall (fun row => length row = nm) g ->
  (forall r c, r < length g -> c < nm -> cell G r c = cell g r c) ->
  G = g.
Proof.
  intros Hl HG Hg Hc. apply list_eq. intros r.
  destruct (decide (r < length g)) as [Lr|Lr].
  - destruct (lookup_lt_is_Some_2 G r) as [row1 E1]; [lia|].
    destruct (lookup_lt_is_Some_2 g r) as [row2 E2]; [lia|].
    rewrite E1, E2. f_equal. apply list_eq. intros c.
    pose proof (Forall_lookup_1 _ _ _ _ HG E1) as L1.
    pose proof (Forall_lookup_1 _ _ _ _ Hg E2) as L2. simpl in L1, L2.
    destruct (decide (c < nm)) as [Lc|Lc].
    + specialize (Hc r c Lr Lc). unfold cell in Hc.
      rewrite E1, E2 in Hc. exact Hc.
    + rewrite !lookup_ge_None_2 by lia. done.
  - rewrite !lookup_ge_None_2 by lia. done.
Qed.

(** The set of a strictly ascending axis, each entry repeated. *)

Lemma set_insert_above x s :
  Forall (fun y => Double.lt y x = true) s -> set_insert x s = s ++ [x].
Proof.
  induction 1 as [|y s Hy F IH]; simpl; [done|].
  rewrite (DoubleFacts.lt_asym _ _ Hy), Hy. by rewrite IH.
Qed.

Lemma set_insert_present x s :
  Forall (fun y => Double.lt y x = true) s ->
  set_insert x (s ++ [x]) = s ++ [x].
Proof.
  induction 1 as [|y s Hy F IH]; simpl.
  - by rewrite DoubleFacts.lt_irrefl.
  - rewrite (DoubleFacts.lt_asym _ _ Hy), Hy. by rewrite IH.
Qed.

Lemma set_insert_repeated x s k :
  Forall (fun y => Double.lt y x = true) s ->
  fold_left (fun s x => set_insert x s) (replicate (S k) x) s = s ++ [x].
Proof.
  intros F. simpl. rewrite set_insert_above by done.
  induction k as [|k IH]; simpl; [done|].
  by rewrite set_insert_present.
Qed.

Lemma std_set_blocks k masses : forall s,
  strictly_ascending masses ->
  Forall (fun y => Forall (fun m => Double.lt y m = true) masses) s ->
  fold_left (fun s x => set_insert x s)
            (flat_map (replicate (S k)) masses) s = s ++ masses.
Proof.
  induction masses as [|m masses IH]; intros s Hs F.
  - simpl. by rewrite app_nil_r.
  - apply StronglySorted_inv in Hs as [Hs Fm].
    change (flat_map (replicate (S k)) (m :: masses))
      with (replicate (S k) m ++ flat_map (replicate (S k)) masses).
    rewrite fold_left_app, set_insert_repeated.
    + rewrite IH; [by rewrite <- app_assoc|done|].
      apply Forall_app. split.
      * eapply Forall_impl; [exact F|]. intros y Hy.
        by apply Forall_cons in Hy as [_ ?].
      * by constructor.
    + eapply Forall_impl; [exact F|]. intros y Hy.
      by apply Forall_cons in Hy as [? _].
Qed.

Lemma map_seq_const {A} (x : A) n : forall a,
  map (fun _ => x) (seq a n) = replicate n x.
Proof. induction n as [|n IH]; intros a; simpl; [done|]. by rewrite IH. Qed.

Lemma flat_map_seq_lookup {A B} (h : A -> list B) (d : A) (l : list A) :
  forall pre,
    flat_map (fun i => h (default d ((pre ++ l) !! i)))
             (seq (length pre) (length l))
    = flat_map h l.
Proof.
  induction l as [|x l IH]; intros pre; simpl; [done|].
  rewrite lookup_app_r by lia. rewrite Nat.sub_diag. simpl. f_equal.
  specialize (IH (pre ++ [x])). rewrite <- app_assoc in IH. simpl in IH.
  rewrite length_app in IH. simpl in IH.
  by replace (length pre + 1) with (S (length pre)) in IH by lia.
Qed.

Section PersistenceFacts.
Context {St : Type}.

Lemma export_couplings_words n : forall j i ps table (s : St),
  grid_shape ps -> i < length (DM_masses ps) ->
  j + n <= length (couplings ps) ->
  export_couplings n j i ps table s
  = Ret (table ++ map (export_row ps i) (seq j n)) s.
Proof.
  induction n as [|n IH]; intros j i ps table s G Li Lj; simpl.
  - by rewrite app_nil_r.
  - destruct (lookup_lt_is_Some_2 (DM_masses ps) i Li) as [m Em].
    destruct (lookup_lt_is_Some_2 (couplings ps) j) as [c Ec]; [lia|].
    destruct G as [Hl Hr].
    destruct (lookup_lt_is_Some_2 (p_value_grid ps) j) as [row Er]; [lia|].
    pose proof (Forall_lookup_1 _ _ _ _ Hr Er) as Hrow. simpl in Hrow.
    destruct (lookup_lt_is_Some_2 row i) as [p Ep]; [lia|].
    rewrite (bind_Ret _ _ _ _ _ (at_lookup _ _ s _ Em)).
    rewrite (bind_Ret _ _ _ _ _ (at_lookup _ _ s _ Ec)).
    rewrite (bind_Ret _ _ _ _ _ (at_lookup _ _ s _ Er)).
    rewrite (bind_Ret _ _ _ _ _ (at_lookup _ _ s _ Ep)).
    rewrite IH by (done || lia). rewrite <- app_assoc. simpl.
    unfold export_row at 2, cell. rewrite Em, Ec, Er. simpl. by rewrite Ep.
Qed.

Lemma export_masses_words n : forall i ps table (s : St),
  grid_shape ps -> i + n <= length (DM_masses ps) ->
  export_masses n i ps table s
  = Ret (table ++
         flat_map (fun i => map (export_row ps i)
                              (seq 0 (length (couplings ps))))
                  (seq i n)) s.
Proof.
  induction n as [|n IH]; intros i ps table s G Li; simpl.
  - by rewrite app_nil_r.
  - assert (L1 : i < length (DM_masses ps)) by lia.
    assert (L2 : 0 + length (couplings ps) <= length (couplings ps))
      by (simpl; lia).
    rewrite (bind_Ret _ _ _ _ _
               (export_couplings_words _ 0 i ps table s G L1 L2)).
    rewrite IH by (done || lia). by rewrite <- app_assoc.
Qed.

Lemma import_masses_words n : forall i (T : list (list float)) acc (s : St),
  Forall (fun row => length row = 3) T -> i + n <= length T ->
  import_masses n i T acc s
  = Ret (acc ++ map (fun row => default 0.0%float (row !! 0))
                    (take n (drop i T))) s.
Proof.
  induction n as [|n IH]; intros i T acc s F L; simpl.
  - by rewrite app_nil_r.
  - destruct (lookup_lt_is_Some_2 T i) as [row Er]; [lia|].
    pose proof (Forall_lookup_1 _ _ _ _ F Er) as Hrow. simpl in Hrow.
    destruct (lookup_lt_is_Some_2 row 0) as [m Em]; [lia|].
    rewrite (bind_Ret _ _ _ _ _ (at_lookup _ _ s _ Er)).
    rewrite (bind_Ret _ _ _ _ _ (at_lookup _ _ s _ Em)).
    rewrite IH by (done || lia). rewrite <- app_assoc. simpl.
    rewrite (drop_S _ _ _ Er). simpl. by rewrite Em.
Qed.

Lemma import_couplings_words n : forall i (T : list (list float)) cs (s : St),
  (forall k, i <= k < i + n ->
     exists row c, T !! k = Some row /\ row !! 1 = Some c /\
                   cs !! k = Some c) ->
  import_couplings n i T cs s = Ret cs s.
Proof.
  induction n as [|n IH]; intros i T cs s Hk; simpl; [done|].
  destruct (Hk i) as (row & c & Er & Ec & Ecs); [lia|].
  rewrite (bind_Ret _ _ _ _ _ (at_lookup _ _ s _ Er)).
  rewrite (bind_Ret _ _ _ _ _ (at_lookup _ _ s _ Ec)).
  destruct (decide (i < length cs)) as [L|L].
  - rewrite list_insert_id by done. apply IH. intros k Lk. apply Hk. lia.
  - apply lookup_lt_Some in Ecs. lia.
Qed.

End PersistenceFacts.

Section ImportGridFacts.
Context {St : Type}.
Variable ps : Parameter_Scan.
Hypothesis shape : grid_shape ps.

Let nc := length (couplings ps).
Let nm := length (DM_masses ps).
Let g := p_value_grid ps.
Let T := export_table ps.

Lemma export_table_p i j :
  i < nm -> j < nc ->
  exists row, T !! (i * nc + j) = Some row /\ row !! 2 = cell g j i /\
              is_Some (cell g j i).
Proof.
  intros Li Lj. exists (export_row ps i j).
  split; [by apply export_table_lookup|].
  destruct (grid_shape_cell ps j i shape Lj Li) as (row & x & Er & Ex).
  assert (C : cell g j i = Some x) by (apply cell_Some; eauto).
  unfold export_row. fold g. rewrite C. simpl. eauto.
Qed.

Lemma import_column_filled n i : forall j G k (s : St),
  i < nm -> j + n <= nc -> k = i * nc + j ->
  filled_up_to g G nc nm i j ->
  exists G', import_column n j i T k G s = Ret (k + n, G') s /\
             filled_up_to g G' nc nm i (j + n).
Proof.
  induction n as [|n IH]; intros j G k s Li Lj -> A; simpl.
  - exists G. rewrite !Nat.add_0_r. by split.
  - destruct (export_table_p i j Li) as (row & Er & Ep & [v Ev]); [lia|].
    rewrite Ev in Ep.
    rewrite (bind_Ret _ _ _ _ _ (at_lookup _ _ s _ Er)).
    rewrite (bind_Ret _ _ _ _ _ (at_lookup _ _ s _ Ep)).
    destruct A as (Hl & Hr & Hc).
    destruct (lookup_lt_is_Some_2 G j) as [Grow EG]; [lia|].
    pose proof (Forall_lookup_1 _ _ _ _ Hr EG) as HGrow. simpl in HGrow.
    assert (Ea : assign_cell G j i v s = Ret (write_cell G j i v) s).
    { unfold assign_cell, write_cell. rewrite EG.
      destruct (decide (i < length Grow)); [done|lia]. }
    rewrite (bind_Ret _ _ _ _ _ Ea).
    destruct (IH (S j) (write_cell G j i v) (S (i * nc + j)) s Li)
      as (G' & E' & A'); [lia|lia| |].
    + split; [by rewrite write_cell_length|].
      split; [by apply write_cell_rows|].
      intros r c Lr Lc Hw. destruct (decide ((j, i) = (r, c))) as [[= <- <-]|N].
      * rewrite Ev. apply cell_write_cell_eq. unfold cell. rewrite EG. simpl.
        apply lookup_lt_is_Some. lia.
      * rewrite cell_write_cell_ne by done. apply Hc; [done|done|].
        destruct Hw as [?|[-> ?]]; [by left|]. right. split; [done|].
        assert (r <> j) by congruence. lia.
    + exists G'. rewrite E'. split; [f_equal; f_equal; lia|].
      by replace (j + S n) with (S j + n) by lia.
Qed.

Lemma import_grid_filled n : forall i G k (s : St),
  i + n <= nm -> k = i * nc ->
  filled_up_to g G nc nm i 0 ->
  exists G', import_grid n i nc T k G s = Ret G' s /\
             filled_up_to g G' nc nm (i + n) 0.
Proof.
  induction n as [|n IH]; intros i G k s Li -> A; simpl.
  - exists G. rewrite Nat.add_0_r. by split.
  - destruct (import_column_filled nc i 0 G (i * nc) s) as (G1 & E1 & A1);
      [lia|simpl; lia|lia|done|].
    rewrite (bind_Ret _ _ _ _ _ E1).
    destruct (IH (S i) G1 (i * nc + nc) s) as (G' & E' & A');
      [lia|simpl; lia| |].
    + destruct A1 as (Hl & Hr & Hc). split; [done|]. split; [done|].
      intros r c Lr Lc Hw. apply Hc; [done|done|].
      destruct Hw as [?|[_ ?]]; [|lia].
      destruct (decide (c = i)) as [->|]; [right; split; [done|simpl; lia]|].
      left. lia.
    + exists G'. split; [done|].
      by replace (i + S n) with (S i + n) by lia.
Qed.

Lemma import_grid_words (s : St) :
  import_grid nm 0 nc T 0 (replicate nc (replicate nm 0.0%float)) s
  = Ret g s.
Proof.
  destruct (import_grid_filled nm 0 (replicate nc (replicate nm 0.0%float)) 0 s)
    as (G' & E' & (Hl & Hr & Hc)); [simpl; lia|done| |].
  - split; [apply length_replicate|]. split.
    + apply Forall_replicate. apply length_replicate.
    + intros r c _ _ [?|[_ ?]]; lia.
  - rewrite E'. f_equal. destruct shape as [Sl Sr].
    apply (grid_ext nm); [unfold g, nc; lia|done|done|].
    intros r c Lr Lc. apply Hc; [unfold g, nc in *; lia|done|].
    left. simpl. lia.
Qed.

End ImportGridFacts.

Lemma map_flat_map {A B C} (f : B -> C) (h : A -> list B) l :
  map f (flat_map h l) = flat_map (fun x => map f (h x)) l.
Proof.
  induction l as [|x l IH]; simpl; [done|]. by rewrite map_app, IH.
Qed.

Lemma export_table_masses ps :
  map (fun row => default 0.0%float (row !! 0)) (export_table ps)
  = flat_map (replicate (length (couplings ps))) (DM_masses ps).
Proof.
  unfold export_table. rewrite map_flat_map.
  rewrite <- (flat_map_seq_lookup (replicate (length (couplings ps)))
                0.0%float (DM_masses ps) []).
  simpl. apply flat_map_ext. intros i.
  rewrite map_map. simpl. apply map_seq_const.
Qed.

Lemma export_table_rows ps :
  Forall (fun row => length row = 3) (export_table ps).
Proof.
  unfold export_table. apply Forall_flat_map, Forall_forall. intros i _.
  apply Forall_forall. intros row I. apply list_elem_of_In, in_map_iff in I.
  by destruct I as (j & <- & _).
Qed.

Lemma append_inj_r (s a b : string) : s +:+ a = s +:+ b -> a = b.
Proof. induction s as [|c s IH]; simpl; [done|]. intros [= E]. auto. Qed.

Section PathFacts.
Context `{Table_IO}.

Lemma p_values_path_ne_p_grid_path ID : p_values_path ID <> p_grid_path ID.
Proof.
  unfold p_values_path, p_grid_path. intros E.
  do 3 apply append_inj_r in E. discriminate.
Qed.

End PathFacts.

(** * The claims *)

Section ScanClaims.
Context `{Collaborators}.

(** C1. In the mass loop, once the p-value [p] of the cell at loop position
    [j] is stored, the loop breaks if and only if [p] is not below 0.1 and
    (an exclusion was already found in this row, or [j] exceeds
    [last_excluded_mass_index + 1]).  For a p-value that is a number, "not
    below 0.1" is [p >= 0.1].  A cell with [p < 0.1] never breaks.  After a
    break the loop is over and its state is the one the store left, so no
    smaller mass of the row is evaluated; without a break the loop goes on
    with the next smaller mass, which is then reported and evaluated. *)
Theorem mass_loop_break_condition n i index_coupling j row_exclusion last st
    index_mass p st1 c row_exclusion' last' st2 :
  evaluate_cell i j st = Ret (index_mass, p) st1 ->
  record_cell index_coupling index_mass j row_exclusion last p st1
    = Ret (c, row_exclusion', last') st2 ->
  (c = Break <->
   Double.lt p 0.1 = false /\ (row_exclusion = true \/ last + 1 < j)) /\
  (Double.is_nan p = false ->
   (Double.lt p 0.1 = false <-> Double.ge p 0.1 = true)) /\
  (Double.lt p 0.1 = true -> c = Continue) /\
  (c = Break ->
   mass_loop (S n) i index_coupling j row_exclusion last st
   = Ret (row_exclusion', last') st2) /\
  (c = Continue ->
   mass_loop (S n) i index_coupling j row_exclusion last st
   = mass_loop n i index_coupling (S j) row_exclusion' last' st2) /\
  (c = Continue -> 0 < n ->
   forall st', final (mass_loop (S n) i index_coupling j row_exclusion last st)
               = Some st' ->
               Progress i (S j) ∈ trace st').
Proof.
  intros E R.
  assert (Eloop : mass_loop (S n) i index_coupling j row_exclusion last st =
                  match c with
                  | Break => Ret (row_exclusion', last') st2
                  | Continue =>
                      mass_loop n i index_coupling (S j) row_exclusion' last' st2
                  end).
  { simpl mass_loop. rewrite (bind_Ret _ _ _ _ _ E). simpl.
    rewrite (bind_Ret _ _ _ _ _ R). by destruct c. }
  destruct (record_cell_cases index_coupling index_mass j row_exclusion last p st1)
    as [U|(st2' & R' & _ & X)]; [congruence|].
  rewrite R in R'. injection R' as D <-. unfold decision in D.
  split; [|split; [|split; [|split; [|split]]]].
  - destruct (Double.lt p 0.1).
    + injection D as -> _ _. split; [discriminate|]. by intros [? _].
    + destruct row_exclusion; simpl in D.
      * injection D as -> _ _. split; auto.
      * destruct (last + 1 <? j) eqn:Hb; injection D as -> _ _.
        -- apply Nat.ltb_lt in Hb. split; auto.
        -- apply Nat.ltb_ge in Hb. split; [discriminate|].
           intros [_ [?|?]]; [discriminate|lia].
  - intros Hn. symmetry. by apply DoubleFacts.ge_iff_not_lt.
  - intros Hp. rewrite Hp in D. by injection D as ->.
  - intros ->. exact Eloop.
  - intros ->. exact Eloop.
  - intros -> Hn st' F. rewrite Eloop in F.
    destruct n as [|n]; [lia|].
    destruct (mass_loop_step n i index_coupling (S j) row_exclusion' last' st2)
      as [U|[(st3 & T & _ & X3)|(q & st3 & st4 & _ & _ & X4 & E4)]].
    + rewrite U in F. discriminate.
    + rewrite T in F. injection F as <-.
      rewrite (extends_trace _ _ _ X3). apply elem_of_cons. by left.
    + rewrite E4 in F.
      assert (I4 : Progress i (S j) ∈ trace st4).
      { rewrite (extends_trace _ _ _ X4). apply elem_of_cons. right.
        apply elem_of_cons. by left. }
      destruct (decision (S j) row_exclusion' last' q) as [[[] re4] last4].
      * destruct (mass_loop_grows n i index_coupling (S (S j)) re4 last4 st4 st' F)
          as (new & X').
        rewrite (extends_trace _ _ _ X'). apply elem_of_app. by right.
      * simpl in F. injection F as <-. exact I4.
Qed.

End ScanClaims.

(** C1 at work: in the corner scenario, at the second position of a row
    that already has an exclusion, a p-value of 0.9 ends the row. *)
Lemma mass_loop_break_condition_witness :
  let C := Stub.collaborators Scenario.corner_p in
  let st := Stub.start Scenario.corner_p Scenario.corner_session in
  exists st1 st2,
    @evaluate_cell C 0 1 st = Ret (2, 0.9%float) st1 /\
    @record_cell C 1 2 1 true 0 0.9%float st1 = Ret (Break, true, 0) st2 /\
    @mass_loop C 3 0 1 1 true 0 st = Ret (true, 0) st2.
Proof.
  intros C st. eexists _, _.
  split; [vm_compute; reflexivity|]. split; [vm_compute; reflexivity|].
  refine (proj1 (proj2 (proj2 (proj2
            (@mass_loop_break_condition C 2 0 1 1 true 0 st 2 0.9%float _
               Break true 0 _ _ _)))) eq_refl);
    vm_compute; reflexivity.
Defined.

Section RunClaims.
Context `{Collaborators}.

(** C2. In a run of [Perform_Scan] (ended by a return or by an exception),
    if scan row [i] has stored no p-value below 0.1 - it ran to its end or
    broke early with [row_exclusion] still false, or was never reached -
    then the scan has done nothing for any smaller coupling: no cell of a
    later row was reported or evaluated, none was stored, and the grid rows
    of the smaller couplings hold what they held before the call. *)
Theorem Perform_Scan_stops_after_row_without_exclusion st st' new i :
  final (Perform_Scan st) = Some st' ->
  trace st' = new ++ trace st ->
  (forall c p, Stored (length (couplings (this st)) - 1 - i) c p ∈ new ->
               Double.lt p 0.1 = false) ->
  (forall i' j, i < i' -> Progress i' j ∉ new) /\
  (forall r c p, r < length (couplings (this st)) - 1 - i ->
                 Stored r c p ∉ new) /\
  (forall r c, r < length (couplings (this st)) - 1 - i ->
               cell (p_value_grid (this st')) r c
               = cell (p_value_grid (this st)) r c).
Proof.
  intros F T Hno.
  destruct (Perform_Scan_summary st st' F) as (new' & X & R & N & P & V).
  pose proof (extends_trace _ _ _ X) as T'. rewrite T in T'.
  apply app_inv_tail in T' as ->.
  specialize (P i Hno). rewrite Forall_forall in P.
  set (nc := length (couplings (this st))) in *.
  assert (HS : forall r c p, r < nc - 1 - i -> Stored r c p ∉ new').
  { intros r c p L I. specialize (P _ I). simpl in P. lia. }
  split; [|split].
  - intros i' j L I. specialize (P _ I). simpl in P. lia.
  - exact HS.
  - intros r c L. destruct X as (_ & _ & _ & _ & -> & _).
    apply cell_replay_other. intros I.
    apply list_elem_of_omap in I as ([|r' c' p] & I & S); [discriminate|].
    simpl in S. injection S as -> ->. by apply (HS r c p).
Qed.

(** C3. For a scan row that returns: [last_excluded_mass_index] leaves the
    row as the loop counter [j] of the row's most recent cell with
    [p < 0.1], and as it came in when the row has none ([row_exclusion]
    tells which); a row without
    exclusion has evaluated exactly the positions [j <= last + 2] of the
    axis, where [last] is the value it was handed; the next row is handed
    the value this row left, nothing resets it.  A cell with [p < 0.1]
    sets the variable to its loop counter [j], any other cell leaves it.
    Over the whole call the variable starts as [DM_masses.size()] and ends
    as the counter of the most recent excluding cell of any row. *)
Theorem last_excluded_mass_index_persists n i last st row_exclusion last1 st1
    new1 :
  i < length (couplings (this st)) ->
  scan_row i last st = Ret (row_exclusion, last1) st1 ->
  trace st1 = new1 ++ trace st ->
  last1 = last_excluded (length (DM_masses (this st))) new1 last /\
  row_exclusion = existsb excluding new1 /\
  (row_exclusion = false ->
   forall j, Progress i j ∈ new1 <->
             j < length (DM_masses (this st)) /\ j <= last + 2) /\
  (row_exclusion = true ->
   coupling_loop (S n) i last st = coupling_loop n (S i) last1 st1) /\
  (forall index_coupling index_mass j exclusion last0 p st0 c exclusion' last'
          st',
     record_cell index_coupling index_mass j exclusion last0 p st0
     = Ret (c, exclusion', last') st' ->
     if Double.lt p 0.1 then last' = j /\ exclusion' = true
     else last' = last0 /\ exclusion' = exclusion) /\
  (forall st0, scan_loops st0 =
               coupling_loop (length (couplings (this st0))) 0
                             (length (DM_masses (this st0))) st0) /\
  (forall st0 last' st' new,
     scan_loops st0 = Ret last' st' ->
     trace st' = new ++ trace st0 ->
     last' = last_excluded (length (DM_masses (this st0))) new
                           (length (DM_masses (this st0)))).
Proof.
  intros L E T.
  destruct (scan_row_extends i last st st1 L) as (new' & X & _);
    [by rewrite E|].
  pose proof (extends_trace _ _ _ X) as T'. rewrite T in T'.
  apply app_inv_tail in T' as ->.
  destruct (scan_row_Ret _ _ _ _ _ _ _ E X) as [Hre Hlast].
  split; [done|]. split; [done|]. split; [|split; [|split; [|split]]].
  - intros -> j.
    destruct (scan_row_step i last st) as [E'|(st0 & T1 & T2 & E')];
      [congruence|].
    rewrite E in E'. symmetry in E'.
    assert (X0 : extends st0 st1 new').
    { destruct X as (Tr & M1 & C1 & S1 & G1 & F1). unfold extends.
      rewrite T1, T2. repeat split; assumption. }
    assert (L0 : 0 + length (DM_masses (this st)) <= length (DM_masses (this st0)))
      by (rewrite T1; simpl; lia).
    rewrite (mass_loop_no_exclusion _ _ _ _ _ _ _ _ _ L0 E' X0 j). lia.
  - intros ->. rewrite coupling_loop_step, E. reflexivity.
  - intros ic im j re last0 p st0 c re' last' st' R.
    destruct (record_cell_cases ic im j re last0 p st0)
      as [U|(st2 & R' & _)]; [congruence|].
    rewrite R in R'. injection R' as D _. unfold decision in D.
    destruct (Double.lt p 0.1); [by injection D as _ -> ->|].
    destruct (re || (last0 + 1 <? j)); by injection D as _ -> ->.
  - intros st0. reflexivity.
  - intros st0 last' st' new E0 T0.
    assert (L0 : 0 + length (couplings (this st0)) <= length (couplings (this st0)))
      by (simpl; lia).
    change (coupling_loop (length (couplings (this st0))) 0
              (length (DM_masses (this st0))) st0 = Ret last' st') in E0.
    destruct (coupling_loop_extends _ 0 (length (DM_masses (this st0)))
                st0 st' L0) as (new0 & X0 & _);
      [by rewrite E0|].
    pose proof (extends_trace _ _ _ X0) as T0'. rewrite T0 in T0'.
    apply app_inv_tail in T0' as ->.
    exact (coupling_loop_Ret _ _ _ _ _ _ _ L0 E0 X0).
Qed.

(** C9. Every p-value [p] that a run of [Perform_Scan] computed for a cell
    is in that cell when the run ends, as [0.0] if [p < 1e-100] and
    unchanged if [p >= 1e-100]. *)
Theorem Perform_Scan_stores_clamped st st' new r c p :
  final (Perform_Scan st) = Some st' ->
  trace st' = new ++ trace st ->
  Stored r c p ∈ new ->
  cell (p_value_grid (this st')) r c = Some (clamp p) /\
  (Double.lt p 1.0e-100 = true ->
   cell (p_value_grid (this st')) r c = Some 0.0%float) /\
  (Double.ge p 1.0e-100 = true ->
   cell (p_value_grid (this st')) r c = Some p).
Proof.
  intros F T I.
  destruct (Perform_Scan_summary st st' F) as (new' & X & R & N & P & V).
  pose proof (extends_trace _ _ _ X) as T'. rewrite T in T'.
  apply app_inv_tail in T' as ->.
  assert (C : cell (p_value_grid (this st')) r c = Some (clamp p)).
  { destruct X as (_ & _ & _ & _ & -> & FS).
    apply cell_replay_stored; [done|done|].
    rewrite Forall_forall in FS. exact (FS _ I). }
  split; [done|]. rewrite C. unfold clamp. split.
  - by intros ->.
  - intros G. apply DoubleFacts.le_not_lt in G. unfold Double.lt in *.
    by rewrite G.
Qed.

(** C10. A run of [Perform_Scan] stores into no cell twice, and a cell it
    never visited (no progress report names it), like any cell it never
    stored into, holds at the end what it held before the call.  When the
    session is fresh from the constructor such a cell still reads 1.0, and
    if it lies in the row [Limit_Curve] tests, the test of its column
    fails for every confidence level whose threshold [1 - CL] is not above
    1, so the column gets no limit. *)
Theorem Perform_Scan_writes_once_and_frames st st' new :
  final (Perform_Scan st) = Some st' ->
  trace st' = new ++ trace st ->
  NoDup (stored_cells new) /\
  (forall r c,
     (forall i j, Progress i j ∈ new ->
        (r, c) <> (length (couplings (this st)) - 1 - i,
                   length (DM_masses (this st)) - 1 - j)) ->
     cell (p_value_grid (this st')) r c = cell (p_value_grid (this st)) r c) /\
  (forall r c,
     (r, c) ∉ stored_cells new ->
     cell (p_value_grid (this st')) r c = cell (p_value_grid (this st)) r c) /\
  (forall masses coupl samplesize,
     this st = new_Parameter_Scan masses coupl samplesize ->
     forall r c,
       r < length (couplings (this st)) -> c < length (DM_masses (this st)) ->
       (r, c) ∉ stored_cells new ->
       cell (p_value_grid (this st')) r c = Some 1.0%float /\
       (r = length (couplings (this st)) - 1 ->
        forall certainty_level,
          Double.lt 1.0 (1.0 - certainty_level) = false ->
          column_check (this st') certainty_level c tt = Ret false tt)).
Proof.
  intros F T.
  destruct (Perform_Scan_summary st st' F) as (new' & X & R & N & P & V).
  pose proof (extends_trace _ _ _ X) as T'. rewrite T in T'.
  apply app_inv_tail in T' as ->.
  assert (Fr : forall r c, (r, c) ∉ stored_cells new' ->
            cell (p_value_grid (this st')) r c
            = cell (p_value_grid (this st)) r c).
  { intros r c NI. destruct X as (_ & _ & _ & _ & -> & _).
    by apply cell_replay_other. }
  split; [done|]. split; [|split; [done|]].
  - intros r c NV. apply Fr. intros I.
    apply list_elem_of_omap in I as ([|r' c' p] & I & S); [discriminate|].
    simpl in S. injection S as -> ->.
    destruct (V _ _ _ I) as (i & j & I' & -> & ->).
    by apply (NV i j).
  - intros masses coupl samplesize Hnew r c Lr Lc NI.
    assert (C1 : cell (p_value_grid (this st')) r c = Some 1.0%float).
    { rewrite (Fr r c NI), Hnew. simpl. apply cell_replicate.
      - by rewrite Hnew in Lr.
      - by rewrite Hnew in Lc. }
    split; [done|]. intros -> CL HCL.
    assert (Hlen : length (p_value_grid (this st'))
                   = length (couplings (this st))).
    { destruct X as (_ & _ & _ & _ & -> & _). rewrite replay_length, Hnew.
      simpl. by rewrite length_replicate. }
    apply cell_Some in C1 as (row & Er & Ec).
    unfold column_check, back. rewrite last_lookup_pred, Hlen, Er.
    unfold at_. unfold_M. rewrite Ec. by rewrite HCL.
Qed.

End RunClaims.

(** C2 at work: nothing is excluded in the first row of the corner grid,
    and the run ends after its four cells; the row of the smaller coupling
    is neither reported nor stored into. *)
Lemma Perform_Scan_stops_after_row_without_exclusion_witness :
  let C := Stub.collaborators Scenario.dull_p in
  let st := Stub.start Scenario.dull_p Scenario.corner_session in
  exists st',
    final (@Perform_Scan C st) = Some st' /\
    length (trace st') = 8 /\
    (forall i' j, 0 < i' -> Progress i' j ∉ trace st') /\
    (forall r c p, r < 1 -> Stored r c p ∉ trace st') /\
    (forall r c, r < 1 ->
       cell (p_value_grid (this st')) r c = cell (p_value_grid (this st)) r c).
Proof.
  intros C st. eexists. split; [vm_compute; reflexivity|].
  split; [reflexivity|].
  match goal with |- context [trace ?s] =>
    refine (@Perform_Scan_stops_after_row_without_exclusion C st s (trace s)
              0 _ _ _)
  end.
  - vm_compute. reflexivity.
  - vm_compute. reflexivity.
  - intros c p I. vm_compute in I. elem_cases I; vm_compute; reflexivity.
Defined.

(** C3 at work: the first row of the corner scenario excludes at [j = 0]
    only and leaves 0 behind; the second row, handed that 0, excludes
    nothing and is cut after the positions 0, 1 and 2 of its four. *)
Lemma last_excluded_mass_index_persists_witness :
  let C := Stub.collaborators Scenario.corner_p in
  let st := Stub.start Scenario.corner_p Scenario.corner_session in
  let st0 := Scenario.corner_after_row_0 in
  let st1 := Scenario.corner_after_row_1 in
  let new1 :=
    [Stored 0 1 0.9%float; Progress 1 2; Stored 0 2 0.9%float; Progress 1 1;
     Stored 0 3 0.9%float; Progress 1 0] in
  @scan_row C 0 4 st = Ret (true, 0) st0 /\
  @scan_row C 1 0 st0 = Ret (false, 0) st1 /\
  trace st1 = new1 ++ trace st0 /\
  (forall j, Progress 1 j ∈ new1 <-> j < 4 /\ j <= 0 + 2) /\
  @coupling_loop C 2 0 4 st = @coupling_loop C 1 1 0 st0.
Proof.
  intros C st st0 st1 new1.
  assert (E0 : @scan_row C 0 4 st = Ret (true, 0) st0)
    by (vm_compute; reflexivity).
  assert (E1 : @scan_row C 1 0 st0 = Ret (false, 0) st1)
    by (vm_compute; reflexivity).
  assert (T1 : trace st1 = new1 ++ trace st0) by (vm_compute; reflexivity).
  assert (T0 : trace st0 = trace st0 ++ trace st) by (vm_compute; reflexivity).
  assert (L0 : 0 < length (couplings (this st))) by (vm_compute; lia).
  assert (L1 : 1 < length (couplings (this st0))) by (vm_compute; lia).
  split; [exact E0|]. split; [exact E1|]. split; [exact T1|]. split.
  - exact (proj1 (proj2 (proj2 (@last_excluded_mass_index_persists C 0 1 0 st0
                           false 0 st1 new1 L1 E1 T1))) eq_refl).
  - exact (proj1 (proj2 (proj2 (proj2
             (@last_excluded_mass_index_persists C 1 0 4 st
                true 0 st0 (trace st0) L0 E0 T0)))) eq_refl).
Defined.

(** C9 at work: a p-value of 1e-200 is stored as 0.0, one of 0.05 as it
    is. *)
Lemma Perform_Scan_stores_clamped_witness :
  let C := Stub.collaborators Scenario.tiny_p in
  let st := Stub.start Scenario.tiny_p Scenario.corner_session in
  exists st',
    final (@Perform_Scan C st) = Some st' /\
    Stored 1 3 1.0e-200%float ∈ trace st' /\
    cell (p_value_grid (this st')) 1 3 = Some 0.0%float /\
    Stored 1 2 0.05%float ∈ trace st' /\
    cell (p_value_grid (this st')) 1 2 = Some 0.05%float.
Proof.
  intros C st. eexists. split; [vm_compute; reflexivity|].
  match goal with |- context [trace ?s] =>
    pose proof (fun r c p =>
                  @Perform_Scan_stores_clamped C st s (trace s) r c p
                    ltac:(vm_compute; reflexivity)
                    ltac:(vm_compute; reflexivity)) as W
  end.
  assert (I1 : forall (l : list event) e, In e l -> e ∈ l)
    by (intros l e; apply list_elem_of_In).
  split; [apply I1; vm_compute; tauto|]. split.
  - refine (proj1 (proj2 (W 1 3 1.0e-200%float _)) _).
    + apply I1. vm_compute. tauto.
    + vm_compute. reflexivity.
  - split; [apply I1; vm_compute; tauto|].
    refine (proj2 (proj2 (W 1 2 0.05%float _)) _).
    + apply I1. vm_compute. tauto.
    + vm_compute. reflexivity.
Defined.

(** C10 at work: the corner scenario on a fresh session stores into five
    of the eight cells; the lightest mass at the larger coupling is never
    visited, still reads 1.0, and its column gets no limit at 90%. *)
Lemma Perform_Scan_writes_once_and_frames_witness :
  let C := Stub.collaborators Scenario.corner_p in
  let st := Stub.start Scenario.corner_p Scenario.corner_session in
  exists st',
    final (@Perform_Scan C st) = Some st' /\
    NoDup (stored_cells (trace st')) /\
    length (stored_cells (trace st')) = 5 /\
    cell (p_value_grid (this st')) 1 0 = Some 1.0%float /\
    @column_check (this st') 0.9%float 0 tt = Ret false tt.
Proof.
  intros C st. eexists. split; [vm_compute; reflexivity|].
  match goal with |- NoDup (stored_cells (trace ?s)) /\ _ =>
    pose proof (@Perform_Scan_writes_once_and_frames C st s (trace s)
                  ltac:(vm_compute; reflexivity) ltac:(vm_compute; reflexivity))
      as (N & _ & _ & Fresh)
  end.
  split; [exact N|]. split; [vm_compute; reflexivity|].
  refine ((fun W => conj (proj1 W) (proj2 W eq_refl 0.9%float _))
            (Fresh [1.0; 2.0; 3.0; 4.0]%float [1.0; 2.0]%float 100%N
               _ 1 0 _ _ _)).
  - vm_compute. reflexivity.
  - vm_compute. reflexivity.
  - vm_compute. lia.
  - vm_compute. lia.
  - vm_compute. intros I. elem_cases I.
Defined.

Section CollaboratorClaims.
Context `{Collaborators}.

(** The coupling the detector sees on the particle. *)
Let coupling_of (w : world) : float :=
  Get_Interaction_Parameter (Target_Particles (models w)) (DM w).

(** C6. Let the particle model keep what it is given: [Set_Mass m] makes
    the mass [m], [Set_Interaction_Parameter c t] makes the parameter for
    [t] equal to [c] and leaves the mass alone.  Then after a normal return
    of [Perform_Scan], and of [Upper_Limit], the particle's mass and its
    interaction parameter are exactly what they were before the call. *)
Theorem mass_and_coupling_restored
    (Set_Mass_mass : forall m d, mass (Set_Mass m d) = m)
    (Set_Interaction_Parameter_mass :
       forall c t d, mass (Set_Interaction_Parameter c t d) = mass d)
    (Set_Interaction_Parameter_get :
       forall c t d,
         Get_Interaction_Parameter t (Set_Interaction_Parameter c t d) = c) :
  (forall st st',
     Perform_Scan st = Ret tt st' ->
     mass (DM (outside st')) = mass (DM (outside st)) /\
     coupling_of (outside st') = coupling_of (outside st)) /\
  (forall self mass_ w limit w',
     Solar_Reflection_Limit.Upper_Limit self mass_ w = Ret limit w' ->
     mass (DM w') = mass (DM w) /\
     coupling_of w' = coupling_of w).
Proof.
  assert (R : forall m c w,
            mass (DM (restore m c w)) = m /\ coupling_of (restore m c w) = c).
  { intros m c w. unfold restore, coupling_of. simpl.
    by rewrite Set_Interaction_Parameter_mass, Set_Mass_mass,
               Set_Interaction_Parameter_get. }
  split.
  - intros st st' E. pose proof (Perform_Scan_cases st) as C.
    destruct (scan_loops st) as [a st1|st1|]; rewrite C in E; [|done..].
    injection E as <-. simpl. apply R.
  - intros self mass_ w limit w'.
    unfold Solar_Reflection_Limit.Upper_Limit, set_DM. unfold_M. simpl.
    match goal with |- context [Find_Root ?f ?a ?b ?e ?s] =>
      destruct (Find_Root f a b e s) as [r w1|w1|] end; [|done..].
    intros [= <- <-]. apply (R (mass (DM w)) (coupling_of w) w1).
Qed.

(** C7. [Upper_Limit] sets the model's mass to the given one, hands the
    root finder the function [func], the bracket
    [log(coupling_min), log(coupling_max)] and the tolerance 1e-2, and
    returns [exp] of the root it gets (after restoring the particle); an
    exception of the root finder propagates.  Every evaluation of [func]
    sets the coupling to [exp(log_coupling)] and runs the full pipeline
    there, call by call: the rate refresh with 1000 and 50, the minimal
    speed, the data set of [sample_size] and that speed, the spectrum of
    the data set and the particle's mass, the detector's p-value; it
    returns that p-value minus [1 - certainty_level], and an exception of
    any of the calls is its own.  No grid is involved: the call works on
    the particle and the models alone, so, run in a program state that
    also holds a scan session, it leaves session and store history as
    they are. *)
Theorem Upper_Limit_is_bracketed_root self mass_ :
  (forall w,
     Solar_Reflection_Limit.Upper_Limit self mass_ w =
     match Find_Root (Solar_Reflection_Limit.func self)
             (log (Solar_Reflection_Limit.coupling_min self))
             (log (Solar_Reflection_Limit.coupling_max self))
             1.0e-2%float
             (mkWorld (Set_Mass mass_ (DM w)) (models w)) with
     | Ret root w1 =>
         Ret (exp root) (restore (mass (DM w)) (coupling_of w) w1)
     | Throw w1 => Throw w1
     | Undefined => Undefined
     end) /\
  (forall log_coupling w,
     Solar_Reflection_Limit.func self log_coupling w =
     match Interpolate_Total_DM_Scattering_Rate 1000 50
             (mkWorld (Set_Interaction_Parameter (exp log_coupling)
                         (Target_Particles (models w)) (DM w))
                      (models w)) with
     | Ret _ w1 =>
         match Minimum_DM_Speed w1 with
         | Ret u_min w2 =>
             match Generate_Data (Solar_Reflection_Limit.sample_size self)
                                 u_min w2 with
             | Ret data_set w3 =>
                 match new_Reflection_Spectrum data_set (mass (DM w3)) w3 with
                 | Ret spectrum w4 =>
                     match P_Value spectrum w4 with
                     | Ret p w5 =>
                         Ret (p - (1.0 - Solar_Reflection_Limit.certainty_level
                                           self))%float w5
                     | Throw w5 => Throw w5
                     | Undefined => Undefined
                     end
                 | Throw w4 => Throw w4
                 | Undefined => Undefined
                 end
             | Throw w3 => Throw w3
             | Undefined => Undefined
             end
         | Throw w2 => Throw w2
         | Undefined => Undefined
         end
     | Throw w1 => Throw w1
     | Undefined => Undefined
     end) /\
  (forall st st',
     final (lift (Solar_Reflection_Limit.Upper_Limit self mass_) st) = Some st' ->
     this st' = this st /\ trace st' = trace st).
Proof.
  split; [|split].
  - intros w. unfold Solar_Reflection_Limit.Upper_Limit, set_DM, restore,
      coupling_of. unfold_M. simpl.
    match goal with |- context [Find_Root ?f ?a ?b ?e ?s] =>
      destruct (Find_Root f a b e s) as [r w1|w1|] end; reflexivity.
  - intros x w.
    unfold Solar_Reflection_Limit.func, pipeline, set_DM. unfold_M. simpl.
    destruct (Interpolate_Total_DM_Scattering_Rate 1000 50 _)
      as [[] w1|w1|]; [|reflexivity..].
    destruct (Minimum_DM_Speed w1) as [u_min w2|w2|]; [|reflexivity..].
    destruct (Generate_Data _ u_min w2) as [data_set w3|w3|];
      [|reflexivity..].
    destruct (new_Reflection_Spectrum data_set _ w3) as [spectrum w4|w4|];
      [|reflexivity..].
    destruct (P_Value spectrum w4) as [p w5|w5|]; reflexivity.
  - intros st st'. apply lift_frame.
Qed.

End CollaboratorClaims.

(** C6 at work: the stub particle keeps what it is given; after the scan
    of the specification's scenario, and after a direct limit, it has its
    mass 5 and coupling 7 again. *)
Lemma mass_and_coupling_restored_witness :
  let C := Stub.collaborators Scenario.spec_p in
  let st := Stub.start Scenario.spec_p Scenario.spec_session in
  (exists st', @Perform_Scan C st = Ret tt st' /\
               models (outside st') = 9 /\
               @mass C (DM (outside st')) = 5.0%float /\
               @Get_Interaction_Parameter C tt (DM (outside st')) = 7.0%float) /\
  (exists limit w',
     @Solar_Reflection_Limit.Upper_Limit C Scenario.direct 2.0%float (outside st)
     = Ret limit w' /\
     models w' = 2 /\
     @mass C (DM w') = 5.0%float /\
     @Get_Interaction_Parameter C tt (DM w') = 7.0%float).
Proof.
  intros C st.
  pose proof (@mass_and_coupling_restored C
                (fun _ _ => eq_refl) (fun _ _ _ => eq_refl)
                (fun _ _ _ => eq_refl)) as [WS WU].
  split.
  - eexists. split; [vm_compute; reflexivity|]. split; [reflexivity|].
    match goal with |- context [outside ?s] =>
      exact (WS st s ltac:(vm_compute; reflexivity)) end.
  - eexists _, _. split; [vm_compute; reflexivity|]. split; [reflexivity|].
    match goal with |- @mass _ (DM ?w) = _ /\ _ =>
      exact (WU Scenario.direct 2.0%float (outside st) _ w
               ltac:(vm_compute; reflexivity)) end.
Defined.

(** C7 at work, with the test doubles ([exp] and [log] are the identity,
    the root finder evaluates its function at both ends of the bracket and
    returns the midpoint, the models count the p-values computed).  One
    evaluation of [func] at [log_coupling = 1] leaves the coupling at 1,
    costs one p-value, 0.05, and gives [0.05 - (1 - 0.9)]; the limit for mass 2 over
    the bracket from 1 to 3 is 2, after two p-values, and the particle is
    back at mass 5 and coupling 7. *)
Lemma Upper_Limit_is_bracketed_root_witness :
  let C := Stub.collaborators Scenario.spec_p in
  @Solar_Reflection_Limit.func C Scenario.direct 1.0%float
    (@mkWorld (float * float) nat (2.0%float, 7.0%float) 0)
  = Ret (0.05 - (1.0 - 0.9))%float
        (@mkWorld (float * float) nat (2.0%float, 1.0%float) 1) /\
  @Solar_Reflection_Limit.Upper_Limit C Scenario.direct 2.0%float
    (@mkWorld (float * float) nat (5.0%float, 7.0%float) 0)
  = Ret 2.0%float (@mkWorld (float * float) nat (5.0%float, 7.0%float) 2).
Proof.
  intros C.
  destruct (@Upper_Limit_is_bracketed_root C Scenario.direct 2.0%float)
    as (U & F & _).
  split.
  - rewrite F. vm_compute. reflexivity.
  - rewrite U. vm_compute. reflexivity.
Defined.

(** C8. For axes without NaN, in any order and with any repetitions, and
    any sample size, the constructed session has each axis sorted
    ascending and holding exactly the given entries, repetitions included,
    and a grid of one row per coupling, each row one 1.0 per mass. *)
Theorem new_Parameter_Scan_sorts_axes_and_fills_grid masses coupl samplesize :
  Forall (fun x => Double.is_nan x = false) masses ->
  Forall (fun x => Double.is_nan x = false) coupl ->
  let ps := new_Parameter_Scan masses coupl samplesize in
  StronglySorted (fun a b => Double.le a b = true) (DM_masses ps) /\
  DM_masses ps ≡ₚ masses /\
  StronglySorted (fun a b => Double.le a b = true) (couplings ps) /\
  couplings ps ≡ₚ coupl /\
  sample_size ps = samplesize /\
  length (p_value_grid ps) = length (couplings ps) /\
  Forall (fun row => length row = length (DM_masses ps) /\
                     Forall (fun x => x = 1.0%float) row)
         (p_value_grid ps).
Proof.
  intros Nm Nc ps. unfold ps, new_Parameter_Scan. simpl.
  split; [by apply std_sort_sorted|]. split; [apply std_sort_Permutation|].
  split; [by apply std_sort_sorted|]. split; [apply std_sort_Permutation|].
  split; [done|]. split; [apply length_replicate|].
  apply Forall_replicate. split; [apply length_replicate|].
  by apply Forall_replicate.
Qed.

(** C8 at work: the axes of the specification's scenario, given out of
    order, and a mass axis with a repeated entry. *)
Lemma new_Parameter_Scan_sorts_axes_and_fills_grid_witness :
  DM_masses Scenario.spec_session = [1.0; 10.0; 100.0]%float /\
  couplings Scenario.spec_session = [1.0e-40; 1.0e-38; 1.0e-36]%float /\
  StronglySorted (fun a b => Double.le a b = true)
    (DM_masses (new_Parameter_Scan [2.0; 1.0; 2.0]%float [3.0]%float 7)) /\
  DM_masses (new_Parameter_Scan [2.0; 1.0; 2.0]%float [3.0]%float 7)
    ≡ₚ [2.0; 1.0; 2.0]%float /\
  p_value_grid (new_Parameter_Scan [2.0; 1.0; 2.0]%float [3.0]%float 7)
    = [[1.0; 1.0; 1.0]]%float.
Proof.
  split; [vm_compute; reflexivity|]. split; [vm_compute; reflexivity|].
  pose proof (new_Parameter_Scan_sorts_axes_and_fills_grid
                [2.0; 1.0; 2.0]%float [3.0]%float 7) as W.
  destruct W as (S & P & _).
  - repeat constructor.
  - repeat constructor.
  - split; [exact S|]. split; [exact P|]. vm_compute. reflexivity.
Defined.

Section LimitClaims.
Context `{Collaborators}.

(** C4. On a session whose grid has the session's shape and at least one
    coupling, [Limit_Curve(CL)] returns the list [l] exactly when [l] has,
    in the order of the mass axis, one entry for each mass column [i] whose
    grid value in the row of the largest coupling index is below [1 - CL],
    and that entry is [DM_masses[i]] with the root the root finder returns
    for the interpolation of the column's p-values minus [1 - CL] over the
    coupling axis, between [couplings[0]] and [couplings.back()] with
    tolerance [0.01 * couplings[0]].  Which columns enter depends on that
    one row only, whatever the other rows hold. *)
Theorem Limit_Curve_entries ps CL :
  grid_shape ps -> 0 < length (couplings ps) ->
  (forall l, Limit_Curve ps CL tt = Ret l tt <->
             Forall2 (limit_entry ps CL) (limit_columns ps CL) l) /\
  (forall i, i ∈ limit_columns ps CL <->
             i < length (DM_masses ps) /\
             exists x, cell (p_value_grid ps) (length (couplings ps) - 1) i
                       = Some x /\
                       Double.lt x (1.0 - CL) = true) /\
  (forall g, g !! (length (couplings ps) - 1)
             = p_value_grid ps !! (length (couplings ps) - 1) ->
             limit_columns (with_grid g ps) CL = limit_columns ps CL).
Proof.
  intros G Lc. split; [|split].
  - intros l. unfold Limit_Curve, limit_columns.
    rewrite limit_loop_words by (done || simpl; lia). simpl. split.
    + by intros (l' & -> & F).
    + intros F. by exists l.
  - intros i. unfold limit_columns. rewrite list_elem_of_In, filter_In, in_seq.
    unfold extreme_row_below. split.
    + intros [[_ Li] B]. split; [lia|].
      destruct (cell _ _ i) as [x|]; [eauto|discriminate].
    + intros [Li (x & -> & B)]. split; [lia|done].
  - intros g Eg. unfold limit_columns. simpl. apply filter_ext. intros i.
    unfold extreme_row_below, cell. simpl. by rewrite Eg.
Qed.

End LimitClaims.

(** C4 at work: after the scan of the specification's scenario the curve
    at 90% has the masses 1 and 10, each with the midpoint of the coupling
    axis that the stub root finder returns; mass 100 is left out. *)
Lemma Limit_Curve_entries_witness :
  let C := Stub.collaborators Scenario.spec_p in
  let x := ((1.0e-40 + 1.0e-36) / 2)%float in
  @limit_columns Scenario.spec_session_scanned 0.9%float = [0; 1] /\
  @Limit_Curve C Scenario.spec_session_scanned 0.9%float tt
  = Ret [[1.0%float; x]; [10.0%float; x]] tt.
Proof.
  intros C x. split; [vm_compute; reflexivity|].
  assert (G : grid_shape Scenario.spec_session_scanned)
    by (split; [reflexivity|repeat constructor]).
  assert (L : 0 < length (couplings Scenario.spec_session_scanned))
    by (vm_compute; lia).
  apply (proj1 (@Limit_Curve_entries C Scenario.spec_session_scanned
                  0.9%float G L)).
  change (@limit_columns Scenario.spec_session_scanned 0.9%float)
    with [0; 1].
  repeat constructor.
  - exists 1.0%float, x. repeat split; vm_compute; reflexivity.
  - exists 10.0%float, x. repeat split; vm_compute; reflexivity.
Defined.

Section PersistenceClaims.
Context `{Table_IO}.

(** C5, amended.  Let table files read back as they were written.  On a
    session whose grid has the session's shape, whose axes are both
    non-empty and whose mass axis is strictly ascending, an export on rank
    0 followed by an import on that same session returns normally and
    leaves the session exactly as it was: same masses, same couplings, same
    grid. *)
Theorem export_then_import_restores_session ps ID d d' :
  reads_back ->
  grid_shape ps ->
  0 < length (DM_masses ps) ->
  0 < length (couplings ps) ->
  strictly_ascending (DM_masses ps) ->
  Export_P_Values ps ID 0 d = Ret tt d' ->
  Import_P_Values ps ID d' = Ret ps d'.
Proof.
  intros [W1 W2] G Lm Lc Asc E.
  set (T := export_table ps).
  set (units := [GeV; (cm * cm)%float; 1.0%float]).
  assert (ET : Import_Table (p_values_path ID) units d' = Ret T d').
  { unfold Export_P_Values in E. simpl in E.
    assert (L0 : 0 + length (DM_masses ps) <= length (DM_masses ps))
      by (simpl; lia).
    rewrite (bind_Ret _ _ _ _ _ (export_masses_words _ 0 ps [] d G L0)) in E.
    simpl app in E. fold (export_table ps) in E. fold T units in E.
    unfold_M.
    destruct (Export_Table (p_values_path ID) T units d) as [[] d1|d1|] eqn:E1;
      try discriminate.
    apply (W2 (p_values_path ID) (p_grid_path ID) T (p_value_grid ps)
              units [] d1 d' (p_values_path_ne_p_grid_path ID)); [|done].
    by apply (W1 _ _ _ d). }
  unfold Import_P_Values. fold units. rewrite (bind_Ret _ _ _ _ _ ET).
  pose proof (export_table_length ps) as LT. fold T in LT.
  assert (L0 : 0 + length T <= length T) by (simpl; lia).
  rewrite (bind_Ret _ _ _ _ _
             (import_masses_words _ 0 T [] d' (export_table_rows ps) L0)).
  simpl app. rewrite drop_0, firstn_all.
  destruct (decide (length (DM_masses ps) = 0)) as [?|_]; [lia|].
  rewrite LT.
  assert (Ediv : length (DM_masses ps) * length (couplings ps)
                 / length (DM_masses ps) = length (couplings ps)).
  { rewrite (Nat.mul_comm (length (DM_masses ps)) (length (couplings ps))).
    apply Nat.div_mul. lia. }
  rewrite Ediv.
  rewrite resize_all.
  assert (Hk : forall k, 0 <= k < 0 + length (couplings ps) ->
            exists row c, T !! k = Some row /\ row !! 1 = Some c /\
                          couplings ps !! k = Some c).
  { intros k Lk.
    destruct (lookup_lt_is_Some_2 (couplings ps) k) as [c Ec]; [lia|].
    exists (export_row ps 0 k), c. split; [|split; [|done]].
    - unfold T. by rewrite <- (export_table_lookup ps 0 k) by lia.
    - unfold export_row. simpl. by rewrite Ec. }
  rewrite (bind_Ret _ _ _ _ _
             (import_couplings_words (length (couplings ps)) 0 T
                (couplings ps) d' Hk)).
  rewrite (bind_Ret _ _ _ _ _ (import_grid_words ps G d')).
  unfold_M. f_equal.
  unfold T. rewrite export_table_masses. unfold std_set.
  destruct (length (couplings ps)) as [|k] eqn:Ek; [lia|]. rewrite app_nil_l.
  rewrite (std_set_blocks k (DM_masses ps) [] Asc) by constructor.
  simpl. by destruct ps.
Qed.

End PersistenceClaims.

(** The stub disk reads back what was written. *)
Lemma Stub_reads_back : @reads_back Stub.table_io.
Proof.
  split.
  - intros path table units d d' E. simpl in *. unfold_M.
    injection E as <-. cbn [Stub.find_file]. by rewrite String.eqb_refl.
  - intros path path' table table' units units' d d' N I E. simpl in *.
    unfold_M. injection E as <-. cbn [Stub.find_file].
    destruct (String.eqb_spec path' path) as [->|_]; [done|].
    destruct (Stub.find_file path d); [|discriminate].
    by injection I as ->.
Qed.

(** C5 as stated fails: a session whose mass axis has the entry 1 twice
    comes back from an export and import, on a disk that reads back what
    was written, with a mass axis of one entry. *)
Lemma export_then_import_drops_repeated_mass :
  let ps := Scenario.twin_session in
  exists d ps',
    @reads_back Stub.table_io /\
    @Export_P_Values Stub.table_io ps "run" 0 [] = Ret tt d /\
    @Import_P_Values Stub.table_io ps "run" d = Ret ps' d /\
    DM_masses ps = [1.0; 1.0]%float /\
    DM_masses ps' = [1.0]%float /\
    DM_masses ps' <> DM_masses ps.
Proof.
  intros ps. eexists _, _. split; [exact Stub_reads_back|].
  split; [vm_compute; reflexivity|]. split; [vm_compute; reflexivity|].
  split; [vm_compute; reflexivity|]. split; [vm_compute; reflexivity|].
  vm_compute. discriminate.
Qed.

(** C5, amended, at work: the scanned session of the specification's
    scenario survives export and import. *)
Lemma export_then_import_restores_session_witness :
  let ps := Scenario.spec_session_scanned in
  exists d,
    @Export_P_Values Stub.table_io ps "run" 0 [] = Ret tt d /\
    @Import_P_Values Stub.table_io ps "run" d = Ret ps d.
Proof.
  intros ps. eexists. split; [vm_compute; reflexivity|].
  apply (@export_then_import_restores_session Stub.table_io ps "run" []).
  - exact Stub_reads_back.
  - split; [reflexivity|repeat constructor].
  - vm_compute. lia.
  - vm_compute. lia.
  - repeat constructor.
  - vm_compute. reflexivity.
Defined.

(** * Further properties of the scan *)

Section ScanRange.
Context `{Collaborators}.

(** X1. With collaborators that are themselves defined, [Perform_Scan] on
    a session whose grid has the session's shape never reads or writes
    outside a vector: the call returns or propagates an exception. *)
Theorem Perform_Scan_stays_in_range st :
  (forall n w, pipeline n w <> Undefined) ->
  grid_shape (this st) ->
  exists st', final (Perform_Scan st) = Some st'.
Proof.
  intros Hp G. pose proof (Perform_Scan_defined Hp st G) as D.
  destruct (Perform_Scan st) as [a st'|st'|]; [by exists st'..|done].
Qed.

(** X2. Whether it returns or throws, [Perform_Scan] on a session whose
    grid has the session's shape leaves the two axes and the sample size
    as they were, and the grid is again of the session's shape. *)
Theorem Perform_Scan_keeps_axes_and_shape st st' :
  grid_shape (this st) ->
  final (Perform_Scan st) = Some st' ->
  DM_masses (this st') = DM_masses (this st) /\
  couplings (this st') = couplings (this st) /\
  sample_size (this st') = sample_size (this st) /\
  grid_shape (this st').
Proof.
  intros G F. destruct (Perform_Scan_summary st st' F) as (new & X & _).
  pose proof (extends_grid_shape _ _ _ X G) as G'.
  destruct X as (_ & M1 & C1 & S1 & _).
  split; [done|]. split; [done|]. split; [done|exact G'].
Qed.

End ScanRange.

(** ** Where an exception comes from *)

Section ScanThrows.
Context `{Collaborators}.

Lemma evaluate_cell_inv i j st :
  let nm := length (DM_masses (this st)) in
  match evaluate_cell i j st with
  | Ret (im, p) st' =>
      exists m, DM_masses (this st) !! (nm - 1 - j) = Some m /\
        im = nm - 1 - j /\ this st' = this st /\
        trace st' = Progress i j :: trace st /\
        pipeline (sample_size (this st))
          (mkWorld (Set_Mass m (DM (outside st))) (models (outside st)))
        = Ret p (outside st')
  | Throw st' =>
      exists m, DM_masses (this st) !! (nm - 1 - j) = Some m /\
        this st' = this st /\
        trace st' = Progress i j :: trace st /\
        pipeline (sample_size (this st))
          (mkWorld (Set_Mass m (DM (outside st))) (models (outside st)))
        = Throw (outside st')
  | Undefined =>
      DM_masses (this st) !! (nm - 1 - j) = None \/
      exists m, DM_masses (this st) !! (nm - 1 - j) = Some m /\
        pipeline (sample_size (this st))
          (mkWorld (Set_Mass m (DM (outside st))) (models (outside st)))
        = Undefined
  end.
Proof.
  intros nm. unfold evaluate_cell, at_, emit, set_DM, lift. unfold_M. simpl.
  fold nm. destruct (DM_masses (this st) !! (nm - 1 - j)) as [m|]; [|by left].
  simpl.
  match goal with |- context [pipeline ?n ?w] =>
    destruct (pipeline n w) as [p w'|w'|] eqn:E end; simpl; eauto 10.
Qed.

Lemma mass_loop_Throw n : forall i ic j re last st st',
  mass_loop n i ic j re last st = Throw st' ->
  exists j' st0,
    j <= j' < j + n /\ evaluate_cell i j' st0 = Throw st' /\
    DM_masses (this st0) = DM_masses (this st).
Proof.
  induction n as [|n IH]; intros i ic j re last st st' E; [discriminate|].
  destruct (mass_loop_step n i ic j re last st)
    as [U|[(st1 & T & T' & _)|(p & st1 & st2 & _ & _ & X & E')]];
    [congruence| |].
  - rewrite E in T. injection T as <-. exists j, st. split; [lia|done].
  - rewrite E in E'. destruct (decision j re last p) as [[[] re'] last'];
      [|discriminate].
    symmetry in E'. destruct (IH _ _ _ _ _ _ _ E') as (j' & st0 & L & T & M0).
    exists j', st0. split; [lia|]. split; [done|].
    destruct X as (_ & M2 & _). congruence.
Qed.

Lemma scan_row_Throw i last st st' :
  scan_row i last st = Throw st' ->
  exists j' st0,
    j' < length (DM_masses (this st)) /\ evaluate_cell i j' st0 = Throw st' /\
    DM_masses (this st0) = DM_masses (this st).
Proof.
  intros E. destruct (scan_row_step i last st) as [U|(st0 & T1 & _ & E')];
    [congruence|].
  rewrite E in E'. symmetry in E'.
  destruct (mass_loop_Throw _ _ _ _ _ _ _ _ E') as (j' & st1 & L & T & M1).
  exists j', st1. split; [lia|]. split; [done|]. by rewrite M1, T1.
Qed.

Lemma coupling_loop_Throw n : forall i last st st',
  i + n <= length (couplings (this st)) ->
  coupling_loop n i last st = Throw st' ->
  exists i' j' st0,
    i <= i' < i + n /\ j' < length (DM_masses (this st)) /\
    evaluate_cell i' j' st0 = Throw st' /\
    DM_masses (this st0) = DM_masses (this st).
Proof.
  induction n as [|n IH]; intros i last st st' L E; [discriminate|].
  rewrite coupling_loop_step in E.
  destruct (scan_row i last st) as [[re last1] st1|st1|] eqn:R; [| |done].
  - destruct re; simpl in E; [|discriminate].
    destruct (scan_row_extends i last st st1) as (new & X & _);
      [lia|by rewrite R|].
    assert (C1 : couplings (this st1) = couplings (this st)) by apply X.
    assert (M1 : DM_masses (this st1) = DM_masses (this st)) by apply X.
    assert (L1 : S i + n <= length (couplings (this st1)))
      by (rewrite C1; lia).
    destruct (IH _ _ _ _ L1 E) as (i' & j' & st0 & Li & Lj & T & M0).
    exists i', j', st0. split; [lia|]. rewrite <- M1. split; [done|].
    split; [done|]. congruence.
  - injection E as <-.
    destruct (scan_row_Throw _ _ _ _ R) as (j' & st0 & Lj & T & M0).
    exists i, j', st0. split; [lia|]. done.
Qed.

Lemma Perform_Scan_Throw st st' :
  Perform_Scan st = Throw st' ->
  exists i j st0,
    i < length (couplings (this st)) /\ j < length (DM_masses (this st)) /\
    evaluate_cell i j st0 = Throw st' /\
    DM_masses (this st0) = DM_masses (this st).
Proof.
  intros E. pose proof (Perform_Scan_cases st) as C.
  destruct (scan_loops st) as [a st1|st1|] eqn:S; rewrite C in E;
    [discriminate| |discriminate].
  injection E as <-.
  assert (L0 : 0 + length (couplings (this st)) <= length (couplings (this st)))
    by (simpl; lia).
  destruct (coupling_loop_Throw _ 0 _ st st1 L0 S)
    as (i & j & st0 & Li & Lj & T & M0).
  exists i, j, st0. split; [lia|]. done.
Qed.

(** X3. An exception of the pipeline leaves [Perform_Scan] at once: the
    last event is the progress report of the cell that was being
    evaluated and nothing is restored.  On a session whose grid has the
    session's shape, with a particle that keeps the mass it is given and a
    pipeline that does not change that mass when it throws, the particle
    is left with the mass of that cell. *)
Theorem Perform_Scan_exception_leaves_cell_mass st st' :
  grid_shape (this st) ->
  (forall m d, mass (Set_Mass m d) = m) ->
  (forall n w w', pipeline n w = Throw w' -> mass (DM w') = mass (DM w)) ->
  Perform_Scan st = Throw st' ->
  exists i j m rest,
    i < length (couplings (this st)) /\ j < length (DM_masses (this st)) /\
    trace st' = Progress i j :: rest /\
    DM_masses (this st) !! (length (DM_masses (this st)) - 1 - j) = Some m /\
    mass (DM (outside st')) = m.
Proof.
  intros _ Hm Hp E.
  destruct (Perform_Scan_Throw st st' E) as (i & j & st0 & Li & Lj & T & M0).
  pose proof (evaluate_cell_inv i j st0) as I. rewrite T in I.
  destruct I as (m & Em & _ & Tr & P).
  exists i, j, m, (trace st0). split; [done|]. split; [done|].
  split; [done|]. rewrite <- M0. split; [done|].
  rewrite (Hp _ _ _ P). simpl. apply Hm.
Qed.

End ScanThrows.

Section ScanExtremes.
Context `{Collaborators}.

Lemma record_cell_short_row ic im j re last p st :
  (forall row, p_value_grid (this st) !! ic = Some row -> length row <= im) ->
  record_cell ic im j re last p st = Undefined.
Proof.
  intros Hs. unfold record_cell, set_grid. unfold_M.
  destruct (p_value_grid (this st) !! ic) as [row|] eqn:Er; [|done].
  specialize (Hs row eq_refl). destruct (decide (im < length row)); [lia|done].
Qed.

(** X4. If the row of the largest coupling index is missing from the grid
    or shorter than the mass axis (both axes non-empty), [Perform_Scan]
    cannot return: its first store is out of range.  When the pipeline
    returns a p-value for the first cell the call is undefined. *)
Theorem Perform_Scan_needs_full_rows st :
  0 < length (couplings (this st)) ->
  0 < length (DM_masses (this st)) ->
  (forall row,
     p_value_grid (this st) !! (length (couplings (this st)) - 1) = Some row ->
     length row < length (DM_masses (this st))) ->
  (forall st', Perform_Scan st <> Ret tt st') /\
  ((forall n w, exists p w', pipeline n w = Ret p w') ->
   Perform_Scan st = Undefined).
Proof.
  intros Lc Lm Hs.
  assert (Hmass : forall st0, this st0 = this st ->
            let r := mass_loop (length (DM_masses (this st))) 0
                       (length (couplings (this st)) - 1 - 0) 0 false
                       (length (DM_masses (this st))) st0 in
            r = Undefined \/
            exists st1, r = Throw st1 /\
              exists st0, evaluate_cell 0 0 st0 = Throw st1).
  { intros st0 T1 r. unfold r. clear r.
    destruct (length (DM_masses (this st))) as [|m] eqn:Enm; [lia|].
    destruct (mass_loop_step m 0 (length (couplings (this st)) - 1 - 0) 0
                false (S m) st0)
      as [U|[(st1 & T & T' & _)|(p & st1 & st2 & E1 & E2 & _)]].
    - by left.
    - right. exists st1. split; [done|]. by exists st0.
    - exfalso. rewrite record_cell_short_row in E2; [discriminate|].
      pose proof (evaluate_cell_inv 0 0 st0) as I. rewrite E1 in I.
      destruct I as (_ & _ & _ & -> & _). rewrite T1.
      intros row Er.
      replace (length (couplings (this st)) - 1 - 0)
        with (length (couplings (this st)) - 1) in Er by lia.
      specialize (Hs row Er). rewrite Enm. lia. }
  assert (Hloops : scan_loops st = Undefined \/
                   exists st1, scan_loops st = Throw st1 /\
                     exists st0, evaluate_cell 0 0 st0 = Throw st1).
  { unfold scan_loops. unfold_M. simpl.
    destruct (length (couplings (this st))) as [|n] eqn:Enc; [lia|].
    rewrite coupling_loop_step.
    destruct (scan_row_step 0 (length (DM_masses (this st))) st)
      as [->|(st0 & T1 & _ & ->)]; [by left|].
    rewrite Enc.
    destruct (Hmass st0 T1) as [->|(st1 & -> & Hev)]; [by left|].
    right. eauto. }
  pose proof (Perform_Scan_cases st) as C. split.
  - intros st'. destruct Hloops as [U|(st1 & T & _)].
    + rewrite U in C. congruence.
    + rewrite T in C. congruence.
  - intros Hp. destruct Hloops as [U|(st1 & T & st0 & Hev)].
    + by rewrite U in C.
    + exfalso. pose proof (evaluate_cell_inv 0 0 st0) as I.
      rewrite Hev in I. destruct I as (m & _ & _ & _ & P).
      match type of P with pipeline ?n ?w = _ =>
        destruct (Hp n w) as (p & w' & P') end.
      congruence.
Qed.

Variable threshold_side : bool.
Hypothesis pipeline_returns :
  forall n w, exists p w',
    pipeline n w = Ret p w' /\ Double.lt p 0.1 = threshold_side.

Lemma pipeline_returns_defined : forall n w, pipeline n w <> Undefined.
Proof. intros n w. destruct (pipeline_returns n w) as (p & w' & -> & _). done. Qed.

(** One iteration of the mass loop when the pipeline always returns. *)
Lemma mass_loop_step_returns n i ic j re last st :
  grid_shape (this st) ->
  ic < length (couplings (this st)) ->
  j + S n <= length (DM_masses (this st)) ->
  exists p st2,
    Double.lt p 0.1 = threshold_side /\
    extends st st2 [Stored ic (length (DM_masses (this st)) - 1 - j) p;
                    Progress i j] /\
    mass_loop (S n) i ic j re last st =
    match decision j re last p with
    | (Break, re', last') => Ret (re', last') st2
    | (Continue, re', last') => mass_loop n i ic (S j) re' last' st2
    end.
Proof.
  intros G Lc Lj.
  pose proof (mass_loop_defined pipeline_returns_defined (S n) i ic j re last st
                G Lc Lj) as D.
  destruct (mass_loop_step n i ic j re last st)
    as [U|[(st1 & _ & T & _)|(p & st1 & st2 & E1 & _ & X & E)]]; [done| |].
  - exfalso. pose proof (evaluate_cell_inv i j st) as I. rewrite T in I.
    destruct I as (m & _ & _ & _ & P).
    match type of P with pipeline ?n ?w = _ =>
      destruct (pipeline_returns n w) as (p & w' & P' & _) end.
    congruence.
  - exists p, st2. split; [|done].
    pose proof (evaluate_cell_inv i j st) as I. rewrite E1 in I.
    destruct I as (m & _ & _ & _ & _ & P).
    match type of P with pipeline ?n ?w = _ =>
      destruct (pipeline_returns n w) as (p' & w' & P' & Hp) end.
    congruence.
Qed.

End ScanExtremes.

Section ScanAllOrNothing.
Context `{Collaborators}.

Lemma extends_from st0 st st' new :
  this st0 = this st -> trace st0 = trace st ->
  extends st0 st' new -> extends st st' new.
Proof.
  intros T1 T2 (T & M1 & C1 & S1 & G1 & F1). unfold extends.
  rewrite <- T1, <- T2. repeat split; assumption.
Qed.

Section AllExcluded.
Hypothesis all_excluded :
  forall n w, exists p w', pipeline n w = Ret p w' /\ Double.lt p 0.1 = true.

Lemma mass_loop_all_excluded n : forall i ic j re last st,
  grid_shape (this st) ->
  ic < length (couplings (this st)) ->
  j + n <= length (DM_masses (this st)) ->
  exists last' st' new,
    mass_loop n i ic j re last st = Ret (re || (0 <? n), last') st' /\
    extends st st' new /\
    forall j', j <= j' < j + n ->
      exists p, Stored ic (length (DM_masses (this st)) - 1 - j') p ∈ new /\
                Double.lt p 0.1 = true.
Proof.
  induction n as [|n IH]; intros i ic j re last st G Lc Lj.
  - exists last, st, []. simpl. rewrite orb_false_r.
    split; [done|]. split; [apply extends_refl|]. intros j' ?. lia.
  - destruct (mass_loop_step_returns true all_excluded n i ic j re last st
                G Lc Lj) as (p & st2 & Hp & X & E).
    unfold decision in E. rewrite Hp in E.
    assert (M2 : DM_masses (this st2) = DM_masses (this st)) by apply X.
    assert (C2 : couplings (this st2) = couplings (this st)) by apply X.
    destruct (IH i ic (S j) true j st2) as (last' & st' & new & E' & X' & Hc).
    + by apply (extends_grid_shape _ _ _ X).
    + by rewrite C2.
    + rewrite M2. lia.
    + exists last', st',
        (new ++ [Stored ic (length (DM_masses (this st)) - 1 - j) p;
                 Progress i j]).
      split; [|split].
      * rewrite E, E'. simpl. by rewrite orb_true_r.
      * by eapply extends_trans.
      * intros j' Lj'. destruct (decide (j' = j)) as [->|N].
        -- exists p. split; [|done]. apply elem_of_app. right.
           apply elem_of_cons. by left.
        -- destruct (Hc j') as (q & I & Hq); [lia|]. exists q.
           split; [|done]. rewrite M2 in I. apply elem_of_app. by left.
Qed.

Lemma coupling_loop_all_excluded n : forall i last st,
  grid_shape (this st) ->
  i + n <= length (couplings (this st)) ->
  exists last' st' new,
    coupling_loop n i last st = Ret last' st' /\
    extends st st' new /\
    forall i' j', i <= i' < i + n -> j' < length (DM_masses (this st)) ->
      exists p,
        Stored (length (couplings (this st)) - 1 - i')
               (length (DM_masses (this st)) - 1 - j') p ∈ new /\
        Double.lt p 0.1 = true.
Proof.
  induction n as [|n IH]; intros i last st G L.
  - exists last, st, []. split; [done|]. split; [apply extends_refl|].
    intros i' j' ?. lia.
  - rewrite coupling_loop_step.
    assert (Li : i < length (couplings (this st))) by lia.
    pose proof (scan_row_defined (pipeline_returns_defined true all_excluded)
                  i last st G Li) as D.
    destruct (scan_row_step i last st) as [U|(st0 & T1 & T2 & E)]; [done|].
    destruct (mass_loop_all_excluded (length (DM_masses (this st))) i
                (length (couplings (this st)) - 1 - i) 0 false last st0)
      as (last1 & st1 & new1 & E1 & X1 & Hc1).
    { by rewrite T1. } { rewrite T1. lia. } { rewrite T1. simpl. lia. }
    rewrite T1 in Hc1. apply (extends_from st0 st) in X1; [|done..].
    rewrite E, E1. simpl.
    destruct (length (DM_masses (this st))) as [|m] eqn:Em; simpl.
    + exists last1, st1, new1. split; [done|]. split; [done|].
      intros i' j' _ ?. lia.
    + assert (C1 : couplings (this st1) = couplings (this st)) by apply X1.
      assert (M1 : DM_masses (this st1) = DM_masses (this st)) by apply X1.
      destruct (IH (S i) last1 st1) as (last' & st' & new & E' & X' & Hc).
      * by apply (extends_grid_shape _ _ _ X1).
      * rewrite C1. lia.
      * exists last', st', (new ++ new1). split; [done|].
        split; [by eapply extends_trans|].
        intros i' j' Li' Lj'. destruct (decide (i' = i)) as [->|N].
        -- destruct (Hc1 j') as (p & I & Hp); [simpl; lia|]. exists p.
           split; [|done]. apply elem_of_app. by right.
        -- destruct (Hc i' j') as (p & I & Hp); [lia|rewrite M1, Em; lia|].
           exists p. split; [|done]. rewrite C1, M1, Em in I.
           apply elem_of_app. by left.
Qed.

(** X5. If every p-value the pipeline returns is below 0.1, nothing is
    pruned: [Perform_Scan] on a session whose grid has the session's shape
    returns, and every cell of the grid has been evaluated and holds the
    clamped p-value computed for it. *)
Theorem Perform_Scan_all_excluded_fills_grid st :
  grid_shape (this st) ->
  exists st' new,
    Perform_Scan st = Ret tt st' /\
    trace st' = new ++ trace st /\
    forall r c,
      r < length (couplings (this st)) -> c < length (DM_masses (this st)) ->
      exists p, Stored r c p ∈ new /\ Double.lt p 0.1 = true /\
                cell (p_value_grid (this st')) r c = Some (clamp p).
Proof.
  intros G.
  assert (L0 : 0 + length (couplings (this st)) <= length (couplings (this st)))
    by (simpl; lia).
  destruct (coupling_loop_all_excluded _ 0 (length (DM_masses (this st))) st
              G L0) as (last' & st1 & new & E & X & Hc).
  pose proof (Perform_Scan_cases st) as C.
  assert (S : scan_loops st = Ret last' st1) by exact E.
  rewrite S in C.
  match type of C with _ = Ret tt ?s => set (st' := s) in * end.
  assert (F : final (Perform_Scan st) = Some st') by (by rewrite C).
  destruct (Perform_Scan_summary st st' F) as (new' & X' & _ & N & _).
  assert (T' : trace st' = new ++ trace st) by apply X.
  pose proof (extends_trace _ _ _ X') as T''. rewrite T' in T''.
  apply app_inv_tail in T'' as <-.
  exists st', new. split; [done|]. split; [done|].
  intros r c Lr Lc.
  destruct (Hc (length (couplings (this st)) - 1 - r)
               (length (DM_masses (this st)) - 1 - c)) as (p & I & Hp);
    [lia|lia|].
  replace (length (couplings (this st)) - 1
           - (length (couplings (this st)) - 1 - r)) with r in I by lia.
  replace (length (DM_masses (this st)) - 1
           - (length (DM_masses (this st)) - 1 - c)) with c in I by lia.
  exists p. split; [done|]. split; [done|].
  destruct X' as (_ & _ & _ & _ & -> & FS).
  apply cell_replay_stored; [done|done|].
  rewrite Forall_forall in FS. exact (FS _ I).
Qed.

End AllExcluded.

Section NoneExcluded.
Hypothesis none_excluded :
  forall n w, exists p w', pipeline n w = Ret p w' /\ Double.lt p 0.1 = false.

Lemma mass_loop_none_excluded n : forall i ic j last st,
  grid_shape (this st) ->
  ic < length (couplings (this st)) ->
  j + n <= length (DM_masses (this st)) ->
  exists st', mass_loop n i ic j false last st = Ret (false, last) st'.
Proof.
  induction n as [|n IH]; intros i ic j last st G Lc Lj.
  - by exists st.
  - destruct (mass_loop_step_returns false none_excluded n i ic j false last st
                G Lc Lj) as (p & st2 & Hp & X & E).
    rewrite E. unfold decision. rewrite Hp. cbn [orb].
    destruct (last + 1 <? j); [by exists st2|].
    apply IH.
    + by apply (extends_grid_shape _ _ _ X).
    + destruct X as (_ & _ & -> & _). done.
    + destruct X as (_ & -> & _). lia.
Qed.

(** X6. If no p-value the pipeline returns is below 0.1, [Perform_Scan]
    (on a session with at least one coupling and a grid of the session's
    shape) evaluates every mass of the row of the largest coupling and
    nothing else, returns, and leaves all other rows of the grid as they
    were. *)
Theorem Perform_Scan_none_excluded_scans_first_row st :
  grid_shape (this st) ->
  0 < length (couplings (this st)) ->
  exists st' new,
    Perform_Scan st = Ret tt st' /\
    trace st' = new ++ trace st /\
    (forall i j, Progress i j ∈ new <->
                 i = 0 /\ j < length (DM_masses (this st))) /\
    (forall r c, r < length (couplings (this st)) - 1 ->
                 cell (p_value_grid (this st')) r c
                 = cell (p_value_grid (this st)) r c).
Proof.
  intros G Lc.
  destruct (scan_row_step 0 (length (DM_masses (this st))) st)
    as [U|(st0 & T1 & T2 & E)].
  { by destruct (scan_row_defined (pipeline_returns_defined false none_excluded)
                   0 (length (DM_masses (this st))) st G Lc). }
  destruct (mass_loop_none_excluded (length (DM_masses (this st))) 0
              (length (couplings (this st)) - 1 - 0) 0
              (length (DM_masses (this st))) st0) as (st1 & E1).
  { by rewrite T1. } { rewrite T1. lia. } { rewrite T1. simpl. lia. }
  rewrite E1 in E.
  destruct (scan_row_extends 0 (length (DM_masses (this st))) st st1 Lc)
    as (new & X & R & _); [by rewrite E|].
  assert (S : scan_loops st = Ret (length (DM_masses (this st))) st1).
  { unfold scan_loops. unfold_M. simpl.
    destruct (length (couplings (this st))) as [|n] eqn:En; [lia|].
    rewrite coupling_loop_step, E. reflexivity. }
  pose proof (Perform_Scan_cases st) as C. rewrite S in C.
  match type of C with _ = Ret tt ?s => exists s, new end.
  split; [done|]. split; [apply X|]. split.
  - intros i j. split.
    + intros I. rewrite Forall_forall in R. specialize (R _ I). simpl in R.
      split; [apply R|lia].
    + intros [-> Lj].
      assert (X0 : extends st0 st1 new).
      { destruct X as (T & M1 & C1 & S1 & G1 & F1). unfold extends.
        rewrite T1, T2. repeat split; assumption. }
      assert (L0 : 0 + length (DM_masses (this st))
                   <= length (DM_masses (this st0)))
        by (rewrite T1; simpl; lia).
      apply (mass_loop_no_exclusion _ _ _ _ _ _ _ _ _ L0 E1 X0 j). lia.
  - intros r c Lr. simpl. destruct X as (_ & _ & _ & _ & -> & _).
    apply cell_replay_other. intros I.
    apply list_elem_of_omap in I as ([|r' c' p] & I & Sc); [discriminate|].
    simpl in Sc. injection Sc as -> ->.
    rewrite Forall_forall in R. specialize (R _ I). simpl in R.
    destruct R as [-> _]. lia.
Qed.

End NoneExcluded.
End ScanAllOrNothing.

(** ** The scan of the test doubles *)

Lemma Stub_pipeline p_of n w :
  @pipeline (Stub.collaborators p_of) n w =
  match p_of (fst (DM w)) (snd (DM w)) with
  | Some p => Ret p (mkWorld (DM w) (S (models w)))
  | None => Throw w
  end.
Proof. reflexivity. Qed.

Lemma Stub_pipeline_defined p_of n w :
  @pipeline (Stub.collaborators p_of) n w <> Undefined.
Proof. rewrite Stub_pipeline. by destruct (p_of _ _). Qed.

Lemma Stub_pipeline_Throw p_of n w w' :
  @pipeline (Stub.collaborators p_of) n w = Throw w' ->
  @mass (Stub.collaborators p_of) (DM w')
  = @mass (Stub.collaborators p_of) (DM w).
Proof.
  rewrite Stub_pipeline. destruct (p_of _ _); [discriminate|].
  by intros [= <-].
Qed.

(** X1 at work: the scan of the specification's scenario. *)
Lemma Perform_Scan_stays_in_range_witness :
  let C := Stub.collaborators Scenario.spec_p in
  let st := Stub.start Scenario.spec_p Scenario.spec_session in
  exists st', final (@Perform_Scan C st) = Some st'.
Proof.
  intros C st.
  apply (@Perform_Scan_stays_in_range C st).
  - apply Stub_pipeline_defined.
  - split; [reflexivity|repeat constructor].
Defined.

(** X2 at work: the corner scan that ends in an exception at mass 2. *)
Lemma Perform_Scan_keeps_axes_and_shape_witness :
  let C := Stub.collaborators Scenario.failing_p in
  let st := Stub.start Scenario.failing_p Scenario.corner_session in
  @Perform_Scan C st = Throw Cases.corner_failed /\
  DM_masses (this Cases.corner_failed) = [1.0; 2.0; 3.0; 4.0]%float /\
  couplings (this Cases.corner_failed) = [1.0; 2.0]%float /\
  grid_shape (this Cases.corner_failed).
Proof.
  intros C st.
  assert (E : @Perform_Scan C st = Throw Cases.corner_failed)
    by (vm_compute; reflexivity).
  assert (F : final (@Perform_Scan C st) = Some Cases.corner_failed)
    by (by rewrite E).
  assert (G : grid_shape (this st))
    by (split; [reflexivity|repeat constructor]).
  destruct (@Perform_Scan_keeps_axes_and_shape C st Cases.corner_failed G F)
    as (M & Cc & _ & G').
  split; [exact E|]. split; [exact M|]. split; [exact Cc|exact G'].
Defined.

(** X3 at work: that scan leaves the particle with mass 2, the mass of the
    cell whose evaluation threw, not with its original mass 5. *)
Lemma Perform_Scan_exception_leaves_cell_mass_witness :
  let C := Stub.collaborators Scenario.failing_p in
  let st := Stub.start Scenario.failing_p Scenario.corner_session in
  @Perform_Scan C st = Throw Cases.corner_failed /\
  @mass C (DM (outside Cases.corner_failed)) = 2.0%float /\
  exists i j m rest,
    i < 2 /\ j < 4 /\
    trace Cases.corner_failed = Progress i j :: rest /\
    DM_masses (this st) !! (4 - 1 - j) = Some m /\
    @mass C (DM (outside Cases.corner_failed)) = m.
Proof.
  intros C st.
  assert (E : @Perform_Scan C st = Throw Cases.corner_failed)
    by (vm_compute; reflexivity).
  split; [exact E|]. split; [reflexivity|].
  assert (G : grid_shape (this st))
    by (split; [reflexivity|repeat constructor]).
  exact (@Perform_Scan_exception_leaves_cell_mass C st Cases.corner_failed
           G (fun _ _ => eq_refl) (Stub_pipeline_Throw Scenario.failing_p) E).
Defined.

(** X4 at work: a grid of one column under a mass axis of two entries. *)
Lemma Perform_Scan_needs_full_rows_witness :
  let C := Stub.collaborators Scenario.dull_p in
  let st := Stub.start Scenario.dull_p Cases.narrow_session in
  @Perform_Scan C st = Undefined.
Proof.
  intros C st.
  apply (@Perform_Scan_needs_full_rows C st).
  - vm_compute. lia.
  - vm_compute. lia.
  - intros row Er. vm_compute in Er. injection Er as <-. vm_compute. lia.
  - intros n w. eexists _, _. reflexivity.
Defined.

(** X5 at work: with every p-value 0.05 all eight cells of the corner grid
    are stored. *)
Lemma Perform_Scan_all_excluded_fills_grid_witness :
  let C := Stub.collaborators Cases.keen_p in
  let st := Stub.start Cases.keen_p Scenario.corner_session in
  exists st' new,
    @Perform_Scan C st = Ret tt st' /\
    trace st' = new ++ trace st /\
    forall r c, r < 2 -> c < 4 ->
      exists p, Stored r c p ∈ new /\ Double.lt p 0.1 = true /\
                cell (p_value_grid (this st')) r c = Some (clamp p).
Proof.
  intros C st.
  apply (@Perform_Scan_all_excluded_fills_grid C).
  - intros n w. eexists _, _. split; reflexivity.
  - split; [reflexivity|repeat constructor].
Defined.

(** X6 at work: with every p-value 0.9 only the four cells of the first
    row of the corner grid are evaluated. *)
Lemma Perform_Scan_none_excluded_scans_first_row_witness :
  let C := Stub.collaborators Scenario.dull_p in
  let st := Stub.start Scenario.dull_p Scenario.corner_session in
  exists st' new,
    @Perform_Scan C st = Ret tt st' /\
    trace st' = new ++ trace st /\
    (forall i j, Progress i j ∈ new <-> i = 0 /\ j < 4) /\
    (forall r c, r < 1 ->
       cell (p_value_grid (this st')) r c = cell (p_value_grid (this st)) r c).
Proof.
  intros C st.
  apply (@Perform_Scan_none_excluded_scans_first_row C).
  - intros n w. eexists _, _. split; reflexivity.
  - split; [reflexivity|repeat constructor].
  - vm_compute. lia.
Defined.

(** * Further properties of the session *)

(** X7. Storing a p-value does not move it across the significance
    threshold: the stored value is below 0.1 exactly when the p-value is.
    A stored value below the floor 1e-100 is 0.0, and storing a stored
    value again changes nothing. *)
Theorem clamp_keeps_exclusion p :
  Double.lt (clamp p) 0.1 = Double.lt p 0.1 /\
  (Double.lt (clamp p) 1.0e-100 = true -> clamp p = 0.0%float) /\
  clamp (clamp p) = clamp p.
Proof.
  unfold clamp. destruct (Double.lt p 1.0e-100) eqn:E.
  - split; [|split; [done|reflexivity]].
    symmetry. apply (DoubleFacts.lt_trans p 1.0e-100 0.1); [done|reflexivity].
  - split; [done|]. split; [congruence|]. by rewrite E.
Qed.

Lemma std_sort_ascending v : strictly_ascending v -> std_sort v = v.
Proof.
  induction 1 as [|x v S IH F]; simpl; [done|]. rewrite IH.
  destruct F as [|y v' Hy F']; simpl; [done|]. by rewrite Hy.
Qed.

(** X8. Axes that are given strictly ascending are taken as they are: the
    constructor's sort changes nothing, so every entry keeps its index. *)
Theorem new_Parameter_Scan_keeps_ascending_axes masses coupl samplesize :
  strictly_ascending masses -> strictly_ascending coupl ->
  DM_masses (new_Parameter_Scan masses coupl samplesize) = masses /\
  couplings (new_Parameter_Scan masses coupl samplesize) = coupl.
Proof.
  intros Sm Sc. simpl. by rewrite !std_sort_ascending.
Qed.

(** X8 at work. *)
Lemma new_Parameter_Scan_keeps_ascending_axes_witness :
  DM_masses (new_Parameter_Scan [1.0; 10.0; 100.0]%float
                                [1.0e-40; 1.0e-38]%float 5)
  = [1.0; 10.0; 100.0]%float /\
  couplings (new_Parameter_Scan [1.0; 10.0; 100.0]%float
                                [1.0e-40; 1.0e-38]%float 5)
  = [1.0e-40; 1.0e-38]%float.
Proof.
  apply new_Parameter_Scan_keeps_ascending_axes; repeat constructor.
Defined.

(** * Further properties of the limit curve *)

Section LimitEdges.
Context `{Collaborators}.

(** X9. The degenerate sessions.  Without masses the limit curve is empty
    and no root is searched.  With masses but an empty grid the call reads
    the last row of a grid that has none, so its behaviour is undefined;
    this is the case of every session the constructor builds with masses
    and no couplings. *)
Theorem Limit_Curve_degenerate_axes ps CL :
  (DM_masses ps = [] -> Limit_Curve ps CL tt = Ret [] tt) /\
  (DM_masses ps <> [] -> p_value_grid ps = [] ->
   Limit_Curve ps CL tt = Undefined) /\
  (forall masses samplesize,
     masses <> [] ->
     Limit_Curve (new_Parameter_Scan masses [] samplesize) CL tt = Undefined).
Proof.
  assert (U : forall ps', DM_masses ps' <> [] -> p_value_grid ps' = [] ->
                          Limit_Curve ps' CL tt = Undefined).
  { intros ps' Nm Eg. unfold Limit_Curve.
    destruct (DM_masses ps') as [|m ms]; [done|]. simpl.
    unfold column_check, back. rewrite Eg. reflexivity. }
  split; [|split].
  - intros E. unfold Limit_Curve. by rewrite E.
  - apply U.
  - intros masses samplesize Nm. apply U; [|reflexivity]. simpl.
    intros E. apply Nm. apply Permutation_nil_r.
    rewrite <- E. symmetry. apply std_sort_Permutation.
Qed.

Lemma limit_loop_first_failure ps CL i n : forall i0 acc,
  grid_shape ps -> 0 < length (couplings ps) ->
  i0 + n <= length (DM_masses ps) ->
  i0 <= i < i0 + n ->
  extreme_row_below ps CL i = true ->
  (forall i', i0 <= i' < i -> extreme_row_below ps CL i' = true ->
              exists root, column_root ps CL i' = Ret root tt) ->
  (column_root ps CL i = Throw tt ->
   limit_loop n i0 ps CL acc tt = Throw tt) /\
  (column_root ps CL i = Undefined ->
   limit_loop n i0 ps CL acc tt = Undefined).
Proof.
  induction n as [|n IH]; intros i0 acc G Lc Ln Li B Before; [lia|].
  assert (L0 : i0 < length (DM_masses ps)) by lia.
  simpl limit_loop.
  rewrite (bind_Ret _ _ _ _ _ (column_check_words ps CL i0 G Lc L0)).
  destruct (decide (i0 = i)) as [->|Ni].
  - rewrite B. split; intros E.
    + apply bind_Throw. rewrite column_limit_words by done. by rewrite E.
    + apply bind_Undefined. rewrite column_limit_words by done. by rewrite E.
  - destruct (extreme_row_below ps CL i0) eqn:B0.
    + destruct (Before i0) as [root Er]; [lia|done|].
      destruct (lookup_lt_is_Some_2 (DM_masses ps) i0 L0) as [m Em].
      assert (E0 : column_limit ps CL i0 tt = Ret [m; root] tt).
      { rewrite column_limit_words by done. by rewrite Er, Em. }
      rewrite (bind_Ret _ _ _ _ _ E0).
      apply IH; try done; try lia. intros i' Li'. apply Before. lia.
    + apply IH; try done; try lia. intros i' Li'. apply Before. lia.
Qed.

(** X10. The curve is all or nothing.  Let the grid have the session's
    shape, with at least one coupling, and let the root search fail for a
    mass column that enters the curve, while it returned for every such
    column before it.  Then the call ends as that search did: with its
    exception, or with undefined behaviour; the entries already computed
    are lost. *)
Theorem Limit_Curve_fails_with_first_root ps CL i :
  grid_shape ps -> 0 < length (couplings ps) ->
  i ∈ limit_columns ps CL ->
  (forall i', i' < i -> i' ∈ limit_columns ps CL ->
              exists root, column_root ps CL i' = Ret root tt) ->
  (column_root ps CL i = Throw tt -> Limit_Curve ps CL tt = Throw tt) /\
  (column_root ps CL i = Undefined -> Limit_Curve ps CL tt = Undefined).
Proof.
  intros G Lc I Before. unfold limit_columns in *.
  apply list_elem_of_In, filter_In in I as [I B]. apply in_seq in I.
  unfold Limit_Curve. apply (limit_loop_first_failure ps CL i); try done.
  intros i' Li' B'. apply Before; [lia|].
  apply list_elem_of_In, filter_In. split; [|done]. apply in_seq. lia.
Qed.

End LimitEdges.

(** X10 at work: in the scenario of the specification, scanned, the first
    mass column enters the curve at 90 percent; with a root finder that
    gives up, so does the whole call. *)
Lemma Limit_Curve_fails_with_first_root_witness :
  @Limit_Curve Cases.rootless Scenario.spec_session_scanned 0.9 tt = Throw tt.
Proof.
  apply (@Limit_Curve_fails_with_first_root Cases.rootless
           Scenario.spec_session_scanned 0.9 0).
  - split; [reflexivity|]. repeat constructor.
  - vm_compute. lia.
  - vm_compute. left.
  - intros i' L. lia.
  - reflexivity.
Defined.

(** * Further properties of the tables on disk *)

(** ** The set of masses *)

Lemma set_insert_elem x s y : y ∈ set_insert x s -> y = x \/ y ∈ s.
Proof.
  induction s as [|z s IH]; simpl.
  - intros I. elem_cases I. by left.
  - destruct (Double.lt x z).
    + intros I. apply elem_of_cons in I as [->|I]; [by left|by right].
    + destruct (Double.lt z x); [|by right].
      intros I. apply elem_of_cons in I as [->|I].
      * right. left.
      * destruct (IH I) as [->|I']; [by left|]. right. by right.
Qed.

Lemma set_insert_keeps x s y : y ∈ s -> y ∈ set_insert x s.
Proof.
  induction s as [|z s IH]; simpl; intros I; [by apply elem_of_nil in I|].
  destruct (Double.lt x z); [by right|].
  destruct (Double.lt z x); [|done].
  apply elem_of_cons in I as [->|I]; [left|right; auto].
Qed.

Lemma set_insert_represents x s :
  exists y, y ∈ set_insert x s /\
            Double.lt x y = false /\ Double.lt y x = false.
Proof.
  induction s as [|z s IH]; simpl.
  - exists x. split; [left|]. by rewrite DoubleFacts.lt_irrefl.
  - destruct (Double.lt x z) eqn:E1.
    + exists x. split; [left|]. by rewrite DoubleFacts.lt_irrefl.
    + destruct (Double.lt z x) eqn:E2.
      * destruct IH as (y & I & L). exists y. split; [by right|done].
      * exists z. split; [left|done].
Qed.

Lemma set_insert_ascending x s :
  strictly_ascending s -> strictly_ascending (set_insert x s).
Proof.
  unfold strictly_ascending.
  induction 1 as [|z s S IH F]; simpl.
  - repeat constructor.
  - destruct (Double.lt x z) eqn:E1.
    + constructor; [by constructor|]. constructor; [done|].
      eapply Forall_impl; [exact F|]. simpl. intros y Hy.
      by apply (DoubleFacts.lt_trans x z y).
    + destruct (Double.lt z x) eqn:E2; [|by constructor].
      constructor; [done|]. apply Forall_forall. intros y I.
      destruct (set_insert_elem _ _ _ I) as [->|I']; [done|].
      by apply (proj1 (Forall_forall _ _) F).
Qed.

Lemma std_set_fold v : forall s,
  strictly_ascending s ->
  let s' := fold_left (fun s x => set_insert x s) v s in
  strictly_ascending s' /\
  (forall y, y ∈ s' -> y ∈ s \/ y ∈ v) /\
  (forall y, y ∈ s -> y ∈ s') /\
  (forall x, x ∈ v -> exists y, y ∈ s' /\ Double.lt x y = false /\
                                Double.lt y x = false).
Proof.
  induction v as [|x v IH]; intros s Asc; simpl.
  - split; [done|]. split; [by left|]. split; [done|].
    intros x I. by apply elem_of_nil in I.
  - destruct (IH (set_insert x s) (set_insert_ascending x s Asc))
      as (A1 & A2 & A3 & A4).
    split; [done|]. split; [|split].
    + intros y I. destruct (A2 y I) as [I'|I']; [|right; by right].
      destruct (set_insert_elem _ _ _ I') as [->|I'']; [right; left|by left].
    + intros y I. apply A3. by apply set_insert_keeps.
    + intros x' I. apply elem_of_cons in I as [->|I]; [|by apply A4].
      destruct (set_insert_represents x s) as (y & Iy & L).
      exists y. split; [by apply A3|done].
Qed.

Lemma std_set_ascending v :
  strictly_ascending (std_set v) /\
  (forall y, y ∈ std_set v -> y ∈ v) /\
  (forall x, x ∈ v -> exists y, y ∈ std_set v /\ Double.lt x y = false /\
                                Double.lt y x = false).
Proof.
  destruct (std_set_fold v []) as (A1 & A2 & _ & A4); [constructor|].
  split; [done|]. split; [|done].
  intros y I. destruct (A2 y I) as [I'|I']; [by apply elem_of_nil in I'|done].
Qed.

(** ** The loops of the import on any table *)

Section ImportLoops.
Context {St : Type}.

Lemma bind_Ret_inv {A B} (m : M St A) (k : A -> M St B) s b s2 :
  (m ≫= k) s = Ret b s2 ->
  exists a s1, m s = Ret a s1 /\ k a s1 = Ret b s2.
Proof.
  unfold_M. destruct (m s) as [a s1|s1|]; [eauto|discriminate..].
Qed.

Lemma bind_Throw_inv {A B} (m : M St A) (k : A -> M St B) s s2 :
  (m ≫= k) s = Throw s2 ->
  m s = Throw s2 \/ exists a s1, m s = Ret a s1 /\ k a s1 = Throw s2.
Proof.
  unfold_M. destruct (m s) as [a s1|s1|]; intros E.
  - right. by exists a, s1.
  - injection E as ->. by left.
  - discriminate E.
Qed.

Lemma at_Ret_inv {A} (v : list A) i (s s' : St) x :
  at_ v i s = Ret x s' -> v !! i = Some x /\ s' = s.
Proof.
  unfold at_. destruct (v !! i); unfold_M; [|discriminate].
  by intros [= -> ->].
Qed.

Lemma assign_cell_Ret_inv g r c v (s s' : St) g' :
  assign_cell g r c v s = Ret g' s' ->
  s' = s /\ g' = write_cell g r c v /\ is_Some (cell g r c).
Proof.
  unfold assign_cell, write_cell, cell.
  destruct (g !! r) as [row|]; unfold_M; [|discriminate].
  destruct (decide (c < length row)) as [L|L]; [|discriminate].
  intros [= <- <-]. split; [done|]. split; [done|]. simpl.
  by apply lookup_lt_is_Some_2.
Qed.

Lemma assign_cell_defined g r c v (s : St) :
  is_Some (cell g r c) -> assign_cell g r c v s = Ret (write_cell g r c v) s.
Proof.
  intros [x (row & Er & Ec)%cell_Some]. unfold assign_cell, write_cell.
  rewrite Er. apply lookup_lt_Some in Ec.
  destruct (decide (c < length row)); [done|lia].
Qed.

Lemma assign_cell_not_Throw g r c v (s s' : St) :
  assign_cell g r c v s <> Throw s'.
Proof.
  unfold assign_cell. destruct (g !! r) as [row|]; unfold_M; [|discriminate].
  destruct (decide (c < length row)); discriminate.
Qed.

(** *** Lines 177-178 *)

Lemma import_masses_Ret_inv n : forall i T acc (s s' : St) l,
  import_masses n i T acc s = Ret l s' ->
  s' = s /\
  exists col, l = acc ++ col /\
    Forall2 (fun row m => row !! 0 = Some m) (take n (drop i T)) col.
Proof.
  induction n as [|n IH]; intros i T acc s s' l E; simpl in E.
  - unfold_M. injection E as <- <-. split; [done|].
    exists []. rewrite app_nil_r. split; [done|]. rewrite take_0. constructor.
  - apply bind_Ret_inv in E as (row & s1 & E1 & E).
    apply at_Ret_inv in E1 as [Er ->].
    apply bind_Ret_inv in E as (m & s1 & E1 & E).
    apply at_Ret_inv in E1 as [Em ->].
    apply IH in E as (-> & col & -> & F).
    split; [done|].
    exists (m :: col). rewrite <- app_assoc. split; [done|].
    rewrite (drop_S _ _ _ Er). simpl. by constructor.
Qed.

Lemma import_masses_defined n : forall i T acc (s : St),
  i + n <= length T -> Forall (fun row => 0 < length row) T ->
  exists l, import_masses n i T acc s = Ret l s.
Proof.
  induction n as [|n IH]; intros i T acc s L F; simpl; [by eexists|].
  destruct (lookup_lt_is_Some_2 T i) as [row Er]; [lia|].
  pose proof (Forall_lookup_1 _ _ _ _ F Er) as Lr. simpl in Lr.
  destruct (lookup_lt_is_Some_2 row 0 Lr) as [m Em].
  rewrite (bind_Ret _ _ _ _ _ (at_lookup _ _ s _ Er)).
  rewrite (bind_Ret _ _ _ _ _ (at_lookup _ _ s _ Em)).
  apply IH; [lia|done].
Qed.

Lemma import_masses_not_Throw n : forall i T acc (s s' : St),
  import_masses n i T acc s <> Throw s'.
Proof.
  induction n as [|n IH]; intros i T acc s s' E; simpl in E; [done|].
  apply bind_Throw_inv in E as [E|(row & s1 & _ & E)];
    [by apply at_not_Throw in E|].
  apply bind_Throw_inv in E as [E|(m & s2 & _ & E)];
    [by apply at_not_Throw in E|].
  by apply IH in E.
Qed.

(** *** Lines 186-187 *)

Lemma import_couplings_Ret_inv n : forall i T cs (s s' : St) cs',
  import_couplings n i T cs s = Ret cs' s' ->
  s' = s /\ length cs' = length cs /\
  (n = 0 \/ i + n <= length cs) /\
  (forall k, i <= k < i + n ->
     exists row c, T !! k = Some row /\ row !! 1 = Some c /\
                   cs' !! k = Some c) /\
  (forall k, ~ i <= k < i + n -> cs' !! k = cs !! k).
Proof.
  induction n as [|n IH]; intros i T cs s s' cs' E; simpl in E.
  - unfold_M. injection E as <- <-. split; [done|]. split; [done|].
    split; [by left|]. split; [intros k; lia|done].
  - apply bind_Ret_inv in E as (row & s1 & E1 & E).
    apply at_Ret_inv in E1 as [Er ->].
    apply bind_Ret_inv in E as (c & s1 & E1 & E).
    apply at_Ret_inv in E1 as [Ec ->].
    destruct (decide (i < length cs)) as [Li|Li]; [|discriminate].
    apply IH in E as (-> & Len & Ln & In & Out).
    rewrite length_insert in Len, Ln.
    split; [done|]. split; [done|]. split; [right; lia|]. split.
    + intros k Lk. destruct (decide (k = i)) as [->|Nk].
      * exists row, c. split; [done|]. split; [done|].
        rewrite Out by lia. by apply list_lookup_insert_eq.
      * apply In. lia.
    + intros k Lk. rewrite Out by lia. apply list_lookup_insert_ne. lia.
Qed.

Lemma import_couplings_defined n : forall i T cs (s : St),
  i + n <= length T -> i + n <= length cs ->
  Forall (fun row => 1 < length row) T ->
  exists cs', import_couplings n i T cs s = Ret cs' s.
Proof.
  induction n as [|n IH]; intros i T cs s L Lcs F; simpl; [by eexists|].
  destruct (lookup_lt_is_Some_2 T i) as [row Er]; [lia|].
  pose proof (Forall_lookup_1 _ _ _ _ F Er) as Lr. simpl in Lr.
  destruct (lookup_lt_is_Some_2 row 1 Lr) as [c Ec].
  rewrite (bind_Ret _ _ _ _ _ (at_lookup _ _ s _ Er)).
  rewrite (bind_Ret _ _ _ _ _ (at_lookup _ _ s _ Ec)).
  destruct (decide (i < length cs)); [|lia].
  apply IH; [lia| |done]. rewrite length_insert. lia.
Qed.

Lemma import_couplings_not_Throw n : forall i T cs (s s' : St),
  import_couplings n i T cs s <> Throw s'.
Proof.
  induction n as [|n IH]; intros i T cs s s' E; simpl in E; [done|].
  apply bind_Throw_inv in E as [E|(row & s1 & _ & E)];
    [by apply at_not_Throw in E|].
  apply bind_Throw_inv in E as [E|(m & s2 & _ & E)];
    [by apply at_not_Throw in E|].
  destruct (decide (i < length cs)); [|discriminate].
  by apply IH in E.
Qed.

(** *** Lines 191-193 *)

Lemma import_column_Ret_inv n : forall j i T k G (s s' : St) k' G',
  import_column n j i T k G s = Ret (k', G') s' ->
  s' = s /\ k' = k + n /\ length G' = length G /\
  (forall nm, Forall (fun row => length row = nm) G ->
              Forall (fun row => length row = nm) G') /\
  (forall r, j <= r < j + n ->
     exists row p, T !! (k + (r - j)) = Some row /\ row !! 2 = Some p /\
                   cell G' r i = Some p) /\
  (forall r c, ~ (c = i /\ j <= r < j + n) -> cell G' r c = cell G r c).
Proof.
  induction n as [|n IH]; intros j i T k G s s' k' G' E; simpl in E.
  - unfold_M. injection E as <- <- <-. split; [done|]. split; [lia|].
    split; [done|]. split; [done|]. split; [intros r; lia|done].
  - apply bind_Ret_inv in E as (row & s1 & E1 & E).
    apply at_Ret_inv in E1 as [Er ->].
    apply bind_Ret_inv in E as (p & s1 & E1 & E).
    apply at_Ret_inv in E1 as [Ep ->].
    apply bind_Ret_inv in E as (G1 & s1 & E1 & E).
    apply assign_cell_Ret_inv in E1 as (-> & -> & Dom).
    apply IH in E as (-> & -> & Len & Rows & In & Out).
    rewrite write_cell_length in Len.
    split; [done|]. split; [lia|]. split; [done|]. split; [|split].
    + intros nm F. apply Rows. by apply write_cell_rows.
    + intros r Lr. destruct (decide (r = j)) as [->|Nr].
      * exists row, p. replace (k + (j - j)) with k by lia.
        split; [done|]. split; [done|].
        rewrite Out by lia. by apply cell_write_cell_eq.
      * destruct (In r) as (row' & p' & Er' & Ep' & Ec); [lia|].
        exists row', p'.
        replace (k + (r - j)) with (S k + (r - S j)) by lia. done.
    + intros r c N. rewrite Out by lia.
      apply cell_write_cell_ne. intros [= -> ->]. apply N. lia.
Qed.

Lemma import_column_defined n : forall j i T k G (s : St),
  k + n <= length T -> Forall (fun row => 2 < length row) T ->
  (forall r, j <= r < j + n -> is_Some (cell G r i)) ->
  exists G', import_column n j i T k G s = Ret (k + n, G') s /\
             forall r c, is_Some (cell G' r c) <-> is_Some (cell G r c).
Proof.
  induction n as [|n IH]; intros j i T k G s L F Dom; simpl.
  - exists G. rewrite Nat.add_0_r. by split.
  - destruct (lookup_lt_is_Some_2 T k) as [row Er]; [lia|].
    pose proof (Forall_lookup_1 _ _ _ _ F Er) as Lr. simpl in Lr.
    destruct (lookup_lt_is_Some_2 row 2 Lr) as [p Ep].
    rewrite (bind_Ret _ _ _ _ _ (at_lookup _ _ s _ Er)).
    rewrite (bind_Ret _ _ _ _ _ (at_lookup _ _ s _ Ep)).
    rewrite (bind_Ret _ _ _ _ _ (assign_cell_defined G j i p s
                                   (Dom j ltac:(lia)))).
    destruct (IH (S j) i T (S k) (write_cell G j i p) s) as (G' & E & D);
      [lia|done| |].
    + intros r Lr'. apply cell_write_cell_dom. apply Dom. lia.
    + exists G'. replace (k + S n) with (S k + n) by lia. split; [done|].
      intros r c. rewrite D. apply cell_write_cell_dom.
Qed.

Lemma import_column_not_Throw n : forall j i T k G (s s' : St),
  import_column n j i T k G s <> Throw s'.
Proof.
  induction n as [|n IH]; intros j i T k G s s' E; simpl in E; [done|].
  apply bind_Throw_inv in E as [E|(row & s1 & _ & E)];
    [by apply at_not_Throw in E|].
  apply bind_Throw_inv in E as [E|(p & s2 & _ & E)];
    [by apply at_not_Throw in E|].
  apply bind_Throw_inv in E as [E|(G1 & s3 & _ & E)];
    [by apply assign_cell_not_Throw in E|].
  by apply IH in E.
Qed.

Lemma import_grid_Ret_inv n : forall i nc T k G (s s' : St) G',
  import_grid n i nc T k G s = Ret G' s' ->
  s' = s /\ length G' = length G /\
  (forall nm, Forall (fun row => length row = nm) G ->
              Forall (fun row => length row = nm) G') /\
  (forall r c, i <= c < i + n -> r < nc ->
     exists row p, T !! (k + (c - i) * nc + r) = Some row /\
                   row !! 2 = Some p /\ cell G' r c = Some p) /\
  (forall r c, ~ (i <= c < i + n /\ r < nc) -> cell G' r c = cell G r c).
Proof.
  induction n as [|n IH]; intros i nc T k G s s' G' E; simpl in E.
  - unfold_M. injection E as <- <-. split; [done|]. split; [done|].
    split; [done|]. split; [intros r c; lia|done].
  - apply bind_Ret_inv in E as ([k1 G1] & s1 & E1 & E).
    apply import_column_Ret_inv in E1 as (-> & -> & Len1 & Rows1 & In1 & Out1).
    apply IH in E as (-> & Len & Rows & In & Out).
    split; [done|]. split; [congruence|]. split; [|split].
    + intros nm F. apply Rows, Rows1, F.
    + intros r c Lc Lr. destruct (decide (c = i)) as [->|Nc].
      * destruct (In1 r) as (row & p & Er & Ep & Ec); [lia|].
        exists row, p.
        replace (k + (i - i) * nc + r) with (k + (r - 0)) by lia.
        split; [done|]. split; [done|]. rewrite Out by lia. done.
      * destruct (In r c) as (row & p & Er & Ep & Ec); [lia|done|].
        exists row, p.
        replace (k + (c - i) * nc + r) with (k + nc + (c - S i) * nc + r)
          by (replace (c - i) with (S (c - S i)) by lia; simpl; lia).
        done.
    + intros r c N. rewrite Out by lia. apply Out1. lia.
Qed.

Lemma import_grid_defined n : forall i nc T k G (s : St),
  k + n * nc <= length T -> Forall (fun row => 2 < length row) T ->
  (forall r c, r < nc -> i <= c < i + n -> is_Some (cell G r c)) ->
  exists G', import_grid n i nc T k G s = Ret G' s.
Proof.
  induction n as [|n IH]; intros i nc T k G s L F Dom; simpl; [by eexists|].
  destruct (import_column_defined nc 0 i T k G s) as (G1 & E1 & D1);
    [lia|done| |].
  { intros r Lr. apply Dom; lia. }
  rewrite (bind_Ret _ _ _ _ _ E1).
  apply IH; [lia|done|].
  intros r c Lr Lc. apply D1. apply Dom; lia.
Qed.

Lemma import_grid_not_Throw n : forall i nc T k G (s s' : St),
  import_grid n i nc T k G s <> Throw s'.
Proof.
  induction n as [|n IH]; intros i nc T k G s s' E; simpl in E; [done|].
  apply bind_Throw_inv in E as [E|([k1 G1] & s1 & _ & E)];
    [by apply import_column_not_Throw in E|].
  by apply IH in E.
Qed.

End ImportLoops.

Lemma first_column_members (T : list (list float)) col :
  Forall2 (fun row m => row !! 0 = Some m) T col ->
  (forall m, m ∈ col -> exists row, row ∈ T /\ row !! 0 = Some m) /\
  (forall row, row ∈ T -> exists m, m ∈ col /\ row !! 0 = Some m).
Proof.
  induction 1 as [|row m T col E F [IH1 IH2]].
  - split; intros x I; by apply elem_of_nil in I.
  - split.
    + intros x I. apply elem_of_cons in I as [->|I].
      * exists row. split; [left|done].
      * destruct (IH1 x I) as (row' & I' & E'). exists row'.
        split; [by right|done].
    + intros x I. apply elem_of_cons in I as [->|I].
      * exists m. split; [left|done].
      * destruct (IH2 x I) as (m' & I' & E'). exists m'.
        split; [by right|done].
Qed.

(** ** The import on any table *)

Section ImportProperties.
Context `{Table_IO}.

(** What a returning import did, step by step. *)
Lemma Import_P_Values_Ret_inv ps ID d table d1 ps' d' :
  Import_Table (p_values_path ID) [GeV; (cm * cm)%float; 1.0%float] d
    = Ret table d1 ->
  Import_P_Values ps ID d = Ret ps' d' ->
  d' = d1 /\ 0 < length (DM_masses ps) /\
  exists all_masses couplings' grid,
    Forall2 (fun row m => row !! 0 = Some m) table all_masses /\
    import_couplings (length table / length (DM_masses ps)) 0 table
      (resize (length table / length (DM_masses ps)) 0.0%float (couplings ps))
      d1 = Ret couplings' d1 /\
    import_grid (length (DM_masses ps)) 0
      (length table / length (DM_masses ps)) table 0
      (replicate (length table / length (DM_masses ps))
                 (replicate (length (DM_masses ps)) 0.0%float)) d1
      = Ret grid d1 /\
    ps' = {| DM_masses := std_set all_masses; couplings := couplings';
             sample_size := sample_size ps; p_value_grid := grid |}.
Proof.
  intros ET E. unfold Import_P_Values in E.
  rewrite (bind_Ret _ _ _ _ _ ET) in E.
  apply bind_Ret_inv in E as (all_masses & s1 & E1 & E).
  apply import_masses_Ret_inv in E1 as (-> & col & -> & F).
  simpl in F. rewrite drop_0, firstn_all in F. simpl in E.
  destruct (decide (length (DM_masses ps) = 0)) as [?|Nm]; [discriminate|].
  apply bind_Ret_inv in E as (couplings' & s1 & E1 & E).
  pose proof (import_couplings_Ret_inv _ _ _ _ _ _ _ E1) as (-> & _).
  apply bind_Ret_inv in E as (grid & s1 & E2 & E).
  pose proof (import_grid_Ret_inv _ _ _ _ _ _ _ _ _ E2) as (-> & _).
  unfold_M. injection E as <- <-.
  split; [done|]. split; [lia|]. by exists col, couplings', grid.
Qed.

(** X11. What an import takes from the table it reads.  When the table
    reader returns a table and the import returns, the number of couplings
    is the number of table rows divided by the number of masses the session
    had BEFORE the call (which is not zero); the new coupling axis and the
    new grid have that many entries and rows, every row as long as the old
    mass axis.  Coupling [j] is the second entry of table row [j], so the
    couplings are read off the rows of the first mass; the grid value of
    coupling [j] and mass [i] is the third entry of table row
    [i * number_of_couplings + j].  The sample size is kept. *)
Theorem Import_P_Values_reads_table ps ID d table d1 ps' d' :
  Import_Table (p_values_path ID) [GeV; (cm * cm)%float; 1.0%float] d
    = Ret table d1 ->
  Import_P_Values ps ID d = Ret ps' d' ->
  d' = d1 /\ 0 < length (DM_masses ps) /\
  sample_size ps' = sample_size ps /\
  length (couplings ps') = length table / length (DM_masses ps) /\
  length (p_value_grid ps') = length table / length (DM_masses ps) /\
  Forall (fun row => length row = length (DM_masses ps)) (p_value_grid ps') /\
  (forall j, j < length table / length (DM_masses ps) ->
     exists row c, table !! j = Some row /\ row !! 1 = Some c /\
                   couplings ps' !! j = Some c) /\
  (forall i j, i < length (DM_masses ps) ->
               j < length table / length (DM_masses ps) ->
     exists row p,
       table !! (i * (length table / length (DM_masses ps)) + j) = Some row /\
       row !! 2 = Some p /\
       cell (p_value_grid ps') j i = Some p).
Proof.
  intros ET E.
  destruct (Import_P_Values_Ret_inv _ _ _ _ _ _ _ ET E)
    as (-> & Lm & all_masses & couplings' & grid & F & Ec & Eg & ->).
  apply import_couplings_Ret_inv in Ec as (_ & Lc & _ & Inc & _).
  apply import_grid_Ret_inv in Eg as (_ & Lg & Rows & Ing & _).
  rewrite length_resize in Lc. rewrite length_replicate in Lg. simpl.
  split; [done|]. split; [done|]. split; [done|]. split; [done|].
  split; [done|]. split; [|split].
  - apply Rows. apply Forall_replicate. apply length_replicate.
  - intros j Lj. apply Inc. lia.
  - intros i j Li Lj.
    destruct (Ing j i) as (row & p & Er & Ep & Ecell); [lia|done|].
    exists row, p. rewrite Nat.sub_0_r in Er. done.
Qed.

(** X12. The mass axis after an import.  When the table reader returns a
    table and the import returns, the new mass axis is strictly ascending;
    each of its entries is the first entry of some table row, and the first
    entry of every table row is equivalent to one of them (neither is below
    the other).  Its length is the number of distinct masses of the file,
    whereas the grid rows keep the length of the old axis: the session
    after the import has a grid of its own shape exactly when there are no
    couplings or the file has as many distinct masses as the session had
    masses before. *)
Theorem Import_P_Values_mass_axis ps ID d table d1 ps' d' :
  Import_Table (p_values_path ID) [GeV; (cm * cm)%float; 1.0%float] d
    = Ret table d1 ->
  Import_P_Values ps ID d = Ret ps' d' ->
  strictly_ascending (DM_masses ps') /\
  (forall m, m ∈ DM_masses ps' ->
     exists row, row ∈ table /\ row !! 0 = Some m) /\
  (forall row, row ∈ table ->
     exists m y, row !! 0 = Some m /\ y ∈ DM_masses ps' /\
                 Double.lt m y = false /\ Double.lt y m = false) /\
  (grid_shape ps' <->
   length table / length (DM_masses ps) = 0 \/
   length (DM_masses ps') = length (DM_masses ps)).
Proof.
  intros ET E.
  destruct (Import_P_Values_Ret_inv _ _ _ _ _ _ _ ET E)
    as (-> & Lm & all_masses & couplings' & grid & F & Ec & Eg & ->).
  apply import_couplings_Ret_inv in Ec as (_ & Lc & _).
  apply import_grid_Ret_inv in Eg as (_ & Lg & Rows & _).
  rewrite length_resize in Lc. rewrite length_replicate in Lg.
  assert (R : Forall (fun row => length row = length (DM_masses ps)) grid).
  { apply Rows. apply Forall_replicate. apply length_replicate. }
  destruct (std_set_ascending all_masses) as (A1 & A2 & A3).
  destruct (first_column_members _ _ F) as [M1 M2].
  simpl. split; [done|]. split; [|split].
  - intros m I. apply M1. by apply A2.
  - intros row I. destruct (M2 row I) as (m & Im & Em).
    destruct (A3 m Im) as (y & Iy & L1 & L2). by exists m, y.
  - unfold grid_shape. simpl. rewrite Lc, Lg. split.
    + intros [_ S]. destruct grid as [|row grid]; [by left|right].
      apply Forall_cons in S as [S _]. apply Forall_cons in R as [R _].
      congruence.
    + intros [Z|Z]; (split; [done|]).
      * rewrite Z in Lg. by destruct grid.
      * by rewrite Z.
Qed.

(** X13. The import never reads beyond the table.  When the session has
    at least one mass and every row of the table the reader returns has
    three entries or more, the import returns, however many rows the table
    has: rows beyond [number_of_masses * number_of_couplings] are left
    unread. *)
Theorem Import_P_Values_returns ps ID d table d1 :
  Import_Table (p_values_path ID) [GeV; (cm * cm)%float; 1.0%float] d
    = Ret table d1 ->
  0 < length (DM_masses ps) ->
  Forall (fun row => 3 <= length row) table ->
  exists ps', Import_P_Values ps ID d = Ret ps' d1.
Proof.
  intros ET Lm F. unfold Import_P_Values.
  rewrite (bind_Ret _ _ _ _ _ ET).
  destruct (import_masses_defined (length table) 0 table [] d1)
    as (all_masses & E1); [simpl; lia| |].
  { eapply Forall_impl; [exact F|]. simpl. intros row L. lia. }
  rewrite (bind_Ret _ _ _ _ _ E1). simpl.
  destruct (decide (length (DM_masses ps) = 0)) as [?|_]; [lia|].
  set (nm := length (DM_masses ps)) in *.
  set (nc := length table / nm).
  assert (Lt : nm * nc <= length table).
  { unfold nc. apply Nat.Div0.mul_div_le. }
  assert (Lnc : nc <= length table) by nia.
  destruct (import_couplings_defined nc 0 table
              (resize nc 0.0%float (couplings ps)) d1)
    as (couplings' & E2); [simpl; lia|rewrite length_resize; simpl; lia| |].
  { eapply Forall_impl; [exact F|]. simpl. intros row L. lia. }
  rewrite (bind_Ret _ _ _ _ _ E2).
  destruct (import_grid_defined nm 0 nc table 0
              (replicate nc (replicate nm 0.0%float)) d1)
    as (grid & E3); [simpl; lia| | |].
  { eapply Forall_impl; [exact F|]. simpl. intros row L. lia. }
  { intros r c Lr Lc. rewrite cell_replicate by lia. done. }
  rewrite (bind_Ret _ _ _ _ _ E3). by eexists.
Qed.

(** X14. How an import fails.  An exception of the table reader (a
    missing file, say) is the import's exception, and it is the only one:
    once the reader has returned a table, the import throws nothing.  On a
    session without masses the import then divides by zero, whatever the
    table holds. *)
Theorem Import_P_Values_failures ps ID d :
  (forall d1,
     Import_Table (p_values_path ID) [GeV; (cm * cm)%float; 1.0%float] d
       = Throw d1 ->
     Import_P_Values ps ID d = Throw d1) /\
  (forall table d1,
     Import_Table (p_values_path ID) [GeV; (cm * cm)%float; 1.0%float] d
       = Ret table d1 ->
     (forall d2, Import_P_Values ps ID d <> Throw d2) /\
     (DM_masses ps = [] -> Import_P_Values ps ID d = Undefined)).
Proof.
  split.
  - intros d1 ET. unfold Import_P_Values. by apply bind_Throw.
  - intros table d1 ET. unfold Import_P_Values.
    rewrite (bind_Ret _ _ _ _ _ ET). split.
    + intros d2 E.
      apply bind_Throw_inv in E as [E|(all_masses & s1 & _ & E)];
        [by apply import_masses_not_Throw in E|].
      simpl in E.
      destruct (decide (length (DM_masses ps) = 0)); [discriminate|].
      apply bind_Throw_inv in E as [E|(couplings' & s2 & _ & E)];
        [by apply import_couplings_not_Throw in E|].
      apply bind_Throw_inv in E as [E|(grid & s3 & _ & E)];
        [by apply import_grid_not_Throw in E|].
      discriminate.
    + intros Em.
      destruct (import_masses (length table) 0 table [] d1)
        as [all_masses s1|s1|] eqn:E1.
      * rewrite (bind_Ret _ _ _ _ _ E1). simpl. rewrite Em. reflexivity.
      * by apply import_masses_not_Throw in E1.
      * by apply bind_Undefined.
Qed.

End ImportProperties.

(** X11 to X13 at work: a file of four masses and one coupling, read into
    a session of two masses and one coupling.  The import returns a session
    of four masses, two couplings and two rows of two grid values. *)
Lemma Import_P_Values_reads_table_witness :
  exists ps',
    @Import_P_Values Stub.table_io Disks.slim_session "run" Disks.wide_disk
      = Ret ps' Disks.wide_disk /\
    length (couplings ps') = 2 /\
    length (p_value_grid ps') = 2.
Proof.
  eexists. split; [vm_compute; reflexivity|].
  match goal with |- length (couplings ?p) = _ /\ _ =>
    destruct (@Import_P_Values_reads_table Stub.table_io Disks.slim_session
                "run" Disks.wide_disk
                (@export_table Disks.wide_session) Disks.wide_disk
                p Disks.wide_disk)
      as (_ & _ & _ & Lc & Lg & _)
  end; [vm_compute; reflexivity..|].
  split; [exact Lc|exact Lg].
Defined.

Lemma Import_P_Values_mass_axis_witness :
  exists ps',
    @Import_P_Values Stub.table_io Disks.slim_session "run" Disks.wide_disk
      = Ret ps' Disks.wide_disk /\
    strictly_ascending (DM_masses ps') /\
    ~ grid_shape ps'.
Proof.
  eexists. split; [vm_compute; reflexivity|].
  match goal with |- strictly_ascending (DM_masses ?p) /\ _ =>
    destruct (@Import_P_Values_mass_axis Stub.table_io Disks.slim_session
                "run" Disks.wide_disk
                (@export_table Disks.wide_session) Disks.wide_disk
                p Disks.wide_disk)
      as (Asc & _ & _ & Shape)
  end; [vm_compute; reflexivity..|].
  split; [exact Asc|].
  intros G. apply Shape in G. vm_compute in G. destruct G; discriminate.
Defined.

Lemma Import_P_Values_returns_witness :
  exists ps',
    @Import_P_Values Stub.table_io Disks.slim_session "run" Disks.wide_disk
      = Ret ps' Disks.wide_disk.
Proof.
  apply (@Import_P_Values_returns Stub.table_io Disks.slim_session "run"
           Disks.wide_disk (@export_table Disks.wide_session)).
  - vm_compute. reflexivity.
  - vm_compute. lia.
  - repeat constructor.
Defined.

(** * The region a scan visits *)

Section ScanRegion.
Context `{Collaborators}.

Lemma mass_loop_prefix n : forall i ic j re last st st' new,
  final (mass_loop n i ic j re last st) = Some st' ->
  extends st st' new ->
  exists k, k <= n /\ (0 < n -> 0 < k) /\
    (forall i' j', Progress i' j' ∈ new <-> i' = i /\ j <= j' < j + k) /\
    (forall a s, mass_loop n i ic j re last st = Ret a s ->
       forall j', j <= j' < j + k ->
         exists p, Stored ic (length (DM_masses (this st)) - 1 - j') p ∈ new).
Proof.
  induction n as [|n IH]; intros i ic j re last st st' new F X.
  - simpl in F. injection F as <-.
    rewrite (extends_unique _ _ _ _ X (extends_refl st)).
    exists 0. split; [lia|]. split; [lia|]. split.
    + intros i' j'. rewrite elem_of_nil. lia.
    + intros a s _ j' L. lia.
  - destruct (mass_loop_step n i ic j re last st)
      as [E|[(st1 & E & _ & X1)|(q & st1 & st2 & _ & _ & X2 & E)]];
      set (nm := length (DM_masses (this st))) in *; rewrite E in F.
    + discriminate.
    + injection F as <-. rewrite (extends_unique _ _ _ _ X X1).
      exists 1. split; [lia|]. split; [lia|]. split.
      * intros i' j'. rewrite list_elem_of_singleton. split.
        -- intros [= -> ->]. lia.
        -- intros [-> L]. f_equal. lia.
      * intros a s Ea. congruence.
    + assert (Here : forall i' j',
                Progress i' j' ∈ [Stored ic (nm - 1 - j) q; Progress i j]
                <-> i' = i /\ j' = j).
      { intros i' j'. split.
        - intros I. elem_cases I. done.
        - intros [-> ->]. right. left. }
      destruct (decision j re last q) as [[[] re'] last'].
      * destruct (mass_loop_grows n i ic (S j) re' last' st2 st' F)
          as (new' & X').
        rewrite (extends_unique _ _ _ _ X (extends_trans _ _ _ _ _ X2 X')).
        destruct (IH _ _ _ _ _ _ _ _ F X') as (k & Lk & _ & P & S').
        assert (M2 : DM_masses (this st2) = DM_masses (this st)) by apply X2.
        exists (S k). split; [lia|]. split; [lia|]. split.
        -- intros i' j'. rewrite elem_of_app, P, Here. lia.
        -- intros a s Ea j' Lj'. rewrite E in Ea.
           destruct (decide (j' = j)) as [->|Nj].
           ++ exists q. apply elem_of_app. right. left.
           ++ destruct (S' a s Ea j') as (p & I); [lia|].
              exists p. apply elem_of_app. left.
              rewrite M2 in I. exact I.
      * simpl in F. injection F as <-.
        rewrite (extends_unique _ _ _ _ X X2).
        exists 1. split; [lia|]. split; [lia|]. split.
        -- intros i' j'. rewrite Here. lia.
        -- intros a s _ j' Lj'. exists q.
           replace j' with j by lia. left.
Qed.

Lemma scan_row_prefix i last st st' new :
  final (scan_row i last st) = Some st' ->
  extends st st' new ->
  exists k, k <= length (DM_masses (this st)) /\
    (0 < length (DM_masses (this st)) -> 0 < k) /\
    (forall i' j', Progress i' j' ∈ new <-> i' = i /\ j' < k) /\
    (forall a s, scan_row i last st = Ret a s ->
       forall j', j' < k ->
         exists p, Stored (length (couplings (this st)) - 1 - i)
                          (length (DM_masses (this st)) - 1 - j') p ∈ new).
Proof.
  intros F X.
  destruct (scan_row_step i last st) as [E|(st0 & T1 & T2 & E)].
  { rewrite E in F. discriminate. }
  rewrite E in F.
  assert (X0 : extends st0 st' new).
  { destruct X as (T & M1 & C1 & S1 & G1 & F1). unfold extends.
    rewrite T1, T2. repeat split; assumption. }
  destruct (mass_loop_prefix _ _ _ _ _ _ _ _ _ F X0) as (k & Lk & Pk & P & S').
  exists k. split; [done|]. split; [done|]. split.
  - intros i' j'. rewrite P. lia.
  - intros a s Ea j' Lj'. rewrite E in Ea.
    destruct (S' a s Ea j') as (p & I); [lia|].
    exists p. rewrite T1 in I. exact I.
Qed.

Lemma coupling_loop_prefix n : forall i last st st' new,
  i + n <= length (couplings (this st)) ->
  final (coupling_loop n i last st) = Some st' ->
  extends st st' new ->
  exists widths, length widths <= n /\
    Forall (fun k => k <= length (DM_masses (this st))) widths /\
    (0 < length (DM_masses (this st)) -> Forall (fun k => 0 < k) widths) /\
    (forall i' j', Progress i' j' ∈ new <->
       exists k, i <= i' /\ widths !! (i' - i) = Some k /\ j' < k) /\
    (forall a s, coupling_loop n i last st = Ret a s ->
       forall i' j' k, i <= i' -> widths !! (i' - i) = Some k -> j' < k ->
         exists p, Stored (length (couplings (this st)) - 1 - i')
                          (length (DM_masses (this st)) - 1 - j') p ∈ new).
Proof.
  induction n as [|n IH]; intros i last st st' new L F X.
  - simpl in F. injection F as <-.
    rewrite (extends_unique _ _ _ _ X (extends_refl st)).
    exists []. split; [simpl; lia|]. split; [constructor|].
    split; [constructor|]. split.
    + intros i' j'. rewrite elem_of_nil. split; [done|].
      intros (k & _ & E & _). discriminate.
    + intros a s _ i' j' k _ E. discriminate.
  - pose proof (coupling_loop_step n i last st) as Step.
    rewrite Step in F.
    assert (Hrow : forall st1, final (scan_row i last st) = Some st1 ->
              exists new1 k, extends st st1 new1 /\
                k <= length (DM_masses (this st)) /\
                (0 < length (DM_masses (this st)) -> 0 < k) /\
                (forall i' j', Progress i' j' ∈ new1 <-> i' = i /\ j' < k) /\
                (forall a s, scan_row i last st = Ret a s ->
                   forall j', j' < k ->
                     exists p, Stored (length (couplings (this st)) - 1 - i)
                                 (length (DM_masses (this st)) - 1 - j') p
                               ∈ new1)).
    { intros st1 F1.
      destruct (scan_row_extends i last st st1) as (new1 & X1 & _);
        [lia|done|].
      destruct (scan_row_prefix i last st st1 new1 F1 X1)
        as (k & Lk & Pk & P & S').
      by exists new1, k. }
    assert (One : forall (new1 : list event) k,
              k <= length (DM_masses (this st)) ->
              (0 < length (DM_masses (this st)) -> 0 < k) ->
              (forall i' j', Progress i' j' ∈ new1 <-> i' = i /\ j' < k) ->
              length [k] <= S n /\
              Forall (fun k => k <= length (DM_masses (this st))) [k] /\
              (0 < length (DM_masses (this st)) ->
               Forall (fun k => 0 < k) [k]) /\
              (forall i' j', Progress i' j' ∈ new1 <->
                 exists k', i <= i' /\ [k] !! (i' - i) = Some k' /\ j' < k')).
    { intros new1 k Lk Pk P. split; [simpl; lia|].
      split; [by repeat constructor|].
      split; [intros Lm; repeat constructor; auto|].
      intros i' j'. rewrite P. split.
      - intros [-> Lj]. exists k. rewrite Nat.sub_diag. by repeat split.
      - intros (k' & Li & E & Lj).
        destruct (i' - i) as [|d] eqn:D; [|by destruct d].
        injection E as <-. split; [lia|done]. }
    destruct (scan_row i last st) as [[re last1] st1|st1|] eqn:E;
      [|simpl in F|discriminate].
    + destruct (Hrow st1 eq_refl) as (new1 & k1 & X1 & Lk1 & Pk1 & P1 & S1).
      destruct re; simpl in F.
      * assert (C1 : couplings (this st1) = couplings (this st)) by apply X1.
        assert (M1 : DM_masses (this st1) = DM_masses (this st)) by apply X1.
        assert (L1 : S i + n <= length (couplings (this st1)))
          by (rewrite C1; lia).
        destruct (coupling_loop_extends n (S i) last1 st1 st' L1 F)
          as (new2 & X2 & _).
        rewrite (extends_unique _ _ _ _ X (extends_trans _ _ _ _ _ X1 X2)).
        destruct (IH _ _ _ _ _ L1 F X2) as (widths & Lw & Fw & Pw & P2 & S2).
        rewrite M1 in Fw, Pw, S2. rewrite C1 in S2.
        exists (k1 :: widths). split; [simpl; lia|].
        split; [by constructor|].
        split; [intros Lm; constructor; auto|]. split.
        -- intros i' j'. rewrite elem_of_app, P1, P2. split.
           ++ intros [(k & Li & Ek & Lj)|[-> Lj]].
              ** exists k. split; [lia|]. split; [|done].
                 replace (i' - i) with (S (i' - S i)) by lia. done.
              ** exists k1. rewrite Nat.sub_diag. by repeat split.
           ++ intros (k & Li & Ek & Lj).
              destruct (decide (i' = i)) as [->|Ni].
              ** right. rewrite Nat.sub_diag in Ek. injection Ek as <-.
                 done.
              ** left. exists k. split; [lia|]. split; [|done].
                 replace (i' - i) with (S (i' - S i)) in Ek by lia. done.
        -- intros a s Ea i' j' k Li Ek Lj. rewrite Step in Ea. simpl in Ea.
           destruct (decide (i' = i)) as [->|Ni].
           ++ rewrite Nat.sub_diag in Ek. injection Ek as <-.
              destruct (S1 _ _ eq_refl j' Lj) as (p & I).
              exists p. apply elem_of_app. by right.
           ++ replace (i' - i) with (S (i' - S i)) in Ek by lia.
              destruct (S2 a s Ea i' j' k) as (p & I); [lia|done|done|].
              exists p. apply elem_of_app. by left.
      * injection F as <-. rewrite (extends_unique _ _ _ _ X X1).
        exists [k1].
        destruct (One new1 k1 Lk1 Pk1 P1) as (O1 & O2 & O3 & O4).
        split; [done|]. split; [done|]. split; [done|]. split; [done|].
        intros a s _ i' j' k Li Ek Lj.
        destruct (i' - i) as [|d] eqn:D; [|by destruct d].
        injection Ek as <-. replace i' with i by lia.
        exact (S1 _ _ eq_refl j' Lj).
    + injection F as <-.
      destruct (Hrow st1 eq_refl) as (new1 & k1 & X1 & Lk1 & Pk1 & P1 & S1).
      rewrite (extends_unique _ _ _ _ X X1).
      exists [k1].
      destruct (One new1 k1 Lk1 Pk1 P1) as (O1 & O2 & O3 & O4).
      split; [done|]. split; [done|]. split; [done|]. split; [done|].
      intros a s Ea. rewrite Step in Ea. discriminate.
Qed.

(** X15. The cells a scan visits.  In the history [new] of a scan, on a
    grid of the session's shape, that returns or throws, the visited rows are an initial run of the coupling
    loop, and in each of them the visited cells are an initial run of the
    mass loop: there are widths, one per visited row and none above the
    number of masses (nor zero, when there is a mass), such that cell [j]
    of row [i] is reported exactly when [j] is below the width of row [i].
    So a scan never skips a cell and comes back to a later one.  When the
    scan returns, every reported cell has been stored. *)
Theorem Perform_Scan_visits_initial_runs st st' new :
  grid_shape (this st) ->
  final (Perform_Scan st) = Some st' ->
  trace st' = new ++ trace st ->
  exists widths,
    length widths <= length (couplings (this st)) /\
    Forall (fun k => k <= length (DM_masses (this st))) widths /\
    (0 < length (DM_masses (this st)) -> Forall (fun k => 0 < k) widths) /\
    (forall i j, Progress i j ∈ new <->
                 exists k, widths !! i = Some k /\ j < k) /\
    (Perform_Scan st = Ret tt st' ->
     forall i j, Progress i j ∈ new ->
       exists p, Stored (length (couplings (this st)) - 1 - i)
                        (length (DM_masses (this st)) - 1 - j) p ∈ new).
Proof.
  intros _ F T.
  pose proof (Perform_Scan_cases st) as C.
  assert (L0 : 0 + length (couplings (this st)) <= length (couplings (this st)))
    by (simpl; lia).
  assert (Main : forall st1,
            final (scan_loops st) = Some st1 -> trace st1 = trace st' ->
            exists widths,
              length widths <= length (couplings (this st)) /\
              Forall (fun k => k <= length (DM_masses (this st))) widths /\
              (0 < length (DM_masses (this st)) ->
               Forall (fun k => 0 < k) widths) /\
              (forall i j, Progress i j ∈ new <->
                           exists k, widths !! i = Some k /\ j < k) /\
              (forall a, scan_loops st = Ret a st1 ->
               forall i j, Progress i j ∈ new ->
                 exists p, Stored (length (couplings (this st)) - 1 - i)
                             (length (DM_masses (this st)) - 1 - j) p ∈ new)).
  { intros st1 F1 T1. unfold scan_loops in *. unfold_M. simpl in *.
    destruct (coupling_loop_extends _ 0 _ st st1 L0 F1) as (new1 & X1 & _).
    assert (new1 = new) as ->.
    { apply extends_trace in X1. rewrite T1, T in X1.
      by apply app_inv_tail in X1. }
    destruct (coupling_loop_prefix _ 0 _ st st1 new L0 F1 X1)
      as (widths & Lw & Fw & Pw & P & S').
    exists widths. split; [done|]. split; [done|]. split; [done|].
    assert (P' : forall i j, Progress i j ∈ new <->
                             exists k, widths !! i = Some k /\ j < k).
    { intros i j. rewrite P. rewrite Nat.sub_0_r. split.
      - intros (k & _ & E & Lj). by exists k.
      - intros (k & E & Lj). exists k. split; [lia|done]. }
    split; [done|].
    intros a Ea i j I. apply P' in I as (k & E & Lj).
    apply (S' a st1 Ea i j k); [lia|by rewrite Nat.sub_0_r|done]. }
  destruct (scan_loops st) as [a st1|st1|] eqn:E; rewrite C in F |- *;
    [| |discriminate]; simpl in F; injection F as <-.
  - destruct (Main st1 eq_refl eq_refl) as (widths & W1 & W2 & W3 & W4 & W5).
    exists widths. repeat (split; [done|]).
    intros _. by apply (W5 a).
  - destruct (Main st1 eq_refl eq_refl) as (widths & W1 & W2 & W3 & W4 & W5).
    exists widths. repeat (split; [done|]). discriminate.
Qed.

End ScanRegion.

(** X15 at work, on the scan of the corner scenario. *)
Lemma Perform_Scan_visits_initial_runs_witness :
  exists widths,
    length widths <= 2 /\
    forall i j,
      Progress i j
      ∈ trace (match @Perform_Scan (Stub.collaborators Scenario.corner_p)
                       (Stub.start Scenario.corner_p Scenario.corner_session)
               with Ret _ s => s | _ =>
                 Stub.start Scenario.corner_p Scenario.corner_session end)
      <-> exists k, widths !! i = Some k /\ j < k.
Proof.
  pose (st := Stub.start Scenario.corner_p Scenario.corner_session).
  destruct (@Perform_Scan (Stub.collaborators Scenario.corner_p) st)
    as [[] st'|st'|] eqn:E; [|vm_compute in E; discriminate E..].
  destruct (@Perform_Scan_visits_initial_runs
              (Stub.collaborators Scenario.corner_p) st st' (trace st'))
    as (widths & L & _ & _ & P & _).
  - split; [reflexivity|]. repeat constructor.
  - fold st. by rewrite E.
  - assert (trace st = []) as -> by reflexivity. by rewrite app_nil_r.
  - exists widths. fold st. rewrite E. split; [exact L|exact P].
Defined.

(** * What an export writes *)

Section ExportProperties.
Context `{Table_IO}.

(** X16. What an export writes.  On a rank other than 0 the call returns
    at once and the disk is as before.  On rank 0, with a grid of the
    session's shape, the call asks for two files, in this order:
    [p_values.txt] with a table of one row per pair of a mass and a
    coupling, the rows of one mass together, so that row
    [i * number_of_couplings + j] is mass [i], coupling [j] and the grid
    value of row [j], column [i]; then [p_grid.txt] with the grid as it
    is.  When the first write throws, the second file is not asked for. *)
Theorem Export_P_Values_writes_mass_major ps ID d :
  grid_shape ps ->
  (forall mpi_rank, mpi_rank <> 0%Z ->
                    Export_P_Values ps ID mpi_rank d = Ret tt d) /\
  exists table,
    length table = length (DM_masses ps) * length (couplings ps) /\
    (forall i j m c p,
       DM_masses ps !! i = Some m -> couplings ps !! j = Some c ->
       cell (p_value_grid ps) j i = Some p ->
       table !! (i * length (couplings ps) + j) = Some [m; c; p]) /\
    Export_P_Values ps ID 0 d =
      (Export_Table (p_values_path ID) table
         [GeV; (cm * cm)%float; 1.0%float];;
       Export_Table (p_grid_path ID) (p_value_grid ps) []) d /\
    (forall d1,
       Export_Table (p_values_path ID) table
         [GeV; (cm * cm)%float; 1.0%float] d = Throw d1 ->
       Export_P_Values ps ID 0 d = Throw d1).
Proof.
  intros G. split.
  - intros mpi_rank N. unfold Export_P_Values.
    destruct (Z.eqb_spec mpi_rank 0) as [?|_]; [done|reflexivity].
  - exists (export_table ps). split; [apply export_table_length|].
    assert (L0 : 0 + length (DM_masses ps) <= length (DM_masses ps))
      by (simpl; lia).
    assert (E : Export_P_Values ps ID 0 d =
                (Export_Table (p_values_path ID) (export_table ps)
                   [GeV; (cm * cm)%float; 1.0%float];;
                 Export_Table (p_grid_path ID) (p_value_grid ps) []) d).
    { unfold Export_P_Values. simpl.
      by rewrite (bind_Ret _ _ _ _ _ (export_masses_words _ 0 ps [] d G L0)). }
    split; [|split; [exact E|]].
    + intros i j m c p Em Ec Ep.
      rewrite export_table_lookup
        by (eapply lookup_lt_Some; eassumption).
      unfold export_row. by rewrite Em, Ec, Ep.
    + intros d1 T. rewrite E. by apply bind_Throw.
Qed.

End ExportProperties.

(** X16 at work, on the scanned scenario of the specification. *)
Lemma Export_P_Values_writes_mass_major_witness :
  @Export_P_Values Stub.table_io Scenario.spec_session_scanned "run" 1 []
  = Ret tt [].
Proof.
  apply (@Export_P_Values_writes_mass_major Stub.table_io
           Scenario.spec_session_scanned "run" []); [|done].
  split; [reflexivity|]. repeat constructor.
Defined.

(** * The picture of the grid *)

Section PictureFacts.
Context {St : Type}.

Lemma print_cell_words ps cp ic im row col (s : St) p :
  cell (p_value_grid ps) (length (couplings ps) - 1 - row) col = Some p ->
  print_cell ps cp ic im row col s =
  Ret (if cp && ((ic <? Z.of_nat row)%Z
                 || ((Z.of_nat row =? ic)%Z
                     && (im <? Z.of_nat (length (DM_masses ps) - col - 1))%Z))
       then Pending
       else if cp && ((ic =? Z.of_nat row)%Z
                      && (im =? Z.of_nat (length (DM_masses ps) - col - 1))%Z)
       then Current
       else if Double.lt 0.1 p then Allowed else Excluded) s.
Proof.
  intros (grid_row & Er & Ep)%cell_Some. unfold print_cell.
  rewrite (bind_Ret _ _ _ _ _ (at_lookup _ _ s _ Er)).
  rewrite (bind_Ret _ _ _ _ _ (at_lookup _ _ s _ Ep)).
  repeat match goal with |- context [if ?b then _ else _] =>
    destruct b end; reflexivity.
Qed.

Lemma print_cell_defined ps cp ic im row col (s : St) :
  grid_shape ps -> row < length (couplings ps) ->
  col < length (DM_masses ps) ->
  exists g, print_cell ps cp ic im row col s = Ret g s.
Proof.
  intros G Lr Lc.
  destruct (grid_shape_cell ps (length (couplings ps) - 1 - row) col G)
    as (grid_row & p & Er & Ep); [lia|done|].
  eexists. apply (print_cell_words _ _ _ _ _ _ _ p).
  apply cell_Some. eauto.
Qed.

Lemma print_columns_words ps cp ic im row (s : St) n : forall col line,
  grid_shape ps -> row < length (couplings ps) ->
  col + n <= length (DM_masses ps) ->
  exists glyphs,
    print_columns n col ps cp ic im row line s = Ret (line ++ glyphs) s /\
    length glyphs = n /\
    forall c, col <= c < col + n ->
      exists g, print_cell ps cp ic im row c s = Ret g s /\
                glyphs !! (c - col) = Some g.
Proof.
  induction n as [|n IH]; intros col line G Lr Lc; simpl.
  - exists []. rewrite app_nil_r. split; [done|]. split; [done|].
    intros c L. lia.
  - destruct (print_cell_defined ps cp ic im row col s G Lr) as (g & Eg);
      [lia|].
    rewrite (bind_Ret _ _ _ _ _ Eg).
    destruct (IH (S col) (line ++ [g]) G Lr) as (glyphs & E & Len & Each);
      [lia|].
    exists (g :: glyphs). rewrite E, <- app_assoc. split; [done|].
    split; [simpl; lia|].
    intros c L. destruct (decide (c = col)) as [->|N].
    + exists g. by rewrite Nat.sub_diag.
    + destruct (Each c) as (g' & Eg' & El); [lia|]. exists g'.
      split; [done|]. replace (c - col) with (S (c - S col)) by lia. done.
Qed.

Lemma print_rows_words ps cp ic im (s : St) n : forall row picture,
  grid_shape ps -> row + n <= length (couplings ps) ->
  exists lines,
    print_rows n row ps cp ic im picture s = Ret (picture ++ lines) s /\
    length lines = n /\
    Forall (fun line => length line = length (DM_masses ps)) lines /\
    forall r c, row <= r < row + n -> c < length (DM_masses ps) ->
      exists g, print_cell ps cp ic im r c s = Ret g s /\
                glyph_at lines (r - row) c = Some g.
Proof.
  induction n as [|n IH]; intros row picture G Lr; simpl.
  - exists []. rewrite app_nil_r. split; [done|]. split; [done|].
    split; [constructor|]. intros r c L. lia.
  - destruct (print_columns_words ps cp ic im row s
                (length (DM_masses ps)) 0 [] G)
      as (line & El & Len & Each); [lia|simpl; lia|].
    simpl in El. rewrite (bind_Ret _ _ _ _ _ El).
    destruct (IH (S row) (picture ++ [line]) G) as (lines & E & Ln & F & Rs);
      [lia|].
    exists (line :: lines). rewrite E, <- app_assoc. split; [done|].
    split; [simpl; lia|]. split; [by constructor|].
    intros r c L Lc. destruct (decide (r = row)) as [->|N].
    + destruct (Each c) as (g & Eg & Eg'); [lia|]. exists g.
      split; [done|]. rewrite Nat.sub_diag. unfold glyph_at. simpl.
      by rewrite Nat.sub_0_r in Eg'.
    + destruct (Rs r c) as (g & Eg & Eg'); [lia|done|]. exists g.
      split; [done|]. replace (r - row) with (S (r - S row)) by lia. done.
Qed.

(** The picture of a session whose grid has the session's shape. *)
Lemma Print_Grid_words ps ic im (s : St) :
  grid_shape ps ->
  exists picture,
    Print_Grid ps 0 ic im s = Ret picture s /\
    length picture = length (couplings ps) /\
    Forall (fun line => length line = length (DM_masses ps)) picture /\
    forall row col,
      row < length (couplings ps) -> col < length (DM_masses ps) ->
      exists g,
        print_cell ps (if (ic <? 0)%Z || (im <? 0)%Z then false else true)
                   ic im row col s = Ret g s /\
        glyph_at picture row col = Some g.
Proof.
  intros G. unfold Print_Grid. simpl.
  destruct (print_rows_words ps
              (if (ic <? 0)%Z || (im <? 0)%Z then false else true)
              ic im s (length (couplings ps)) 0 [] G)
    as (lines & E & Ln & F & Rs); [simpl; lia|].
  exists lines. split; [done|]. split; [done|]. split; [done|].
  intros row col Lr Lc. destruct (Rs row col) as (g & Eg & Eg'); [lia|done|].
  exists g. split; [done|]. by rewrite Nat.sub_0_r in Eg'.
Qed.

Lemma Print_Grid_values ps ic im (s : St) :
  grid_shape ps -> (ic < 0 \/ im < 0)%Z ->
  exists picture,
    Print_Grid ps 0 ic im s = Ret picture s /\
    length picture = length (couplings ps) /\
    Forall (fun line => length line = length (DM_masses ps)) picture /\
    forall row col p,
      row < length (couplings ps) ->
      cell (p_value_grid ps) (length (couplings ps) - 1 - row) col = Some p ->
      glyph_at picture row col
      = Some (if Double.lt 0.1 p then Allowed else Excluded).
Proof.
  intros G N.
  destruct (Print_Grid_words ps ic im s G) as (picture & E & Ln & F & Each).
  exists picture. split; [done|]. split; [done|]. split; [done|].
  intros row col p Lr Ec.
  assert (Lc : col < length (DM_masses ps)).
  { apply cell_Some in Ec as (grid_row & Er & Ep).
    destruct G as [_ Rows].
    rewrite <- (Forall_lookup_1 _ _ _ _ Rows Er).
    by eapply lookup_lt_Some. }
  destruct (Each row col Lr Lc) as (g & Eg & ->).
  rewrite (print_cell_words _ _ _ _ _ _ _ p Ec) in Eg.
  assert ((if (ic <? 0)%Z || (im <? 0)%Z then false else true) = false)
    as Cp.
  { destruct (Z.ltb_spec ic 0), (Z.ltb_spec im 0); simpl; try done. lia. }
  rewrite Cp in Eg. simpl in Eg. by injection Eg as <-.
Qed.

(** X17. The picture without a progress marker.  On rank 0, with a grid
    of the session's shape and one of the two indices negative, the call
    draws one line per coupling and one glyph per mass in each; line [row]
    shows grid row [number_of_couplings - 1 - row], so the largest
    coupling is on top, and columns are in the order of the mass axis.  A
    value is drawn light when it is above 0.1 and as a full block
    otherwise, a NaN included.  On another rank nothing is drawn. *)
Theorem Print_Grid_without_progress ps ic im (s : St) :
  grid_shape ps -> (ic < 0 \/ im < 0)%Z ->
  (forall mpi_rank, mpi_rank <> 0%Z ->
                    Print_Grid ps mpi_rank ic im s = Ret [] s) /\
  exists picture,
    Print_Grid ps 0 ic im s = Ret picture s /\
    length picture = length (couplings ps) /\
    Forall (fun line => length line = length (DM_masses ps)) picture /\
    forall row col p,
      row < length (couplings ps) ->
      cell (p_value_grid ps) (length (couplings ps) - 1 - row) col = Some p ->
      glyph_at picture row col
      = Some (if Double.lt 0.1 p then Allowed else Excluded).
Proof.
  intros G N. split.
  - intros mpi_rank Nr. unfold Print_Grid.
    destruct (Z.eqb_spec mpi_rank 0) as [?|_]; [done|reflexivity].
  - by apply Print_Grid_values.
Qed.

(** X18. The picture with a progress marker.  Let the grid have the
    session's shape and let the call on rank 0 be given the loop counters
    [i] and [j] of a scan.  The cell of scan position [(i', j')], which is
    line [i'], column [number_of_masses - 1 - j'] of the picture and cell
    [(number_of_couplings - 1 - i', number_of_masses - 1 - j')] of the
    grid, is drawn as a dot when the scan comes to it after [(i, j)], as
    the marker when it is [(i, j)], and by its value when the scan was
    there before. *)
Theorem Print_Grid_marks_progress ps i j (s : St) :
  grid_shape ps ->
  exists picture,
    Print_Grid ps 0 (Z.of_nat i) (Z.of_nat j) s = Ret picture s /\
    forall i' j' p,
      i' < length (couplings ps) -> j' < length (DM_masses ps) ->
      cell (p_value_grid ps) (length (couplings ps) - 1 - i')
           (length (DM_masses ps) - 1 - j') = Some p ->
      glyph_at picture i' (length (DM_masses ps) - 1 - j')
      = Some (if decide (i < i' \/ (i' = i /\ j < j')) then Pending
              else if decide (i' = i /\ j' = j) then Current
              else if Double.lt 0.1 p then Allowed else Excluded).
Proof.
  intros G.
  destruct (Print_Grid_words ps (Z.of_nat i) (Z.of_nat j) s G)
    as (picture & E & Ln & F & Each).
  exists picture. split; [done|].
  intros i' j' p Li Lj Ec.
  destruct (Each i' (length (DM_masses ps) - 1 - j')) as (g & Eg & ->);
    [done|lia|].
  rewrite (print_cell_words _ _ _ _ _ _ _ p Ec) in Eg.
  assert ((if (Z.of_nat i <? 0)%Z || (Z.of_nat j <? 0)%Z
           then false else true) = true) as Cp.
  { destruct (Z.ltb_spec (Z.of_nat i) 0), (Z.ltb_spec (Z.of_nat j) 0);
      simpl; try done; lia. }
  rewrite Cp in Eg. cbn [andb] in Eg. injection Eg as <-.
  replace (length (DM_masses ps) - (length (DM_masses ps) - 1 - j') - 1)
    with j' by lia.
  f_equal.
  destruct (decide (i < i' \/ (i' = i /\ j < j'))) as [D|D].
  - assert (((Z.of_nat i <? Z.of_nat i')%Z
             || ((Z.of_nat i' =? Z.of_nat i)%Z
                 && (Z.of_nat j <? Z.of_nat j')%Z)) = true) as ->; [|done].
    apply orb_true_iff. rewrite andb_true_iff, !Z.ltb_lt, Z.eqb_eq. lia.
  - assert (((Z.of_nat i <? Z.of_nat i')%Z
             || ((Z.of_nat i' =? Z.of_nat i)%Z
                 && (Z.of_nat j <? Z.of_nat j')%Z)) = false) as ->.
    { apply orb_false_iff. rewrite andb_false_iff, !Z.ltb_ge, Z.eqb_neq. lia. }
    destruct (decide (i' = i /\ j' = j)) as [D'|D'].
    + assert (((Z.of_nat i =? Z.of_nat i')%Z
               && (Z.of_nat j =? Z.of_nat j')%Z) = true) as ->; [|done].
      apply andb_true_iff. rewrite !Z.eqb_eq. lia.
    + assert (((Z.of_nat i =? Z.of_nat i')%Z
               && (Z.of_nat j =? Z.of_nat j')%Z) = false) as ->; [|done].
      apply andb_false_iff. rewrite !Z.eqb_neq. lia.
Qed.

End PictureFacts.

Lemma neither_below_nor_above p q :
  Double.lt p q = false -> Double.lt q p = false ->
  Double.is_nan p = true \/ Double.is_nan q = true \/
  PrimFloat.eqb p q = true.
Proof.
  unfold Double.lt. rewrite !ltb_spec, FloatAxioms.eqb_spec.
  unfold SFltb, SFeqb.
  rewrite (DoubleFacts.SFcompare_swap (Prim2SF p) (Prim2SF q)).
  destruct (SFcompare (Prim2SF p) (Prim2SF q)) as [[]|] eqn:E;
    simpl; try discriminate; intros _ _.
  - by right; right.
  - apply DoubleFacts.SFcompare_None in E as [E|E];
      apply DoubleFacts.is_nan_Prim2SF in E; auto.
Qed.

Section PictureOfScan.
Context `{Collaborators}.

(** X19. The picture after a scan.  Let the grid have the session's shape
    and let the scan return.  In the picture drawn of the session
    afterwards, without a progress marker, every cell the scan stored is
    there, in line [number_of_couplings - 1 - r] for grid row [r]; it is a
    full block when the scan counted its p-value as excluded (below 0.1),
    and light when the p-value is above 0.1.  The two tests differ on the
    rest: a p-value of exactly 0.1, or a NaN, ends the exclusion of a row
    in the scan and is drawn as a full block all the same. *)
Theorem Print_Grid_after_scan st st' new ic im :
  grid_shape (this st) ->
  Perform_Scan st = Ret tt st' ->
  trace st' = new ++ trace st ->
  (ic < 0 \/ im < 0)%Z ->
  exists picture,
    Print_Grid (this st') 0 ic im tt = Ret picture tt /\
    forall r c p, Stored r c p ∈ new ->
      exists g,
        glyph_at picture (length (couplings (this st)) - 1 - r) c = Some g /\
        (Double.lt p 0.1 = true -> g = Excluded) /\
        (Double.lt 0.1 p = true -> g = Allowed) /\
        (g = Excluded -> Double.lt p 0.1 = false ->
         Double.is_nan p = true \/ PrimFloat.eqb p 0.1 = true).
Proof.
  intros G E T N.
  destruct (Perform_Scan_summary st st') as (new0 & X & Sum);
    [by rewrite E|].
  assert (new0 = new) as ->.
  { apply extends_trace in X. rewrite T in X. by apply app_inv_tail in X. }
  pose proof (extends_grid_shape _ _ _ X G) as G'.
  destruct X as (_ & M1 & C1 & _ & G1 & Dom).
  destruct Sum as (_ & ND & _).
  destruct (Print_Grid_values (this st') ic im tt G' N)
    as (picture & Ep & _ & _ & Each).
  exists picture. split; [done|].
  intros r c p I.
  pose proof (proj1 (Forall_forall _ _) Dom _ I) as D. simpl in D.
  assert (Lr : r < length (couplings (this st))).
  { destruct D as [x (row & Er & _)%cell_Some].
    destruct G as [<- _]. by eapply lookup_lt_Some. }
  assert (Ec : cell (p_value_grid (this st')) r c = Some (clamp p)).
  { rewrite G1. by apply cell_replay_stored. }
  eexists. split.
  - rewrite <- C1 in Lr |- *. apply Each; [lia|].
    replace (length (couplings (this st')) - 1
             - (length (couplings (this st')) - 1 - r)) with r by lia.
    exact Ec.
  - unfold clamp. destruct (Double.lt p 1.0e-100) eqn:Floor.
    + assert (B : Double.lt p 0.1 = true)
        by (by apply (DoubleFacts.lt_trans p 1.0e-100 0.1)).
      assert (Double.lt 0.1 0 = false) as -> by reflexivity.
      split; [done|]. split; [|congruence].
      intros A. by rewrite (DoubleFacts.lt_asym _ _ A) in B.
    + destruct (Double.lt 0.1 p) eqn:A.
      * split; [|split; [done|discriminate]].
        intros B. by rewrite (DoubleFacts.lt_asym _ _ B) in A.
      * split; [done|]. split; [discriminate|]. intros _ B.
        destruct (neither_below_nor_above p 0.1 B A) as [?|[?|?]]; auto.
        discriminate.
Qed.

End PictureOfScan.

(** X17 to X19 at work. *)
Lemma Print_Grid_without_progress_witness :
  exists picture,
    @Print_Grid unit Scenario.spec_session_scanned 0 (-1) (-1) tt
    = Ret picture tt /\
    length picture = 3.
Proof.
  destruct (@Print_Grid_without_progress unit Scenario.spec_session_scanned
              (-1) (-1) tt) as (_ & picture & E & L & _).
  - split; [reflexivity|]. repeat constructor.
  - left. lia.
  - exists picture. split; [exact E|exact L].
Defined.

Lemma Print_Grid_marks_progress_witness :
  exists picture,
    @Print_Grid unit Scenario.spec_session_scanned 0 1 1 tt = Ret picture tt /\
    glyph_at picture 1 1 = Some Current /\
    glyph_at picture 1 0 = Some Pending /\
    glyph_at picture 0 0 = Some Excluded.
Proof.
  destruct (@Print_Grid_marks_progress unit Scenario.spec_session_scanned
              1 1 tt) as (picture & E & Each).
  - split; [reflexivity|]. repeat constructor.
  - exists picture. split; [exact E|].
    split; [|split].
    + apply (Each 1 1 0.05%float); [vm_compute; lia..|reflexivity].
    + apply (Each 1 2 0.05%float); [vm_compute; lia..|reflexivity].
    + apply (Each 0 2 0.05%float); [vm_compute; lia..|reflexivity].
Defined.

Lemma Print_Grid_after_scan_witness :
  exists picture,
    @Print_Grid unit Scenario.spec_session_scanned 0 (-1) (-1) tt
    = Ret picture tt /\
    glyph_at picture 0 0 = Some Excluded.
Proof.
  pose (st := Stub.start Scenario.spec_p Scenario.spec_session).
  destruct (@Perform_Scan (Stub.collaborators Scenario.spec_p) st)
    as [[] st'|st'|] eqn:E; [|vm_compute in E; discriminate E..].
  assert (Es : this st' = Scenario.spec_session_scanned).
  { vm_compute in E. injection E as <-. reflexivity. }
  destruct (@Print_Grid_after_scan (Stub.collaborators Scenario.spec_p)
              st st' (trace st') (-1) (-1)) as (picture & Ep & Each).
  - split; [reflexivity|]. repeat constructor.
  - exact E.
  - assert (trace st = []) as -> by reflexivity. by rewrite app_nil_r.
  - left. lia.
  - rewrite Es in Ep. exists picture. split; [exact Ep|].
    destruct (Each 2 0 0.05%float) as (g & Eg & B & _).
    + vm_compute in E. injection E as <-. vm_compute.
      repeat (first [left; reflexivity | right]).
    + rewrite (B eq_refl) in Eg. exact Eg.
Defined.

(** * The limit files *)

Lemma append_length (a t : string) :
  String.length (a +:+ t) = String.length a + String.length t.
Proof. induction a as [|c a IH]; simpl; [done|]. by rewrite IH. Qed.

Lemma append_inj_l (t a b : string) : a +:+ t = b +:+ t -> a = b.
Proof.
  revert b. induction a as [|c a IH]; intros [|c' b] E.
  - done.
  - apply (f_equal String.length) in E.
    rewrite !append_length in E. simpl in E. lia.
  - apply (f_equal String.length) in E.
    rewrite !append_length in E. simpl in E. lia.
  - simpl in E. injection E as -> E. f_equal. by apply IH.
Qed.

Section LimitFiles.
Context `{Collaborators} `{Table_IO}.

(** The file of the level that rounds to [CL] percent. *)
Let limit_file (folder_path : string) (CL : Z) : string :=
  folder_path +:+ ("Limit_" +:+ pretty CL +:+ ".txt").

Lemma limit_file_inj folder_path CL CL' :
  limit_file folder_path CL = limit_file folder_path CL' -> CL = CL'.
Proof.
  unfold limit_file. intros E. do 2 apply append_inj_r in E.
  apply append_inj_l in E. by apply (inj pretty) in E.
Qed.

(** One turn of the loop of lines 211-218. *)
Lemma Export_Limits_step ps folder_path mpi_rank certainty_level rest d :
  Export_Limits ps folder_path mpi_rank (certainty_level :: rest) d =
  match Limit_Curve ps certainty_level tt with
  | Ret limit _ =>
      match round_to_int (100 * certainty_level)%float with
      | Some CL =>
          if (mpi_rank =? 0)%Z then
            match Export_Table (limit_file folder_path CL) limit
                               [GeV; (cm * cm)%float] d with
            | Ret _ d1 => Export_Limits ps folder_path mpi_rank rest d1
            | Throw d1 => Throw d1
            | Undefined => Undefined
            end
          else Export_Limits ps folder_path mpi_rank rest d
      | None => Undefined
      end
  | Throw _ => Throw d
  | Undefined => Undefined
  end.
Proof.
  simpl. unfold aside, cast_to_int, limit_file. unfold_M.
  destruct (Limit_Curve ps certainty_level tt) as [limit []|[]|]; try done.
  destruct (round_to_int (100 * certainty_level)) as [CL|]; [|done].
  destruct (mpi_rank =? 0)%Z; [|done].
  by destruct (Export_Table _ limit _ d) as [[] d1|d1|].
Qed.

(** X20. The limit files on the other ranks.  On a rank other than 0 the
    call writes nothing, whether it returns or throws, but it does all the
    work: it returns exactly when, for every level, the limit curve
    returns and the level in percent, rounded, is an [int]. *)
Theorem Export_Limits_other_ranks ps folder_path mpi_rank certainty_levels d :
  mpi_rank <> 0%Z ->
  (forall d', final (Export_Limits ps folder_path mpi_rank certainty_levels d)
              = Some d' -> d' = d) /\
  (Export_Limits ps folder_path mpi_rank certainty_levels d = Ret tt d <->
   forall certainty_level, certainty_level ∈ certainty_levels ->
     (exists limit, Limit_Curve ps certainty_level tt = Ret limit tt) /\
     is_Some (round_to_int (100 * certainty_level)%float)).
Proof.
  intros N. apply Z.eqb_neq in N.
  induction certainty_levels as [|a rest [IH1 IH2]].
  - split; [by intros d' [= <-]|]. split; [|done].
    intros _ a I. by apply elem_of_nil in I.
  - rewrite Export_Limits_step, N.
    destruct (Limit_Curve ps a tt) as [limit []|[]|] eqn:El.
    + destruct (round_to_int (100 * a)) as [CL|] eqn:Er.
      * split; [exact IH1|]. rewrite IH2. split.
        -- intros Hr b I. apply elem_of_cons in I as [->|I]; [|by apply Hr].
           rewrite El, Er. split; [by exists limit|done].
        -- intros Hr b I. apply Hr. by right.
      * split; [discriminate|]. split; [discriminate|].
        intros Hr. destruct (Hr a) as [_ [z Ez]]; [left|]. congruence.
    + split; [by intros d' [= <-]|]. split; [discriminate|].
      intros Hr. destruct (Hr a) as [[l El'] _]; [left|]. congruence.
    + split; [discriminate|]. split; [discriminate|].
      intros Hr. destruct (Hr a) as [[l El'] _]; [left|]. congruence.
Qed.

(** A file that no level of the call is named after is left alone. *)
Lemma Export_Limits_other_file ps folder_path CL certainty_levels :
  forall d d' table,
  reads_back ->
  Export_Limits ps folder_path 0 certainty_levels d = Ret tt d' ->
  (forall a, a ∈ certainty_levels ->
             round_to_int (100 * a)%float <> Some CL) ->
  Import_Table (limit_file folder_path CL) [GeV; (cm * cm)%float] d
    = Ret table d ->
  Import_Table (limit_file folder_path CL) [GeV; (cm * cm)%float] d'
    = Ret table d'.
Proof.
  induction certainty_levels as [|a rest IH]; intros d d' table W E No I.
  - simpl in E. unfold_M. by injection E as <-.
  - rewrite Export_Limits_step in E. simpl in E.
    destruct (Limit_Curve ps a tt) as [limit []|[]|]; try discriminate.
    destruct (round_to_int (100 * a)) as [CL'|] eqn:Er; [|discriminate].
    destruct (Export_Table (limit_file folder_path CL') limit
                [GeV; (cm * cm)%float] d) as [[] d1|d1|] eqn:Ew;
      try discriminate.
    apply (IH d1 d' table W E).
    + intros b Ib. apply No. by right.
    + destruct W as [_ W2].
      apply (W2 _ (limit_file folder_path CL') table limit _
                [GeV; (cm * cm)%float] d d1); [|done|done].
      intros Ep. apply limit_file_inj in Ep as <-.
      apply (No a); [left|done].
Qed.

(** X21. The last level of a percent wins.  Let table files read back as
    they were written.  After an export on rank 0 that returns, the file
    of every level, [Limit_<CL>.txt] with [CL] the level in percent,
    rounded, holds the curve of the LAST level of the list that rounds to
    that percent: an earlier curve of the same percent is overwritten. *)
Theorem Export_Limits_last_of_a_percent_wins ps folder_path
    certainty_levels d d' :
  reads_back ->
  Export_Limits ps folder_path 0 certainty_levels d = Ret tt d' ->
  forall a, a ∈ certainty_levels ->
    exists CL k b limit,
      round_to_int (100 * a)%float = Some CL /\
      certainty_levels !! k = Some b /\
      round_to_int (100 * b)%float = Some CL /\
      (forall k' c, k < k' -> certainty_levels !! k' = Some c ->
                    round_to_int (100 * c)%float <> Some CL) /\
      Limit_Curve ps b tt = Ret limit tt /\
      Import_Table (folder_path +:+ ("Limit_" +:+ pretty CL +:+ ".txt"))
                   [GeV; (cm * cm)%float] d' = Ret limit d'.
Proof.
  intros W. revert d d'.
  induction certainty_levels as [|a0 rest IH]; intros d d' E a I.
  { by apply elem_of_nil in I. }
  rewrite Export_Limits_step in E. simpl in E.
  destruct (Limit_Curve ps a0 tt) as [limit0 []|[]|] eqn:El;
    try discriminate.
  destruct (round_to_int (100 * a0)) as [CL0|] eqn:Er; [|discriminate].
  destruct (Export_Table (limit_file folder_path CL0) limit0
              [GeV; (cm * cm)%float] d) as [[] d1|d1|] eqn:Ew;
    try discriminate.
  assert (Later : forall b, b ∈ rest ->
            exists CL k b' limit,
              round_to_int (100 * b)%float = Some CL /\
              (a0 :: rest) !! k = Some b' /\
              round_to_int (100 * b')%float = Some CL /\
              (forall k' c, k < k' -> (a0 :: rest) !! k' = Some c ->
                            round_to_int (100 * c)%float <> Some CL) /\
              Limit_Curve ps b' tt = Ret limit tt /\
              Import_Table (limit_file folder_path CL)
                           [GeV; (cm * cm)%float] d' = Ret limit d').
  { intros b Ib.
    destruct (IH d1 d' E b Ib) as (CL & k & b' & limit & R1 & Lk & R2 & Last
                                   & Lb & Im).
    exists CL, (S k), b', limit. split; [done|]. split; [done|].
    split; [done|]. split; [|by split].
    intros [|k'] c Lk' Ec; [lia|]. apply (Last k' c); [lia|done]. }
  destruct (decide (Exists (fun b => round_to_int (100 * b)%float = Some CL0)
                           rest)) as [(b & Ib & Rb)%Exists_exists|No];
    [|rewrite Exists_exists in No].
  - apply elem_of_cons in I as [->|I]; [|by apply Later].
    destruct (Later b Ib) as (CL & k & b' & limit & R1 & Rest).
    exists CL, k, b', limit. split; [congruence|exact Rest].
  - apply elem_of_cons in I as [->|I]; [|by apply Later].
    exists CL0, 0, a0, limit0. split; [done|]. split; [done|].
    split; [done|]. split; [|split; [done|]].
    + intros [|k'] c Lk' Ec; [lia|]. intros Rc. apply No.
      exists c. split; [|done]. by eapply list_elem_of_lookup_2.
    + apply (Export_Limits_other_file ps folder_path CL0 rest d1 d' limit0
               W E).
      * intros b Ib Rb. apply No. by exists b.
      * destruct W as [W1 _]. by apply (W1 _ _ _ d).
Qed.

End LimitFiles.

(** X20 and X21 at work, with the test doubles. *)
Lemma Export_Limits_other_ranks_witness :
  @Export_Limits (Stub.collaborators Scenario.spec_p) Stub.table_io
    Scenario.spec_session_scanned "out/" 1 [0.9; 0.95]%float []
  = Ret tt [].
Proof.
  apply (@Export_Limits_other_ranks (Stub.collaborators Scenario.spec_p)
           Stub.table_io Scenario.spec_session_scanned "out/" 1
           [0.9; 0.95]%float []); [done|].
  intros a I. elem_cases I.
  - split; [eexists; vm_compute; reflexivity|vm_compute; eauto].
  - split; [eexists; vm_compute; reflexivity|vm_compute; eauto].
Defined.

Lemma Export_Limits_last_of_a_percent_wins_witness :
  exists d',
    @Export_Limits (Stub.collaborators Scenario.spec_p) Stub.table_io
      Scenario.spec_session_scanned "out/" 0 [0.9; 0.904]%float [] = Ret tt d' /\
    exists CL k b limit,
      round_to_int (100 * 0.9)%float = Some CL /\
      [0.9; 0.904]%float !! k = Some b /\
      round_to_int (100 * b)%float = Some CL /\
      (forall k' c, k < k' -> [0.9; 0.904]%float !! k' = Some c ->
                    round_to_int (100 * c)%float <> Some CL) /\
      @Limit_Curve (Stub.collaborators Scenario.spec_p)
        Scenario.spec_session_scanned b tt = Ret limit tt /\
      @Import_Table Stub.table_io
        ("out/" +:+ ("Limit_" +:+ pretty CL +:+ ".txt"))
        [@GeV Stub.table_io; (@cm Stub.table_io * @cm Stub.table_io)%float] d'
      = Ret limit d'.
Proof.
  eexists. split; [vm_compute; reflexivity|].
  apply (@Export_Limits_last_of_a_percent_wins
           (Stub.collaborators Scenario.spec_p) Stub.table_io
           Scenario.spec_session_scanned "out/" [0.9; 0.904]%float []).
  - exact Stub_reads_back.
  - vm_compute. reflexivity.
  - left.
Defined.

(** * The direct limit curve *)

Section DirectCurve.
Context `{Collaborators} `{Table_IO}.

Import Solar_Reflection_Limit.

Lemma Upper_Limit_with_limits o ls mass_ :
  Upper_Limit (with_limits o ls) mass_ = Upper_Limit o mass_.
Proof. reflexivity. Qed.

(** One turn of the loop of lines 288-297. *)
Lemma curve_loop_step mass_ rest mpi_rank st :
  curve_loop (mass_ :: rest) mpi_rank st =
  match Upper_Limit (self st) mass_ (models_ st) with
  | Ret limit w =>
      curve_loop rest mpi_rank
        (mkLimitState (with_limits (self st) (limits (self st) ++ [limit]))
                      w (disk st)
                      (if (mpi_rank =? 0)%Z
                       then Line mass_ limit :: stream st else stream st))
  | Throw w => Throw (mkLimitState (self st) w (disk st) (stream st))
  | Undefined => Undefined
  end.
Proof.
  simpl. unfold on_models, push_limit, send. unfold_M. simpl.
  destruct (Upper_Limit (self st) mass_ (models_ st)) as [limit w|w|];
    [|done..].
  simpl. by destruct (mpi_rank =? 0)%Z.
Qed.

(** What the loop has done when it returns or throws: [new] are the
    limits it appended, one for each of the first masses. *)
Lemma curve_loop_inv masses mpi_rank : forall st st',
  final (curve_loop masses mpi_rank st) = Some st' ->
  exists new,
    self st' = with_limits (self st) (limits (self st) ++ new) /\
    disk st' = disk st /\
    length new <= length masses /\
    (curve_loop masses mpi_rank st = Ret tt st' ->
     length new = length masses) /\
    (curve_loop masses mpi_rank st = Throw st' ->
     length new < length masses) /\
    stream st' =
      (if (mpi_rank =? 0)%Z
       then reverse (zip_with Line masses new) else []) ++ stream st /\
    (forall k l, new !! k = Some l ->
       exists m w w', masses !! k = Some m /\
                      Upper_Limit (self st) m w = Ret l w').
Proof.
  induction masses as [|m rest IH]; intros st st' F.
  - simpl in F. injection F as <-. exists [].
    split; [by rewrite app_nil_r; destruct (self st)|].
    split; [done|]. split; [done|]. split; [done|].
    split; [discriminate|]. split; [by destruct (mpi_rank =? 0)%Z|].
    intros k l E. discriminate.
  - rewrite curve_loop_step in F |- *.
    destruct (Upper_Limit (self st) m (models_ st)) as [limit w|w|] eqn:E;
      [| |discriminate].
    + destruct (IH _ _ F) as (new & S' & D & L & LR & LT & Str & Each).
      simpl in *. exists (limit :: new). simpl.
      split; [rewrite S'; unfold with_limits; simpl; by rewrite <- app_assoc|].
      split; [done|]. split; [lia|].
      split; [intros R; rewrite (LR R); done|].
      split; [intros T; specialize (LT T); lia|]. split.
      * rewrite Str. destruct (mpi_rank =? 0)%Z; [|done].
        rewrite reverse_cons, <- app_assoc. done.
      * intros [|k] l El.
        -- injection El as <-. by exists m, (models_ st), w.
        -- destruct (Each k l El) as (m' & w1 & w2 & Em & Eu).
           by exists m', w1, w2.
    + simpl in F. injection F as <-. exists []. simpl.
      split; [by rewrite app_nil_r; destruct (self st)|].
      split; [done|]. split; [lia|]. split; [discriminate|].
      split; [lia|]. split; [by destruct (mpi_rank =? 0)%Z|].
      intros k l El. discriminate.
Qed.

(** X22. The limits of a direct curve are appended, never replaced.
    When [Compute_Limit_Curve] returns or throws, the object keeps its
    masses and parameters and its limits are the old ones followed by new
    ones, one for each mass when the call returns and fewer when it
    throws; limit [k] of the new ones is what [Upper_Limit] returned for
    mass [k].  The disk is not touched through the table writer.  On rank
    0 the stream of the file [Reflection_Limit_<CL>.txt] is opened first
    and gets one line per new limit, in order; on another rank nothing is
    sent. *)
Theorem Compute_Limit_Curve_appends ID mpi_rank st st' :
  final (Compute_Limit_Curve ID mpi_rank st) = Some st' ->
  exists new,
    self st' = with_limits (self st) (limits (self st) ++ new) /\
    disk st' = disk st /\
    (Compute_Limit_Curve ID mpi_rank st = Ret tt st' ->
     length new = length (masses (self st))) /\
    (Compute_Limit_Curve ID mpi_rank st = Throw st' ->
     length new < length (masses (self st))) /\
    (forall k l, new !! k = Some l ->
       exists m w w', masses (self st) !! k = Some m /\
                      Upper_Limit (self st) m w = Ret l w') /\
    (mpi_rank <> 0%Z -> stream st' = stream st) /\
    (mpi_rank = 0%Z ->
     exists CL,
       round_to_int (100.0 * certainty_level (self st))%float = Some CL /\
       stream st' =
         reverse (zip_with Line (masses (self st)) new)
         ++ Opened (curve_path ID CL) :: stream st).
Proof.
  unfold Compute_Limit_Curve. destruct (Z.eqb_spec mpi_rank 0) as [->|N].
  - unfold cast_to_int, send. unfold_M. simpl.
    destruct (round_to_int (100.0 * certainty_level (self st))) as [CL|];
      [|discriminate].
    intros F.
    destruct (curve_loop_inv _ _ _ _ F) as (new & S' & D & L & LR & LT & Str
                                             & Each).
    simpl in *. exists new. split; [done|]. split; [done|].
    split; [done|]. split; [done|]. split; [done|]. split; [done|].
    intros _. by exists CL.
  - unfold_M. simpl. intros F.
    destruct (curve_loop_inv _ _ _ _ F) as (new & S' & D & L & LR & LT & Str
                                             & Each).
    apply Z.eqb_neq in N. rewrite N in Str. simpl in *.
    exists new. split; [done|]. split; [done|].
    split; [done|]. split; [done|]. split; [done|]. split; [done|].
    intros ->. discriminate.
Qed.

(** The coupling the detector sees on the particle. *)
Let coupling_of (w : world) : float :=
  Get_Interaction_Parameter (Target_Particles (models w)) (DM w).

Section Restoring.
Hypothesis Set_Mass_mass : forall m d, mass (Set_Mass m d) = m.
Hypothesis Set_Interaction_Parameter_mass :
  forall c t d, mass (Set_Interaction_Parameter c t d) = mass d.
Hypothesis Set_Interaction_Parameter_get :
  forall c t d,
    Get_Interaction_Parameter t (Set_Interaction_Parameter c t d) = c.

Lemma Upper_Limit_restores o mass_ w limit w' :
  Upper_Limit o mass_ w = Ret limit w' ->
  mass (DM w') = mass (DM w) /\ coupling_of w' = coupling_of w.
Proof.
  unfold Upper_Limit, set_DM. unfold_M. simpl.
  match goal with |- context [Find_Root ?f ?a ?b ?e ?s] =>
    destruct (Find_Root f a b e s) as [r w1|w1|] end; [|done..].
  intros [= <- <-]. unfold coupling_of. simpl.
  by rewrite Set_Interaction_Parameter_mass, Set_Mass_mass,
             Set_Interaction_Parameter_get.
Qed.

Lemma curve_loop_restores masses mpi_rank : forall st st',
  curve_loop masses mpi_rank st = Ret tt st' ->
  mass (DM (models_ st')) = mass (DM (models_ st)) /\
  coupling_of (models_ st') = coupling_of (models_ st).
Proof.
  induction masses as [|m rest IH]; intros st st' E.
  - simpl in E. unfold_M. by injection E as <-.
  - rewrite curve_loop_step in E.
    destruct (Upper_Limit (self st) m (models_ st)) as [limit w|w|] eqn:Eu;
      [|discriminate..].
    destruct (Upper_Limit_restores _ _ _ _ _ Eu) as [<- <-].
    apply IH in E. exact E.
Qed.

(** X23. A direct curve restores the particle.  Let the particle model
    keep what it is given.  After a normal return of
    [Compute_Limit_Curve], on any rank, the particle has the mass and the
    interaction parameter it had before the call. *)
Theorem Compute_Limit_Curve_restores_particle ID mpi_rank st st' :
  Compute_Limit_Curve ID mpi_rank st = Ret tt st' ->
  mass (DM (models_ st')) = mass (DM (models_ st)) /\
  coupling_of (models_ st') = coupling_of (models_ st).
Proof.
  unfold Compute_Limit_Curve. destruct (mpi_rank =? 0)%Z.
  - unfold cast_to_int, send. unfold_M. simpl.
    destruct (round_to_int (100.0 * certainty_level (self st))) as [CL|];
      [|discriminate].
    intros E. by apply curve_loop_restores in E.
  - unfold_M. simpl. intros E. by apply curve_loop_restores in E.
Qed.

End Restoring.

(** The rows of lines 306-307. *)
Lemma curve_rows_words {St} o (s : St) n : forall i data,
  i + n <= length (masses o) -> i + n <= length (limits o) ->
  length data = length (masses o) ->
  exists data',
    curve_rows n i o data s = Ret data' s /\
    length data' = length data /\
    forall k, data' !! k =
              if decide (i <= k < i + n)
              then zip_with (fun m l => [m; l]) (masses o) (limits o) !! k
              else data !! k.
Proof.
  induction n as [|n IH]; intros i data Lm Ll Ld; simpl.
  - exists data. split; [done|]. split; [done|]. intros k.
    destruct (decide (i <= k < i + 0)); [lia|done].
  - destruct (lookup_lt_is_Some_2 (masses o) i) as [m Em]; [lia|].
    destruct (lookup_lt_is_Some_2 (limits o) i) as [l El]; [lia|].
    rewrite (bind_Ret _ _ _ _ _ (at_lookup _ _ s _ Em)).
    rewrite (bind_Ret _ _ _ _ _ (at_lookup _ _ s _ El)).
    destruct (decide (i < length data)); [|lia].
    destruct (IH (S i) (<[i := [m; l]]> data)) as (data' & E & Len & Each);
      [lia|lia|by rewrite length_insert|].
    exists data'. split; [done|]. rewrite length_insert in Len.
    split; [done|]. intros k. rewrite Each.
    destruct (decide (S i <= k < S i + n)), (decide (i <= k < i + S n));
      try lia; try done.
    + assert (k = i) as -> by lia.
      rewrite list_lookup_insert_eq by lia.
      rewrite lookup_zip_with, Em, El. done.
    + apply list_lookup_insert_ne. lia.
Qed.

Lemma curve_rows_short {St} o (s : St) n : forall i data,
  i + n <= length (masses o) -> length data = length (masses o) ->
  i <= length (limits o) < i + n ->
  curve_rows n i o data s = Undefined.
Proof.
  induction n as [|n IH]; intros i data Lm Ld Ll; [lia|]. simpl.
  destruct (lookup_lt_is_Some_2 (masses o) i) as [m Em]; [lia|].
  rewrite (bind_Ret _ _ _ _ _ (at_lookup _ _ s _ Em)).
  destruct (decide (i = length (limits o))) as [->|N].
  - apply bind_Undefined. unfold at_.
    by rewrite lookup_ge_None_2.
  - destruct (lookup_lt_is_Some_2 (limits o) i) as [l El]; [lia|].
    rewrite (bind_Ret _ _ _ _ _ (at_lookup _ _ s _ El)).
    destruct (decide (i < length data)); [|lia].
    apply IH; [lia|by rewrite length_insert|lia].
Qed.

(** X24. What [Export_Curve] writes.  On a rank other than 0 nothing
    happens.  On rank 0, with fewer limits than masses (as before any
    curve was computed) the call reads a limit that is not there:
    undefined behaviour.  Otherwise it pairs mass [i] with limit [i], so
    of the limits only the first [masses.size()] are used, and asks for the
    table to be written to the very file, [Reflection_Limit_<CL>.txt],
    whose stream [Compute_Limit_Curve] opens. *)
Theorem Export_Curve_pairs_masses_with_first_limits ID st :
  (forall mpi_rank, mpi_rank <> 0%Z -> Export_Curve ID mpi_rank st = Ret tt st) /\
  (length (limits (self st)) < length (masses (self st)) ->
   Export_Curve ID 0 st = Undefined) /\
  (length (masses (self st)) <= length (limits (self st)) ->
   forall CL,
     round_to_int (100.0 * certainty_level (self st))%float = Some CL ->
     Export_Curve ID 0 st =
     on_disk (Export_Table (curve_path ID CL)
                (zip_with (fun m l => [m; l])
                          (masses (self st))
                          (take (length (masses (self st)))
                                (limits (self st))))
                [GeV; (cm * cm)%float]) st).
Proof.
  split; [|split].
  - intros mpi_rank N. unfold Export_Curve.
    destruct (Z.eqb_spec mpi_rank 0) as [?|_]; [done|reflexivity].
  - intros L. unfold Export_Curve. unfold_M. simpl.
    rewrite curve_rows_short; [done|simpl; lia| |lia].
    by rewrite length_replicate.
  - intros L CL R. unfold Export_Curve. simpl.
    destruct (curve_rows_words (self st) st (length (masses (self st))) 0
                (replicate (length (masses (self st))) [0.0; 0.0]%float))
      as (data & E & Len & Each); [simpl; lia|simpl; lia| |].
    { by rewrite length_replicate. }
    rewrite length_replicate in Len.
    assert (data = zip_with (fun m l => [m; l]) (masses (self st))
                     (take (length (masses (self st))) (limits (self st))))
      as <-.
    { apply list_eq. intros k. rewrite Each.
      destruct (decide (0 <= k < 0 + length (masses (self st)))) as [Lk|Lk].
      - rewrite !lookup_zip_with. rewrite lookup_take_lt by lia. done.
      - transitivity (@None (list float)).
        + apply lookup_replicate_None. simpl in Lk. lia.
        + symmetry. apply lookup_ge_None_2.
          rewrite length_zip_with. simpl in Lk. lia. }
    unfold_M. rewrite E. unfold cast_to_int. rewrite R. reflexivity.
Qed.

End DirectCurve.

(** X22 and X23 at work: a curve over two masses, computed on rank 0. *)
Lemma Compute_Limit_Curve_appends_witness :
  @Compute_Limit_Curve (Stub.collaborators Scenario.dull_p) Stub.table_io
    "run" 0 Cases.direct_start = Ret tt Cases.direct_computed /\
  length (Solar_Reflection_Limit.limits (self Cases.direct_computed)) = 2.
Proof.
  assert (E : @Compute_Limit_Curve (Stub.collaborators Scenario.dull_p)
                Stub.table_io "run" 0 Cases.direct_start
              = Ret tt Cases.direct_computed) by (vm_compute; reflexivity).
  split; [exact E|].
  destruct (@Compute_Limit_Curve_appends (Stub.collaborators Scenario.dull_p)
              Stub.table_io "run" 0 Cases.direct_start Cases.direct_computed)
    as (new & S' & _ & LR & _).
  - by rewrite E.
  - rewrite S'. simpl. exact (LR E).
Defined.

Lemma Compute_Limit_Curve_restores_particle_witness :
  @Compute_Limit_Curve (Stub.collaborators Scenario.dull_p) Stub.table_io
    "run" 0 Cases.direct_start = Ret tt Cases.direct_computed /\
  @mass (Stub.collaborators Scenario.dull_p)
    (DM (models_ Cases.direct_computed)) = 5.0%float.
Proof.
  assert (E : @Compute_Limit_Curve (Stub.collaborators Scenario.dull_p)
                Stub.table_io "run" 0 Cases.direct_start
              = Ret tt Cases.direct_computed) by (vm_compute; reflexivity).
  split; [exact E|].
  destruct (@Compute_Limit_Curve_restores_particle
              (Stub.collaborators Scenario.dull_p) Stub.table_io
              (fun _ _ => eq_refl) (fun _ _ _ => eq_refl)
              (fun _ _ _ => eq_refl)
              "run" 0 Cases.direct_start Cases.direct_computed E) as [Em _].
  exact Em.
Defined.

(** X24 at work: after two curves over two masses the object holds four
    limits; the export writes two rows. *)
Lemma Export_Curve_pairs_masses_with_first_limits_witness :
  length (Solar_Reflection_Limit.limits (self Cases.direct_computed_twice))
  = 4 /\
  exists d,
    @Export_Curve (Stub.collaborators Scenario.dull_p) Stub.table_io
      "run" 0 Cases.direct_computed_twice
    = Ret tt (mkLimitState (self Cases.direct_computed_twice)
                           (models_ Cases.direct_computed_twice)
                           d
                           (stream Cases.direct_computed_twice)) /\
    Stub.find_file "/results/run/Reflection_Limit_90.txt" d
    = Some [[1.0; 2.0]; [2.0; 2.0]]%float.
Proof.
  split; [reflexivity|].
  destruct (@Export_Curve_pairs_masses_with_first_limits
              (Stub.collaborators Scenario.dull_p) Stub.table_io
              "run" Cases.direct_computed_twice) as (_ & _ & Pairs).
  eexists. rewrite (Pairs ltac:(vm_compute; lia) 90%Z eq_refl).
  split; vm_compute; reflexivity.
Defined.
